(** * Nebula graph: row codec facade and the GO executor

    A shallow embedding of
      - src/dataman/NebulaCodecImpl.cpp  (NebulaCodecImpl::encode / decode)
      - src/graph/GoExecutor.cpp         (the multi-hop traversal executor)
    and the properties of the specification that concern them.

    Conventions.
      - C++ integers (int32_t, int64_t, uint32_t ids and counters) are [Z];
        the modelled code only compares, negates and takes absolute values.
      - float / double values are carried as their IEEE bit patterns ([Z]);
        the only operation on them is the narrowing in toThriftResponse,
        which is a function of the environment.
      - [Result A] is StatusOr<A> (or Status when A = unit) extended with a
        third outcome for what is not a Status at all: a failed CHECK, a
        null dereference or a C++ exception.
      - std::unordered_map / std::unordered_set are stdpp [gmap] / [gset].
      - Classes that live outside the modelled files (RowReader, RowWriter,
        the schema manager, the expression library) are records of
        operations handed to the functions that use them.
      - LOG / VLOG statements are modelled where a property speaks of them
        (the completeness callbacks) and left out elsewhere. *)

From Stdlib Require Import ZArith String List Lia.
From stdpp Require Import base option list gmap strings pretty.

Local Open Scope string_scope.
Local Open Scope list_scope.
Local Open Scope Z_scope.

(* ================================================================= *)
(** ** Status and StatusOr *)

Inductive Result (A : Type) : Type :=
| Ok (a : A)              (* Status::OK() / a StatusOr holding a value *)
| Err (msg : string)      (* Status::Error(msg), Status::SyntaxError(msg) *)
| Fatal (what : string).  (* CHECK failure, null dereference, exception *)
Arguments Ok {A} a.
Arguments Err {A} msg.
Arguments Fatal {A} what.

#[global] Instance Result_bind : MBind Result := fun A B f m =>
  match m with
  | Ok a => f a
  | Err msg => Err msg
  | Fatal what => Fatal what
  end.

(** A for-loop over a container whose body may leave the enclosing
    function ([return false] after doError, or a fatal exit). *)
Fixpoint foreach {A S : Type} (body : A → S → Result S) (l : list A) (s : S)
  : Result S :=
  match l with
  | [] => Ok s
  | x :: xs => s' ← body x s; foreach body xs s'
  end.

(* ================================================================= *)
(** ** Common types (interface/common.thrift, base/Base.h) *)

Abbreviation VertexID := Z (only parsing).       (* int64_t *)
Abbreviation EdgeType := Z (only parsing).       (* int32_t *)
Abbreviation TagID := Z (only parsing).          (* int32_t *)
Abbreviation EdgeRanking := Z (only parsing).    (* int64_t *)
Abbreviation GraphSpaceID := Z (only parsing).   (* int32_t *)
Abbreviation PartitionID := Z (only parsing).
Abbreviation float := Z (only parsing).          (* binary32 bit pattern *)
Abbreviation double := Z (only parsing).         (* binary64 bit pattern *)

Inductive SupportedType :=
| UNKNOWN | BOOL | INT | VID | FLOAT | DOUBLE | STRING
| TIMESTAMP | YEAR | YEARMONTH | DATE | DATETIME | PATH.

#[global] Instance SupportedType_eq_dec : EqDecision SupportedType.
Proof. solve_decision. Defined.

(** Modelled from the spec: the reserved property names of section 6
    ([_SRC], [_DST], [_TYPE], [_RANK]); the constants are declared in a
    header outside the modelled files, and scenario S1 ([friend._dst])
    shows their spelling. *)
Definition _SRC : string := "_src".
Definition _DST : string := "_dst".
Definition _TYPE : string := "_type".
Definition _RANK : string := "_rank".

(** boost::variant<int64_t, double, bool, std::string> *)
Inductive VariantType :=
| VAR_INT64 (i : Z)
| VAR_DOUBLE (d : double)
| VAR_BOOL (b : bool)
| VAR_STR (s : string).

Definition OptVariantType := Result VariantType.

(* ================================================================= *)
(** ** dataman: schemas, row readers and row writers (interfaces) *)

(** A schema provider: the ordered columns (SchemaWriter::appendCol,
    ResultSchemaProvider). *)
Definition Schema := list (string * SupportedType).

Definition appendCol (schema : Schema) (name : string) (type : SupportedType)
  : Schema := schema ++ [(name, type)].

Inductive ResultType :=
| SUCCEEDED
| E_FAILED (code : Z).   (* every other enumerator, by its number *)

(** What a RowWriter is fed through [operator<<]. *)
Inductive Cell :=
| W_bool (b : bool)
| W_int (i : Z)
| W_float (f : float)
| W_double (d : double)
| W_string (s : string).

(** A RowReader positioned on one encoded row: each typed read returns its
    ResultType and what it left in the out-parameter. *)
Record RowReader := {
  getBool : string → ResultType * bool;
  getInt : string → ResultType * Z;        (* into an int32_t *)
  getString : string → ResultType * string;
  getVid : string → ResultType * Z;        (* into an int64_t *)
  getFloat : string → ResultType * float;
  getDouble : string → ResultType * double;
  (* RowReader::getPropByName(reader, prop): None is !ok(res) *)
  getPropByName : string → option VariantType
}.

(** The row format itself (RowWriter::encode, RowReader::getRowReader,
    RowReader::getDefaultProp, SchemaProviderIf::getFieldType) is code
    outside the modelled files: a parameter of everything below. *)
Record RowFormat := {
  RowWriter_encode : list Cell → string;
  RowReader_getRowReader : string → Schema → RowReader;
  RowReader_getDefaultProp : Schema → string → OptVariantType;
  getFieldType : Schema → string → SupportedType
}.

(* ================================================================= *)
(** ** src/dataman/NebulaCodecImpl.cpp *)

Module NebulaCodecImpl.

(** [Value] is boost::any; these are the dynamic types that the codec and
    its callers put into one. *)
Inductive Value :=
| any_int (i : Z)             (* typeid(int) *)
| any_int64 (v : Z)           (* typeid(int64_t) *)
| any_string (s : string)
| any_double (d : double)
| any_float (f : float)
| any_bool (b : bool)
| any_other (type_name : string).

(** One turn of the loop in [encode]: the typeid cascade. *)
Definition write (writer : list Cell) (value : Value) : list Cell :=
  match value with
  | any_int i => writer ++ [W_int i]
  | any_string s => writer ++ [W_string s]
  | any_double d => writer ++ [W_double d]
  | any_float f => writer ++ [W_float f]
  | any_bool b => writer ++ [W_bool b]
  | _ => writer   (* LOG(ERROR) << "Value Type :" ... *)
  end.

Definition encode (rf : RowFormat) (values : list Value) : string :=
  let writer := fold_left write values [] in   (* RowWriter writer(nullptr) *)
  RowWriter_encode rf writer.

(** The macro: store on SUCCEEDED, otherwise only log. *)
Definition PRINT_ERROR_MESSAGE (result : gmap string Value) (field : string)
    (code : ResultType) (value : Value) : gmap string Value :=
  match code with
  | SUCCEEDED => <[field := value]> result
  | _ => result
  end.

(** One turn of the second loop in [decode]: the switch on the type. *)
Definition decode_field (reader : RowReader) (result : gmap string Value)
    (iter : string * SupportedType) : gmap string Value :=
  let field := iter.1 in
  match iter.2 with
  | BOOL =>
      let '(code, b) := getBool reader field in
      PRINT_ERROR_MESSAGE result field code (any_bool b)
  | INT =>
      let '(code, i) := getInt reader field in
      PRINT_ERROR_MESSAGE result field code (any_int i)
  | STRING =>
      let '(code, piece) := getString reader field in
      PRINT_ERROR_MESSAGE result field code (any_string piece)
  | VID =>
      let '(code, v) := getVid reader field in
      PRINT_ERROR_MESSAGE result field code (any_int64 v)
  | FLOAT =>
      let '(code, f) := getFloat reader field in
      PRINT_ERROR_MESSAGE result field code (any_float f)
  | DOUBLE =>
      let '(code, d) := getDouble reader field in
      PRINT_ERROR_MESSAGE result field code (any_double d)
  | TIMESTAMP | YEAR | YEARMONTH | DATE | DATETIME | PATH => result
  | UNKNOWN => result
  end.

Definition decode (rf : RowFormat) (encoded : string)
    (fields : list (string * SupportedType)) : Result (gmap string Value) :=
  if decide (encoded = "") then Err "encoded string is empty"
  else if decide (length fields = 0%nat) then Err "fields is not set"
  else
    let schema := fold_left (λ s iter, appendCol s iter.1 iter.2) fields [] in
    let reader := RowReader_getRowReader rf encoded schema in
    Ok (fold_left (decode_field reader) fields ∅).

End NebulaCodecImpl.

(* ================================================================= *)
(** ** storage.thrift: property requests and responses *)

Inductive PropOwner := SOURCE | DEST | EDGE.

Inductive EntryId :=
| EntryId_tag_id (t : TagID)
| EntryId_edge_type (e : EdgeType).

Record PropDef := {
  pd_owner : PropOwner;
  pd_name : string;
  pd_id : EntryId
}.

Record IdAndProp := { get_dst : VertexID; get_props : string }.
Record EdgeData := { edata_type : EdgeType; get_edges : list IdAndProp }.
Record TagData := { td_tag_id : TagID; td_data : string }.
Record VertexData := {
  get_vertex_id : VertexID;
  get_tag_data : list TagData;
  edge_data : list EdgeData
}.

Record QueryResponse := {
  get_vertices : option (list VertexData);            (* nullptr = None *)
  get_vertex_schema : option (gmap TagID Schema);
  get_edge_schema : option (gmap EdgeType Schema);
  get_total_edges : option Z
}.

(** storage::StorageRpcResponse<QueryResponse> *)
Record RpcResponse := {
  completeness : Z;
  failedParts : list (PartitionID * Z);
  responses : list QueryResponse;
  hostLatency : list (Z * Z * Z)
}.

(** The arguments of StorageClient::getNeighbors. *)
Record GetNeighborsRequest := {
  req_space : GraphSpaceID;
  req_vertices : list VertexID;
  req_edgeTypes : list EdgeType;
  req_filter : string;
  req_returnCols : list PropDef
}.

(** graph.thrift: union ColumnValue; a default-constructed one is empty. *)
Inductive ColumnValue :=
| CV_EMPTY
| CV_bool_val (b : bool)
| CV_integer (i : Z)
| CV_id (i : Z)
| CV_single_precision (f : float)
| CV_double_precision (d : double)
| CV_str (s : string)
| CV_timestamp (i : Z).

Record RowValue := { columns : list ColumnValue }.

(* ================================================================= *)
(** ** The expression library and the schema manager (interfaces) *)

Record Getters := {
  getEdgeDstId : string → OptVariantType;
  getSrcTagProp : string → string → OptVariantType;
  getDstTagProp : string → string → OptVariantType;
  getAliasProp : string → string → OptVariantType;
  getVariableProp : string → OptVariantType;
  getInputProp : string → OptVariantType
}.

Inductive Kind :=
| kPrimary | kFunctionCall | kUnary | kTypeCasting | kArithmetic
| kRelational | kLogical | kSourceProp | kEdgeRank | kEdgeDstId
| kEdgeSrcId | kEdgeType | kAliasProp | kVariableProp | kDestProp
| kInputProp
| kUUID.   (* stands for every kind that calculateExprType leaves to its default *)

(** What the executor asks of an Expression object. [alias] and [prop] are
    those of an AliasPropertyExpression, [getType] the ColumnType of a
    TypeCastingExpression. *)
Record Expression := {
  kind : Kind;
  alias : string;
  prop : string;
  getType : Z;
  toString : string;
  eval : Getters → OptVariantType
}.

Record YieldColumn := {
  col_alias : option string;     (* nullptr = None *)
  col_expr : Expression;
  getFunName : string
}.

Record WhereWrapper := {
  filter_ : option Expression;
  filterPushdown_ : string
}.

(** Modelled from the spec: ExpressionContext, the registry that the OVER
    clause fills (section 4.1: each edge name is registered under its alias,
    duplicates fail) and that lists the properties the expressions refer
    to (section 4.4). *)
Record ExpressionContext := {
  edgeMap_ : gmap string EdgeType;
  tagMap_ : gmap string TagID;
  srcTagProps : list (string * string);
  dstTagProps : list (string * string);
  aliasProps : list (string * string);
  overAll_ : bool
}.

Definition getEdgeType (ctx : ExpressionContext) (name : string)
  : option EdgeType := edgeMap_ ctx !! name.

Definition getTagId (ctx : ExpressionContext) (name : string)
  : option TagID := tagMap_ ctx !! name.

Definition hasDstTagProp (ctx : ExpressionContext) : bool :=
  negb (bool_decide (dstTagProps ctx = [])).

Definition isOverAllEdge (ctx : ExpressionContext) : bool := overAll_ ctx.

Definition addEdge (ctx : ExpressionContext) (name : string) (v : EdgeType)
  : option ExpressionContext :=
  match edgeMap_ ctx !! name with
  | Some _ => None
  | None =>
      Some {| edgeMap_ := <[name := v]> (edgeMap_ ctx);
              tagMap_ := tagMap_ ctx;
              srcTagProps := srcTagProps ctx;
              dstTagProps := dstTagProps ctx;
              aliasProps := aliasProps ctx;
              overAll_ := overAll_ ctx |}
  end.

Definition setOverAllEdge (ctx : ExpressionContext) : ExpressionContext :=
  {| edgeMap_ := edgeMap_ ctx;
     tagMap_ := tagMap_ ctx;
     srcTagProps := srcTagProps ctx;
     dstTagProps := dstTagProps ctx;
     aliasProps := aliasProps ctx;
     overAll_ := true |}.

Record SchemaManager := {
  toTagID : GraphSpaceID → string → Result TagID;
  getTagSchema : GraphSpaceID → TagID → option Schema;
  toEdgeType : GraphSpaceID → string → Result EdgeType;
  getEdgeSchema : GraphSpaceID → EdgeType → option Schema;
  getAllEdge : GraphSpaceID → Result (list string)
}.

(** InterimResult::InterimResultIndex, built by setupStarts. *)
Record InterimResultIndex := {
  getColumnWithVID : VertexID → string → OptVariantType;
  getColumnType : string → SupportedType
}.

(** Everything the executor reaches through ectx(), the gflags and the
    library functions it calls. *)
Record Env := {
  space : GraphSpaceID;                 (* ectx()->rctx()->session()->space() *)
  schemaManager : SchemaManager;
  rowFormat : RowFormat;
  FLAGS_filter_pushdown : bool;
  FLAGS_trace_go : bool;
  asBool : VariantType → bool;          (* Expression::asBool *)
  hash_range : list VariantType → Z;    (* boost::hash_range *)
  columnTypeToSupportedType : Z → SupportedType;
  double_to_float : double → float      (* set_single_precision(double) *)
}.

(** storage.thrift: EdgePropResponse, as far as EdgeHolder::add reads it. *)
Record EdgePropResponse := {
  get_schema : option Schema;
  get_data : option string
}.

(** dataman: the row-set reader, the collector and the row writer, as far
    as EdgeHolder::add uses them. [RowSetReader_rows] lists the rows that
    the iterator of a RowSetReader visits; [RowWriter_collect] is a
    RowWriter over the schema that has collected the values, encoded. *)
Record RowSetFormat := {
  RowSetReader_rows : Schema → string → list RowReader;
  Collector_getProp : Schema → string → RowReader → OptVariantType;
  numFields : RowReader → nat;
  RowReader_getPropByIndex : RowReader → nat → option VariantType;
  RowWriter_collect : Schema → list VariantType → string
}.

(** EdgeType is a 32-bit integer: an int64_t stored as one is narrowed. *)
Definition to_EdgeType (z : Z) : EdgeType :=
  (z + 2 ^ 31) mod 2 ^ 32 - 2 ^ 31.

(** graph.thrift: ExecutionResponse, as far as the executor fills it. *)
Record ExecutionResponse := {
  column_names : option (list string);
  rows : option (list RowValue)
}.

(** InterimResult: the column names it is made with, and the row-set
    writer that setInterim hands over: its schema and its rows. *)
Record InterimResult := {
  ir_colNames : list string;
  ir_rsWriter : option (Schema * list string)
}.

(** What finishExecution and setupInterimResult reach besides:
    SchemaManager::toEdgeName, a YieldColumn over a new EdgeDstIdExpression
    of an edge name with the context set, Collector::getSchema,
    Collector::collect into a writer (with the time zone of the context),
    SchemaWriter::getFieldType by index, and the encoding of a RowWriter
    over a schema. *)
Record Output := {
  toEdgeName : GraphSpaceID → EdgeType → Result string;
  EdgeDstIdColumn : string → YieldColumn;
  Collector_getSchema :
    list VariantType → list string → list SupportedType → Result Schema;
  Collector_collect : VariantType → SupportedType → Result Cell;
  getFieldType_at : Schema → nat → SupportedType;
  RowWriter_encode_under : Schema → list Cell → string
}.

(* ================================================================= *)
(** ** Side tables *)

Module VertexBackTracker.

(** Modelled from the spec: VertexBackTracker (section 4.8), declared in
    the executor's base class: [get vid] returns the mapped root, and the
    vertex itself when it has none. *)
Record t := { mapping_ : gmap VertexID VertexID }.

Definition get (bt : t) (id : VertexID) : VertexID :=
  default id (mapping_ bt !! id).

(** Modelled from the spec: [add src dst] (sections 4.3 and 4.8) records
    for [dst] the root that [src] has, which is [src] itself when [src]
    has none. *)
Definition add (bt : t) (src dst : VertexID) : t :=
  {| mapping_ := <[dst := get bt src]> (mapping_ bt) |}.

End VertexBackTracker.

Module VertexHolder.

Record t := { data_ : gmap VertexID (gmap TagID (Schema * string)) }.

Definition empty : t := {| data_ := ∅ |}.

(** The first vertex (in the table's iteration order) that carries [tid]
    lends its schema. *)
Definition getDefaultProp (rf : RowFormat) (h : t) (tid : TagID)
    (prop : string) : OptVariantType :=
  match omap (λ it : VertexID * gmap TagID (Schema * string), it.2 !! tid)
             (map_to_list (data_ h)) with
  | it2 :: _ => RowReader_getDefaultProp rf it2.1 prop
  | [] => Err "Unknown Vertex"
  end.

Definition get (rf : RowFormat) (h : t) (id : VertexID) (tid : TagID)
    (prop : string) : OptVariantType :=
  match data_ h !! id with
  | None => getDefaultProp rf h tid prop
  | Some iter =>
      match iter !! tid with
      | None => getDefaultProp rf h tid prop
      | Some iter2 =>
          let reader := RowReader_getRowReader rf iter2.2 iter2.1 in
          match getPropByName reader prop with
          | None => Err ("get prop(" +:+ prop +:+ ") failed")
          | Some v => Ok v
          end
      end
  end.

(** [add]: every vertex of the response replaces its entry. The DCHECK
    states that the response carries a schema for every tag it sends data
    for; a blob without one is left out here. *)
Definition add (h : t) (resp : QueryResponse) : t :=
  match get_vertices resp, get_vertex_schema resp with
  | Some vertices, Some vertexSchema =>
      {| data_ :=
          fold_left
            (λ data vdata,
               let m :=
                 fold_left
                   (λ (m : gmap TagID (Schema * string)) td,
                      match vertexSchema !! td_tag_id td with
                      | Some schema => <[td_tag_id td := (schema, td_data td)]> m
                      | None => m
                      end)
                   (get_tag_data vdata) ∅ in
               <[get_vertex_id vdata := m]> data)
            vertices (data_ h) |}
  | _, _ => h
  end.

End VertexHolder.

Module EdgeHolder.

Record t := {
  edges_ : gmap (VertexID * VertexID * EdgeType) (Schema * string);
  schemas_ : gmap EdgeType Schema
}.

Definition empty : t := {| edges_ := ∅; schemas_ := ∅ |}.

Definition get (rf : RowFormat) (h : t) (src dst : VertexID)
    (type : EdgeType) (prop : string) : OptVariantType :=
  match edges_ h !! (src, dst, type) with
  | None =>
      Err ("EdgeHolder couldn't find src: " +:+ pretty src +:+ ", dst: "
           +:+ pretty dst +:+ ", type: " +:+ pretty type)
  | Some iter =>
      let reader := RowReader_getRowReader rf iter.2 iter.1 in
      match getPropByName reader prop with
      | None => Err ("Prop not found: `" +:+ prop +:+ "'")
      | Some v => Ok v
      end
  end.

Definition getDefaultProp (rf : RowFormat) (h : t) (type : EdgeType)
    (prop : string) : OptVariantType :=
  match schemas_ h !! type with
  | None =>
      (* This means that the reversely edge does not exist *)
      if bool_decide (prop = _DST) || bool_decide (prop = _SRC)
         || bool_decide (prop = _RANK)
      then Ok (VAR_INT64 0)
      else Err "Get default prop failed in reversely traversal."
  | Some sit => RowReader_getDefaultProp rf sit prop
  end.

(** std::unordered_map::emplace: an equivalent key keeps its entry. *)
Definition emplace `{Countable K} {V} (k : K) (v : V) (m : gmap K V)
  : gmap K V :=
  match m !! k with
  | Some _ => m
  | None => <[k := v]> m
  end.

(** The loop over the fields of one row in [add]. *)
Fixpoint collect_fields (rsf : RowSetFormat) (iter : RowReader)
    (indices : list nat) : Result (list VariantType) :=
  match indices with
  | [] => Ok []
  | i :: rest =>
      match RowReader_getPropByIndex rsf iter i with
      | None => Err "Get prop failed when add edge."
      | Some value =>
          values ← collect_fields rsf iter rest;
          Ok (value :: values)
      end
  end.

(** One turn of the loop over the rows in [add]. boost::get on a value
    that is not an int64_t throws. *)
Definition add_row (rsf : RowSetFormat) (eschema : Schema)
    (iter : RowReader) (h : t) : Result t :=
  match Collector_getProp rsf eschema _SRC iter,
        Collector_getProp rsf eschema _DST iter,
        Collector_getProp rsf eschema _TYPE iter with
  | Ok src, Ok dst, Ok type =>
      match src, dst, type with
      | VAR_INT64 src, VAR_INT64 dst, VAR_INT64 type =>
          values ← collect_fields rsf iter (seq 0 (numFields rsf iter));
          Ok {| edges_ :=
                  emplace (src, dst, to_EdgeType type)
                    (eschema, RowWriter_collect rsf eschema values)
                    (edges_ h);
                schemas_ := emplace (to_EdgeType type) eschema (schemas_ h) |}
      | _, _, _ => Fatal "boost::bad_get"
      end
  | _, _, _ => Ok h
  end.

(** [add]: a failure leaves the loop at once; the caller then ends the
    execution with that error. *)
Definition add (rsf : RowSetFormat) (h : t) (resp : EdgePropResponse)
  : Result t :=
  match get_schema resp, get_data resp with
  | Some eschema, Some data =>
      if bool_decide (data = "") then Ok h
      else foreach (add_row rsf eschema) (RowSetReader_rows rsf eschema data) h
  | _, _ => Ok h
  end.

End EdgeHolder.

(* ================================================================= *)
(** ** src/graph/GoExecutor.cpp *)

Module GoExecutor.

(** The parsed clauses the executor reads. *)
Record StepClause := { steps : Z; isUpto : bool }.
Record OverEdge := {
  isOverAll : bool;
  edge : string;
  oe_alias : option string
}.
Record OverClause := { oc_isReversely : bool; edges : list OverEdge }.

(** The members of GoExecutor that the modelled functions touch. *)
Record Executor := {
  steps_ : Z;                                   (* uint32_t *)
  upto_ : bool;
  curStep_ : Z;
  starts_ : list VertexID;
  edgeTypes_ : list EdgeType;
  isReversely_ : bool;
  backTracker_ : option VertexBackTracker.t;    (* unique_ptr, None = null *)
  vertexHolder_ : option VertexHolder.t;
  edgeHolder_ : option EdgeHolder.t;
  expCtx_ : ExpressionContext;
  yields_ : list YieldColumn;
  whereWrapper_ : WhereWrapper;
  distinct_ : bool;
  index_ : option InterimResultIndex
}.

Definition set_steps (v : Z) (st : Executor) : Executor :=
  let 'Build_Executor _ b c d e f g h i j k l m n := st in
  Build_Executor v b c d e f g h i j k l m n.
Definition set_upto (v : bool) (st : Executor) : Executor :=
  let 'Build_Executor a _ c d e f g h i j k l m n := st in
  Build_Executor a v c d e f g h i j k l m n.
Definition set_edgeTypes (v : list EdgeType) (st : Executor) : Executor :=
  let 'Build_Executor a b c d _ f g h i j k l m n := st in
  Build_Executor a b c d v f g h i j k l m n.
Definition set_isReversely (v : bool) (st : Executor) : Executor :=
  let 'Build_Executor a b c d e _ g h i j k l m n := st in
  Build_Executor a b c d e v g h i j k l m n.
Definition set_backTracker (v : option VertexBackTracker.t) (st : Executor)
  : Executor :=
  let 'Build_Executor a b c d e f _ h i j k l m n := st in
  Build_Executor a b c d e f v h i j k l m n.
Definition set_vertexHolder (v : option VertexHolder.t) (st : Executor)
  : Executor :=
  let 'Build_Executor a b c d e f g _ i j k l m n := st in
  Build_Executor a b c d e f g v i j k l m n.
Definition set_edgeHolder (v : option EdgeHolder.t) (st : Executor)
  : Executor :=
  let 'Build_Executor a b c d e f g h _ j k l m n := st in
  Build_Executor a b c d e f g h v j k l m n.
Definition set_expCtx (v : ExpressionContext) (st : Executor) : Executor :=
  let 'Build_Executor a b c d e f g h i _ k l m n := st in
  Build_Executor a b c d e f g h i v k l m n.

(** Modelled from the spec: the inline accessors of the executor's header
    (section 4.3: a hop is final when its number reaches the step count). *)
Definition isFinalStep (st : Executor) : bool :=
  bool_decide (curStep_ st = steps_ st).
Definition isReversely (st : Executor) : bool := isReversely_ st.

(** *** prepareStep *)
Definition prepareStep (clause : option StepClause) (st : Executor)
  : Result unit * Executor :=
  let st :=
    match clause with
    | Some clause => set_upto (isUpto clause) (set_steps (steps clause) st)
    | None => st
    end in
  if upto_ st then (Err "`UPTO' not supported yet", st)
  else
    let st :=
      if bool_decide (steps_ st ≠ 1)
      then set_backTracker (Some {| VertexBackTracker.mapping_ := ∅ |}) st
      else st in
    (Ok (), st).

(** *** prepareOverAll, prepareOver *)
Fixpoint prepareOverAll_loop (env : Env) (allEdge : list string)
    (st : Executor) : Result unit * Executor :=
  match allEdge with
  | [] => (Ok (), st)
  | e :: rest =>
      match toEdgeType (schemaManager env) (space env) e with
      | Ok v =>
          let v := if isReversely st then - v else v in
          let st := set_edgeTypes (edgeTypes_ st ++ [v]) st in
          match addEdge (expCtx_ st) e v with
          | None => (Err ("edge alias(" +:+ e +:+ ") was dup"), st)
          | Some ctx => prepareOverAll_loop env rest (set_expCtx ctx st)
          end
      | Err msg => (Err msg, st)
      | Fatal what => (Fatal what, st)
      end
  end.

Definition prepareOverAll (env : Env) (st : Executor)
  : Result unit * Executor :=
  match getAllEdge (schemaManager env) (space env) with
  | Ok allEdge => prepareOverAll_loop env allEdge st
  | Err msg => (Err msg, st)
  | Fatal what => (Fatal what, st)
  end.

Fixpoint prepareOver_loop (env : Env) (edges : list OverEdge)
    (st : Executor) : Result unit * Executor :=
  match edges with
  | [] => (Ok (), st)
  | e :: rest =>
      if isOverAll e
      then prepareOverAll env (set_expCtx (setOverAllEdge (expCtx_ st)) st)
      else
        match toEdgeType (schemaManager env) (space env) (edge e) with
        | Ok v =>
            let v := if isReversely st then - v else v in
            let st := set_edgeTypes (edgeTypes_ st ++ [v]) st in
            let name := default (edge e) (oe_alias e) in
            match addEdge (expCtx_ st) name v with
            | None => (Err ("edge alias(" +:+ name +:+ ") was dup"), st)
            | Some ctx => prepareOver_loop env rest (set_expCtx ctx st)
            end
        | Err msg => (Err msg, st)
        | Fatal what => (Fatal what, st)
        end
  end.

Definition prepareOver (env : Env) (clause : option OverClause)
    (st : Executor) : Result unit * Executor :=
  match clause with
  | None => (Err "Over clause shall never be null", st)
  | Some clause =>
      let st := set_isReversely (oc_isReversely clause) st in
      let st :=
        if isReversely st then set_edgeHolder (Some EdgeHolder.empty) st
        else st in
      prepareOver_loop env (edges clause) st
  end.

(** *** getStepOutProps *)
Definition edgeProp (name : string) (e : EdgeType) : PropDef :=
  {| pd_owner := EDGE; pd_name := name; pd_id := EntryId_edge_type e |}.

Definition tagProp (owner : PropOwner) (name : string) (tagId : TagID)
  : PropDef :=
  {| pd_owner := owner; pd_name := name; pd_id := EntryId_tag_id tagId |}.

(** The loop over expCtx_->srcTagProps(). *)
Fixpoint srcTagProps_loop (env : Env) (l : list (string * string))
    (props : list PropDef) : Result (list PropDef) :=
  match l with
  | [] => Ok props
  | tp :: rest =>
      match toTagID (schemaManager env) (space env) tp.1 with
      | Ok tagId =>
          srcTagProps_loop env rest (props ++ [tagProp SOURCE tp.2 tagId])
      | Err _ => Err ("No schema found for '" +:+ tp.1 +:+ "'")
      | Fatal what => Fatal what
      end
  end.

(** The loop over expCtx_->aliasProps(). *)
Fixpoint aliasProps_loop (ctx : ExpressionContext)
    (l : list (string * string)) (props : list PropDef)
  : Result (list PropDef) :=
  match l with
  | [] => Ok props
  | prop :: rest =>
      if bool_decide (prop.2 = _DST) then aliasProps_loop ctx rest props
      else
        match getEdgeType ctx prop.1 with
        | None => Err ("the edge was not found '" +:+ prop.1 +:+ "'")
        | Some edgeType =>
            aliasProps_loop ctx rest (props ++ [edgeProp prop.2 edgeType])
        end
  end.

Definition getStepOutProps (env : Env) (st : Executor)
  : Result (list PropDef) :=
  if negb (isFinalStep st) then
    Ok (fold_left (λ props e, props ++ [edgeProp _DST e]) (edgeTypes_ st) [])
  else
    let props :=
      fold_left
        (λ props e,
           let props := props ++ [edgeProp _DST e] in
           (* We need ranking when go reverly in final step *)
           if isReversely st then props ++ [edgeProp _RANK e] else props)
        (edgeTypes_ st) [] in
    props ← srcTagProps_loop env (srcTagProps (expCtx_ st)) props;
    if isReversely st then Ok props
    else aliasProps_loop (expCtx_ st) (aliasProps (expCtx_ st)) props.

(** *** stepOut: the request, and the continuation of its future *)
Definition stepOut (env : Env) (st : Executor) : Result GetNeighborsRequest :=
  match getStepOutProps env st with
  | Ok returns =>
      let filterPushdown :=
        if FLAGS_filter_pushdown env && isFinalStep st && negb (isReversely st)
        then filterPushdown_ (whereWrapper_ st)
        else "" in
      Ok {| req_space := space env;
            req_vertices := starts_ st;
            req_edgeTypes := edgeTypes_ st;
            req_filter := filterPushdown;
            req_returnCols := returns |}
  | Err _ => Err "Get step out props failed"
  | Fatal what => Fatal what
  end.

Inductive LogLine :=
| LOG_partially_failed (completeness : Z)   (* "... partially failed: c%" *)
| LOG_failed_part (part : PartitionID) (code : Z)
| LOG_step_finished (curStep : Z) (requested : nat)
| LOG_host_latency (host t1 t2 : Z) (results : nat).

(** What a continuation hands control to; [abort] is a null pointer or
    an index out of range that it ran into. *)
Inductive Next :=
| doError (status : string)
| onStepOutResponse (rpcResp : RpcResponse)
| finishExecution (st : Executor) (rpcResp : RpcResponse)
| abort (what : string).

Definition log_partial (completeness : Z) (result : RpcResponse)
  : list LogLine :=
  LOG_partially_failed completeness
  :: map (λ error, LOG_failed_part error.1 error.2) (failedParts result).

(** The loop over hostLatency in the trace, from index [i] on: each line
    reads result.responses()[i].get_vertices()->size(), and neither the
    index nor the pointer is checked. The second component is what the
    loop ran into, if anything; the lines before that are logged. *)
Fixpoint log_latencies (responses : list QueryResponse) (i : nat)
    (hostLatency : list (Z * Z * Z)) : list LogLine * option string :=
  match hostLatency with
  | [] => ([], None)
  | h :: rest =>
      match responses !! i with
      | None => ([], Some "responses()[i] is out of range")
      | Some resp =>
          match get_vertices resp with
          | None => ([], Some "get_vertices() is null")
          | Some vertices =>
              let later := log_latencies responses (S i) rest in
              (LOG_host_latency h.1.1 h.1.2 h.2 (length vertices) :: later.1,
               later.2)
          end
      end
  end.

Definition log_trace (st : Executor) (result : RpcResponse)
  : list LogLine * option string :=
  let latencies := log_latencies (responses result) 0 (hostLatency result) in
  (LOG_step_finished (curStep_ st) (length (starts_ st)) :: latencies.1,
   latencies.2).

(** The lambda [cb] of stepOut. *)
Definition stepOut_cb (env : Env) (st : Executor) (result : RpcResponse)
  : list LogLine * Next :=
  let completeness := completeness result in
  if bool_decide (completeness = 0) then
    ([], doError "Get neighbors failed")
  else
    let log1 :=
      if bool_decide (completeness ≠ 100)
      then log_partial completeness result else [] in
    if FLAGS_trace_go env then
      let trace := log_trace st result in
      (log1 ++ trace.1,
       match trace.2 with
       | Some what => abort what
       | None => onStepOutResponse result
       end)
    else (log1, onStepOutResponse result).

(** The lambda [cb] of fetchVertexProps; [stepOutResp] is its capture. *)
Definition fetchVertexProps_cb (st : Executor) (stepOutResp : RpcResponse)
    (result : RpcResponse) : list LogLine * Next :=
  let completeness := completeness result in
  if bool_decide (completeness = 0) then
    ([], doError "Get dest props failed")
  else
    let log1 :=
      if bool_decide (completeness ≠ 100)
      then log_partial completeness result else [] in
    let vertexHolder := default VertexHolder.empty (vertexHolder_ st) in
    let vertexHolder :=
      fold_left VertexHolder.add (responses result) vertexHolder in
    (log1,
     finishExecution (set_vertexHolder (Some vertexHolder) st) stepOutResp).

(** *** getResultColumnNames *)
Definition getResultColumnNames (st : Executor) : list string :=
  map (λ col,
         match col_alias col with
         | None => toString (col_expr col)
         | Some alias => alias
         end)
      (yields_ st).

(** *** getPropFromInterim, getPropTypeFromInterim *)
Definition getPropFromInterim (st : Executor) (id : VertexID) (prop : string)
  : OptVariantType :=
  let rootId :=
    match backTracker_ st with
    | Some backTracker => VertexBackTracker.get backTracker id
    | None => id
    end in
  match index_ st with
  | None => Fatal "index_ is null"
  | Some index => getColumnWithVID index rootId prop
  end.

Definition getPropTypeFromInterim (st : Executor) (prop : string)
  : Result SupportedType :=
  match index_ st with
  | None => Fatal "index_ is null"
  | Some index => Ok (getColumnType index prop)
  end.

(** *** calculateExprType *)
Definition calculateExprType (env : Env) (st : Executor) (exp : Expression)
  : Result SupportedType :=
  match kind exp with
  | kPrimary | kFunctionCall | kUnary | kArithmetic => Ok UNKNOWN
  | kTypeCasting => Ok (columnTypeToSupportedType env (getType exp))
  | kRelational | kLogical => Ok BOOL
  | kDestProp | kSourceProp =>
      match toTagID (schemaManager env) (space env) (alias exp) with
      | Ok tagId =>
          match getTagSchema (schemaManager env) (space env) tagId with
          | Some ts => Ok (getFieldType (rowFormat env) ts (prop exp))
          | None => Ok UNKNOWN
          end
      | Err _ => Ok UNKNOWN
      | Fatal what => Fatal what
      end
  | kEdgeDstId | kEdgeSrcId => Ok VID
  | kEdgeRank | kEdgeType => Ok INT
  | kAliasProp =>
      match toEdgeType (schemaManager env) (space env) (alias exp) with
      | Ok edgeType =>
          match getEdgeSchema (schemaManager env) (space env) edgeType with
          | Some schema => Ok (getFieldType (rowFormat env) schema (prop exp))
          | None => Ok UNKNOWN
          end
      | Err _ => Ok UNKNOWN
      | Fatal what => Fatal what
      end
  | kVariableProp | kInputProp => getPropTypeFromInterim st (prop exp)
  | kUUID => Ok UNKNOWN
  end.

(** *** The getters that processFinalResult builds for one edge record.
    The arguments before the property names are the lambda captures. *)
Definition getters_getEdgeDstId (st : Executor) (srcId dstId : VertexID)
    (edgeType : EdgeType) (edgeName : string) : OptVariantType :=
  let ret := Ok (VAR_INT64 (if isReversely st then srcId else dstId)) in
  if bool_decide (1 < length (edgeTypes_ st))%nat then
    match getEdgeType (expCtx_ st) edgeName with
    | None =>
        Err ("Get edge type for `" +:+ edgeName +:+ "' failed in getters.")
    | Some type =>
        if bool_decide (type ≠ edgeType) then Ok (VAR_INT64 0) else ret
    end
  else ret.

Definition getters_getSrcTagProp (env : Env) (st : Executor)
    (tagData : list TagData) (tagSchema : gmap TagID Schema)
    (tag prop : string) : OptVariantType :=
  match getTagId (expCtx_ st) tag with
  | None => Err ("Get tag id for `" +:+ tag +:+ "' failed in getters.")
  | Some tagId =>
      match find (λ td, bool_decide (td_tag_id td = tagId)) tagData with
      | None =>
          match getTagSchema (schemaManager env) (space env) tagId with
          | None => Err ("No tag schema for " +:+ tag)
          | Some ts => RowReader_getDefaultProp (rowFormat env) ts prop
          end
      | Some it2 =>
          match tagSchema !! tagId with
          | None => Fatal "tagSchema[tagId] is null"
          | Some schema =>
              let vreader :=
                RowReader_getRowReader (rowFormat env) (td_data it2) schema in
              match getPropByName vreader prop with
              | None => Err ("get prop(" +:+ tag +:+ "." +:+ prop +:+ ") failed")
              | Some v => Ok v
              end
          end
      end
  end.

Definition getters_getDstTagProp (env : Env) (st : Executor)
    (dstId : VertexID) (tag prop : string) : OptVariantType :=
  match getTagId (expCtx_ st) tag with
  | None => Err ("Get tag id for `" +:+ tag +:+ "' failed in getters.")
  | Some tagId =>
      match vertexHolder_ st with
      | None => Fatal "vertexHolder_ is null"
      | Some vertexHolder =>
          VertexHolder.get (rowFormat env) vertexHolder dstId tagId prop
      end
  end.

Definition getters_getAliasProp (env : Env) (st : Executor)
    (reader : option RowReader) (srcId dstId : VertexID)
    (edgeType : EdgeType) (edgeSchema : gmap EdgeType Schema)
    (edgeName prop : string) : OptVariantType :=
  match reader with
  | None => Fatal "CHECK(reader != nullptr)"
  | Some reader =>
      match getEdgeType (expCtx_ st) edgeName with
      | None =>
          Err ("Get edge type for `" +:+ edgeName +:+ "' failed in getters.")
      | Some type =>
          if isReversely st then
            match edgeHolder_ st with
            | None => Fatal "edgeHolder_ is null"
            | Some edgeHolder =>
                if bool_decide (edgeType ≠ type) then
                  EdgeHolder.getDefaultProp (rowFormat env) edgeHolder
                    (Z.abs type) prop
                else
                  EdgeHolder.get (rowFormat env) edgeHolder dstId srcId
                    (Z.abs edgeType) prop
            end
          else
            if bool_decide (edgeType ≠ type) then
              match edgeSchema !! type with
              | None => Err "get schema failed"
              | Some sit => RowReader_getDefaultProp (rowFormat env) sit prop
              end
            else
              match getPropByName reader prop with
              | None =>
                  Err ("get prop(" +:+ edgeName +:+ "." +:+ prop +:+ ") failed")
              | Some v => Ok v
              end
      end
  end.

Definition mkGetters (env : Env) (st : Executor)
    (tagSchema : gmap TagID Schema) (edgeSchema : gmap EdgeType Schema)
    (tagData : list TagData) (srcId : VertexID) (edgeType : EdgeType)
    (reader : option RowReader) (dstId : VertexID) : Getters :=
  {| getEdgeDstId := getters_getEdgeDstId st srcId dstId edgeType;
     getSrcTagProp := getters_getSrcTagProp env st tagData tagSchema;
     getDstTagProp := getters_getDstTagProp env st dstId;
     getAliasProp :=
       getters_getAliasProp env st reader srcId dstId edgeType edgeSchema;
     getVariableProp := getPropFromInterim st srcId;
     getInputProp := getPropFromInterim st srcId |}.

(** *** processFinalResult *)

(** The callback type: [S] is what the closure captures by reference. *)
Definition Callback (S : Type) : Type :=
  list VariantType → list SupportedType → S → Result S.

(** The loop over yields_ that fills [record]. *)
Fixpoint evalYields (yields : list YieldColumn) (getters : Getters)
  : Result (list VariantType) :=
  match yields with
  | [] => Ok []
  | column :: rest =>
      value ← eval (col_expr column) getters;
      record ← evalYields rest getters;
      Ok (value :: record)
  end.

(** Everything after the filter in the body of the innermost loop. *)
Definition emitRecord {S : Type} (env : Env) (st : Executor)
    (cb : Callback S) (colTypes : list SupportedType) (getters : Getters)
    (acc : gset Z * S) : Result (gset Z * S) :=
  record ← evalYields (yields_ st) getters;
  let '(uniqResult, s) := acc in
  if distinct_ st then
    let h := hash_range env record in
    if bool_decide (h ∈ uniqResult) then Ok acc
    else s' ← cb record colTypes s; Ok ({[h]} ∪ uniqResult, s')
  else s' ← cb record colTypes s; Ok (uniqResult, s').

(** The body of the innermost loop ([for (auto& edge : edata.edges)]). *)
Definition projectEdge {S : Type} (env : Env) (st : Executor)
    (cb : Callback S) (colTypes : list SupportedType)
    (getters : Getters) (acc : gset Z * S) : Result (gset Z * S) :=
  match filter_ (whereWrapper_ st) with
  | Some filter =>
      value ← eval filter getters;
      if asBool env value then emitRecord env st cb colTypes getters acc
      else Ok acc   (* continue *)
  | None => emitRecord env st cb colTypes getters acc
  end.

Fixpoint calculateExprTypes (env : Env) (st : Executor)
    (yields : list YieldColumn) : Result (list SupportedType) :=
  match yields with
  | [] => Ok []
  | column :: rest =>
      type ← calculateExprType env st (col_expr column);
      colTypes ← calculateExprTypes env st rest;
      Ok (type :: colTypes)
  end.

(** [Ok s] is [return true] with the callback's captures in state [s];
    [Err status] is [doError(status); return false]. The DCHECK on the
    edge-schema lookup states that a response with edge schemas has one for
    every edge type it returns; a type without one has no reader here. *)
Definition processFinalResult {S : Type} (env : Env) (st : Executor)
    (rpcResp : RpcResponse) (cb : Callback S) (s : S) : Result S :=
  colTypes ← calculateExprTypes env st (yields_ st);
  acc ←
    foreach
      (λ resp acc,
         match get_vertices resp with
         | None => Ok acc
         | Some vertices =>
             let tagSchema := default ∅ (get_vertex_schema resp) in
             let edgeSchema := default ∅ (get_edge_schema resp) in
             foreach
               (λ vdata acc,
                  let tagData := get_tag_data vdata in
                  let srcId := get_vertex_id vdata in
                  foreach
                    (λ edata acc,
                       let edgeType := edata_type edata in
                       let currEdgeSchema := edgeSchema !! edgeType in
                       foreach
                         (λ edge acc,
                            let dstId := get_dst edge in
                            let reader :=
                              RowReader_getRowReader (rowFormat env)
                                (get_props edge) <$> currEdgeSchema in
                            projectEdge env st cb colTypes
                              (mkGetters env st tagSchema edgeSchema tagData
                                 srcId edgeType reader dstId)
                              acc)
                         (get_edges edata) acc)
                    (edge_data vdata) acc)
               vertices acc
         end)
      (responses rpcResp) (∅, s);
  Ok acc.2.

(** *** toThriftResponse *)

(** One turn of the loop over colTypes in the callback: the cell that
    [row.emplace_back()] created, after the switch. boost::get on the
    wrong alternative throws. *)
Definition setColumn (env : Env) (type : SupportedType) (column : VariantType)
  : Result ColumnValue :=
  let bad_get := Fatal "boost::bad_get" in
  match type with
  | BOOL =>
      match column with VAR_BOOL b => Ok (CV_bool_val b) | _ => bad_get end
  | INT =>
      match column with VAR_INT64 i => Ok (CV_integer i) | _ => bad_get end
  | DOUBLE =>
      match column with
      | VAR_DOUBLE d => Ok (CV_double_precision d)
      | _ => bad_get
      end
  | FLOAT =>
      match column with
      | VAR_DOUBLE d => Ok (CV_single_precision (double_to_float env d))
      | _ => bad_get
      end
  | STRING =>
      match column with VAR_STR s => Ok (CV_str s) | _ => bad_get end
  | TIMESTAMP =>
      match column with VAR_INT64 i => Ok (CV_timestamp i) | _ => bad_get end
  | VID =>
      match column with VAR_INT64 i => Ok (CV_id i) | _ => bad_get end
  | _ =>
      match column with
      | VAR_INT64 i => Ok (CV_integer i)
      | VAR_DOUBLE d => Ok (CV_double_precision d)
      | VAR_BOOL _ => Ok CV_EMPTY          (* case VAR_BOOL: break; *)
      | VAR_STR s => Ok (CV_str s)
      end
  end.

Fixpoint setColumns (env : Env) (record : list VariantType)
    (colTypes : list SupportedType) : Result (list ColumnValue) :=
  match colTypes with
  | [] => Ok []
  | type :: colTypes' =>
      match record with
      | [] => Fatal "record[i] is out of range"
      | column :: record' =>
          cell ← setColumn env type column;
          row ← setColumns env record' colTypes';
          Ok (cell :: row)
      end
  end.

(** The lambda [cb] of toThriftResponse; it captures [rows]. *)
Definition toThriftResponse_cb (env : Env) : Callback (list RowValue) :=
  λ record colTypes rows,
    row ← setColumns env record colTypes;
    Ok (rows ++ [{| columns := row |}]).

Definition toThriftResponse (env : Env) (st : Executor)
    (rpcResp : RpcResponse) : Result (list RowValue) :=
  match processFinalResult env st rpcResp (toThriftResponse_cb env) [] with
  | Ok rows => Ok rows
  | Err _ => Err "process failed"
  | Fatal what => Fatal what
  end.

End GoExecutor.

(* ================================================================= *)
(** ** src/graph/GoExecutor.cpp: from one round trip to the next *)

Module GoExecutorFlow.
Import GoExecutor.

Definition set_curStep (v : Z) (st : Executor) : Executor :=
  let 'Build_Executor a b _ d e f g h i j k l m n := st in
  Build_Executor a b v d e f g h i j k l m n.
Definition set_starts (v : list VertexID) (st : Executor) : Executor :=
  let 'Build_Executor a b c _ e f g h i j k l m n := st in
  Build_Executor a b c v e f g h i j k l m n.
Definition set_yields (v : list YieldColumn) (st : Executor) : Executor :=
  let 'Build_Executor a b c d e f g h i j _ l m n := st in
  Build_Executor a b c d e f g h i j v l m n.

(** storage.thrift: EdgeKey, and the arguments of getVertexProps and
    getEdgeProps. *)
Record EdgeKey := {
  ek_src : VertexID;
  ek_dst : VertexID;
  ek_ranking : EdgeRanking;
  ek_edge_type : EdgeType
}.

Record GetVertexPropsRequest := {
  vreq_space : GraphSpaceID;
  vreq_vertices : list VertexID;
  vreq_returnCols : list PropDef
}.

Record GetEdgePropsRequest := {
  ereq_space : GraphSpaceID;
  ereq_edges : list EdgeKey;
  ereq_returnCols : list PropDef
}.

(** How a function of the executor ends: with an error, with the output
    for empty inputs, with a storage request whose continuation will
    resume from the state given, or with the projection. *)
Inductive Action :=
| A_fatal (what : string)
| A_doError (status : string)
| A_onEmptyInputs (st : Executor)
| A_getNeighbors (st : Executor) (req : GetNeighborsRequest)
| A_getVertexProps (st : Executor) (req : GetVertexPropsRequest)
    (stepOutResp : RpcResponse)
| A_getEdgeProps (st : Executor) (reqs : list GetEdgePropsRequest)
    (dstids : list VertexID) (stepResp : RpcResponse)
| A_finishExecution (st : Executor) (rpcResp : RpcResponse).

(** *** getDstProps *)
Fixpoint getDstProps_loop (env : Env) (l : list (string * string))
    (props : list PropDef) : Result (list PropDef) :=
  match l with
  | [] => Ok props
  | tp :: rest =>
      match toTagID (schemaManager env) (space env) tp.1 with
      | Ok tagId =>
          getDstProps_loop env rest (props ++ [tagProp DEST tp.2 tagId])
      | Err _ => Err ("No schema found for '" +:+ tp.1 +:+ "'")
      | Fatal what => Fatal what
      end
  end.

Definition getDstProps (env : Env) (st : Executor) : Result (list PropDef) :=
  getDstProps_loop env (dstTagProps (expCtx_ st)) [].

(** *** fetchVertexProps: up to the request *)
Definition fetchVertexProps (env : Env) (st : Executor)
    (ids : list VertexID) (rpcResp : RpcResponse) : Action :=
  match getDstProps env st with
  | Ok returns =>
      A_getVertexProps st
        {| vreq_space := space env; vreq_vertices := ids;
           vreq_returnCols := returns |}
        rpcResp
  | Err msg => A_doError msg
  | Fatal what => A_fatal what
  end.

(** *** getDstIdsFromResp
    The ids come out of an unordered set: their order is that of the
    set's iteration. The second component is the back-tracker, which the
    function updates through its pointer. It has no failing path. *)
Definition getDstIdsFromResp (st : Executor) (rpcResp : RpcResponse)
  : list VertexID * option VertexBackTracker.t :=
  let acc :=
    fold_left
      (λ acc resp,
         match get_vertices resp with
         | None => acc
         | Some vertices =>
             fold_left
               (λ acc vdata,
                  fold_left
                    (λ acc edata,
                       fold_left
                         (λ (acc : gset Z * option VertexBackTracker.t) edge,
                            let dst := get_dst edge in
                            let backTracker :=
                              if negb (isFinalStep st)
                              then (λ bt, VertexBackTracker.add bt
                                            (get_vertex_id vdata) dst)
                                   <$> acc.2
                              else acc.2 in
                            ({[dst]} ∪ acc.1, backTracker))
                         (get_edges edata) acc)
                    (edge_data vdata) acc)
               vertices acc
         end)
      (responses rpcResp) (∅, backTracker_ st) in
  (elements acc.1, acc.2).

(** *** stepOut, as the action it ends with *)
Definition stepOut_action (env : Env) (st : Executor) : Action :=
  match stepOut env st with
  | Ok req => A_getNeighbors st req
  | Err msg => A_doError msg
  | Fatal what => A_fatal what
  end.

(** *** maybeFinishExecution *)

(** The innermost loops over the final response in reverse mode: one
    EdgeKey per edge that has a schema, filed under the positive type. *)
Definition edgeKeys_of_vertex (env : Env) (schemas : gmap EdgeType Schema)
    (vdata : VertexData) (edgeKeysMapping : gmap EdgeType (list EdgeKey))
  : Result (gmap EdgeType (list EdgeKey)) :=
  foreach
    (λ edata edgeKeysMapping,
       currEdgeSchema ←
         (if bool_decide (schemas = ∅) then Ok None
          else match schemas !! edata_type edata with
               | Some schema => Ok (Some schema)
               | None => Fatal "DCHECK(it != schemas.end())"
               end);
       foreach
         (λ edge (edgeKeysMapping : gmap EdgeType (list EdgeKey)),
            let dst := get_dst edge in
            match currEdgeSchema with
            | None => Ok edgeKeysMapping
            | Some schema =>
                let reader :=
                  RowReader_getRowReader (rowFormat env) (get_props edge)
                    schema in
                let '(rc, rank) := getInt reader _RANK in
                match rc with
                | SUCCEEDED =>
                    let type := Z.abs (edata_type edata) in
                    let edgeKeys := default [] (edgeKeysMapping !! type) in
                    Ok (<[type :=
                            edgeKeys ++
                              [{| ek_src := dst;
                                  ek_dst := get_vertex_id vdata;
                                  ek_ranking := rank;
                                  ek_edge_type := type |}]]>
                          edgeKeysMapping)
                | _ => Err "Get rank error when go reversely."
                end
            end)
         (get_edges edata) edgeKeysMapping)
    (edge_data vdata) edgeKeysMapping.

Definition edgeKeys_of_response (env : Env) (rpcResp : RpcResponse)
  : Result (gmap EdgeType (list EdgeKey)) :=
  foreach
    (λ resp edgeKeysMapping,
       match get_vertices resp with
       | None => Ok edgeKeysMapping
       | Some vertices =>
           let schemas := default ∅ (get_edge_schema resp) in
           foreach (edgeKeys_of_vertex env schemas) vertices edgeKeysMapping
       end)
    (responses rpcResp) ∅.

(** The loop over expCtx_->aliasProps() that files the requested
    properties under the positive type. *)
Definition edgeProps_of_aliasProps (ctx : ExpressionContext)
  : Result (gmap EdgeType (list PropDef)) :=
  foreach
    (λ (prop : string * string) (edgePropsMapping : gmap EdgeType (list PropDef)),
       match getEdgeType ctx prop.1 with
       | None => Err ("No schema found for `" +:+ prop.1 +:+ "'")
       | Some edgeType =>
           let edgeType := Z.abs edgeType in
           let edgeProps := default [] (edgePropsMapping !! edgeType) in
           Ok (<[edgeType := edgeProps ++ [edgeProp prop.2 edgeType]]>
                 edgePropsMapping)
       end)
    (aliasProps ctx) ∅.

Definition maybeFinishExecution (env : Env) (st : Executor)
    (rpcResp : RpcResponse) : Action :=
  let requireDstProps := hasDstTagProp (expCtx_ st) in
  let requireEdgeProps := negb (bool_decide (aliasProps (expCtx_ st) = [])) in
  if (negb requireDstProps && negb (isReversely st))
     || (isReversely st && negb requireDstProps && negb requireEdgeProps
         && negb (isOverAllEdge (expCtx_ st)
                  && bool_decide (yields_ st = [])))
  then A_finishExecution st rpcResp
  else
    let dstIdStatus := getDstIdsFromResp st rpcResp in
    let st := set_backTracker dstIdStatus.2 st in
    let dstids := dstIdStatus.1 in
    (* Reaching the dead end *)
    if bool_decide (dstids = []) then A_onEmptyInputs st
    (* Only properties on destination nodes required *)
    else if negb (isReversely st) || (requireDstProps && negb requireEdgeProps)
    then fetchVertexProps env st dstids rpcResp
    else
      match edgeKeys_of_response env rpcResp with
      | Err msg => A_doError msg
      | Fatal what => A_fatal what
      | Ok edgeKeysMapping =>
          match edgeProps_of_aliasProps (expCtx_ st) with
          | Err msg => A_doError msg
          | Fatal what => A_fatal what
          | Ok edgePropsMapping =>
              A_getEdgeProps st
                ((λ pair : EdgeType * list EdgeKey,
                    {| ereq_space := space env;
                       ereq_edges := pair.2;
                       ereq_returnCols :=
                         default [] (edgePropsMapping !! pair.1) |})
                 <$> map_to_list edgeKeysMapping)
                dstids rpcResp
          end
      end.

(** *** onStepOutResponse *)
Definition onStepOutResponse (env : Env) (st : Executor)
    (rpcResp : RpcResponse) : Action :=
  if isFinalStep st then maybeFinishExecution env st rpcResp
  else
    let status := getDstIdsFromResp st rpcResp in
    let st := set_starts status.1 (set_backTracker status.2 st) in
    if bool_decide (starts_ st = []) then A_onEmptyInputs st
    else stepOut_action env (set_curStep (curStep_ st + 1) st).

(** *** The continuations of the two futures, end to end
    [resume] makes the call that a continuation ends with. *)
Definition resume (env : Env) (st : Executor) (next : Next) : Action :=
  match next with
  | GoExecutor.doError status => A_doError status
  | GoExecutor.onStepOutResponse rpcResp => onStepOutResponse env st rpcResp
  | GoExecutor.finishExecution st' rpcResp => A_finishExecution st' rpcResp
  | GoExecutor.abort what => A_fatal what
  end.

Definition on_getNeighbors (env : Env) (st : Executor) (result : RpcResponse)
  : Action :=
  resume env st (stepOut_cb env st result).2.

Definition on_getVertexProps (env : Env) (st : Executor)
    (stepOutResp : RpcResponse) (result : RpcResponse) : Action :=
  resume env st (fetchVertexProps_cb st stepOutResp result).2.

(** The lambda [cb] of maybeFinishExecution, on the collected replies
    to the getEdgeProps requests; [stepResp] and [dstids] are its
    captures. A reply is the exception's message or the responses. *)
Definition on_getEdgeProps (env : Env) (rsf : RowSetFormat) (st : Executor)
    (dstids : list VertexID) (stepResp : RpcResponse)
    (result : list (string + list EdgePropResponse)) : Action :=
  match
    foreach
      (λ (t : string + list EdgePropResponse) edgeHolder,
         match t with
         | inl what =>
             Err ("Exeception when get edge props in reversely traversal: "
                  +:+ what +:+ ".")
         | inr resps =>
             foreach
               (λ edgePropResp (edgeHolder : option EdgeHolder.t),
                  match edgeHolder with
                  | None => Fatal "edgeHolder_ is null"
                  | Some holder =>
                      holder ← EdgeHolder.add rsf holder edgePropResp;
                      Ok (Some holder)
                  end)
               resps edgeHolder
         end)
      result (edgeHolder_ st)
  with
  | Err msg => A_doError msg
  | Fatal what => A_fatal what
  | Ok edgeHolder =>
      let st := set_edgeHolder edgeHolder st in
      if hasDstTagProp (expCtx_ st)
      then fetchVertexProps env st dstids stepResp
      else A_finishExecution st stepResp
  end.

(** *** execute
    prepareClauses and setupStarts work on the parsed sentence and on the
    inputs of the pipeline; they are passed in as what they do to the
    executor. The distinct start ids come out of an unordered set, in
    the order of its iteration. *)
Definition execute (env : Env)
    (prepareClauses setupStarts : Executor → Result Executor)
    (st : Executor) : Action :=
  match prepareClauses st with
  | Err status => A_doError status
  | Fatal what => A_fatal what
  | Ok st =>
      match setupStarts st with
      | Err status => A_doError status
      | Fatal what => A_fatal what
      | Ok st =>
          if bool_decide (starts_ st = []) then A_onEmptyInputs st
          else
            let st :=
              if distinct_ st then
                let uniqID : gset Z := list_to_set (starts_ st) in
                set_starts (elements uniqID) st
              else st in
            stepOut_action env st
      end
  end.

End GoExecutorFlow.

(* ================================================================= *)
(** ** src/graph/GoExecutor.cpp: the end of the execution *)

Module GoExecutorFinish.
Import GoExecutor GoExecutorFlow.

(** How finishExecution ends: with a null dereference or an exception,
    with doError, with the interim result handed to onResult_ and
    doFinish, or with resp_ set and doFinish. *)
Inductive Finished :=
| F_fatal (what : string)
| F_doError (status : string)
| F_onResult (st : Executor) (outputs : InterimResult)
| F_doFinish (st : Executor) (resp_ : ExecutionResponse).

(** *** getEdgeNames *)
Fixpoint getEdgeNames_loop (env : Env) (out : Output)
    (edgeTypes : list EdgeType) (names : list string) : Result (list string) :=
  match edgeTypes with
  | [] => Ok names
  | edgeType :: rest =>
      match toEdgeName out (space env) (Z.abs edgeType) with
      | Ok edgeName => getEdgeNames_loop env out rest (names ++ [edgeName])
      | Err _ => Fatal "DCHECK(status.ok())"
      | Fatal what => Fatal what
      end
  end.

Definition getEdgeNames (env : Env) (out : Output) (st : Executor)
  : Result (list string) :=
  getEdgeNames_loop env out (edgeTypes_ st) [].

(** *** setupInterimResult *)

(** The loop over the columns of a record in the callback. *)
Fixpoint collect_columns (out : Output) (schema : Schema)
    (record : list VariantType) (typeIndex : nat) : Result (list Cell) :=
  match record with
  | [] => Ok []
  | column :: rest =>
      cell ← Collector_collect out column (getFieldType_at out schema typeIndex);
      cells ← collect_columns out schema rest (S typeIndex);
      Ok (cell :: cells)
  end.

(** The callback: [schema] and [rsWriter] are its captures, both null
    until the first record. *)
Definition setupInterimResult_cb (out : Output) (st : Executor)
  : Callback (option (Schema * list string)) :=
  λ record colTypes rsWriter,
    sr ← match rsWriter with
         | Some sr => Ok sr
         | None =>
             let colnames := getResultColumnNames st in
             if bool_decide (length record ≠ length colTypes)
             then Err ("Record size is not equal to column type size, ["
                       +:+ pretty (length record) +:+ " != "
                       +:+ pretty (length colTypes) +:+ "]")
             else
               schema ← Collector_getSchema out record colnames colTypes;
               Ok (schema, [])
         end;
    cells ← collect_columns out sr.1 record 0;
    Ok (Some (sr.1, sr.2 ++ [RowWriter_encode_under out sr.1 cells])).

(** [Err] is [return false]: processFinalResult has called doError with
    that status. *)
Definition setupInterimResult (env : Env) (out : Output) (st : Executor)
    (rpcResp : RpcResponse) : Result InterimResult :=
  rsWriter ← processFinalResult env st rpcResp
               (setupInterimResult_cb out st) None;
  Ok {| ir_colNames := getResultColumnNames st; ir_rsWriter := rsWriter |}.

(** *** finishExecution
    [onResult_] tells whether the hook is set. When toThriftResponse
    fails, processFinalResult has called doError with the status of what
    failed, and the function returns without doFinish. *)
Definition finishExecution (env : Env) (out : Output) (onResult_ : bool)
    (st : Executor) (rpcResp : RpcResponse) : Finished :=
  match
    (if isOverAllEdge (expCtx_ st) && bool_decide (yields_ st = [])
     then
       edgeNames ← getEdgeNames env out st;
       if bool_decide (edgeNames = []) then Err "get edge name failed"
       else Ok (set_yields (yields_ st ++ (EdgeDstIdColumn out <$> edgeNames))
                  st)
     else Ok st)
  with
  | Err status => F_doError status
  | Fatal what => F_fatal what
  | Ok st =>
      if onResult_ then
        match setupInterimResult env out st rpcResp with
        | Ok outputs => F_onResult st outputs
        | Err status => F_doError status
        | Fatal what => F_fatal what
        end
      else
        match toThriftResponse env st rpcResp with
        | Ok ret =>
            F_doFinish st
              {| column_names := Some (getResultColumnNames st);
                 rows := if bool_decide (ret = []) then None else Some ret |}
        | Err _ =>
            match processFinalResult env st rpcResp
                    (toThriftResponse_cb env) [] with
            | Err status => F_doError status
            | _ => F_fatal "unreachable"
            end
        | Fatal what => F_fatal what
        end
  end.

(** *** onEmptyInputs
    [resp_] is the response the executor holds, if any. *)
Definition onEmptyInputs (onResult_ : bool) (st : Executor)
    (resp_ : option ExecutionResponse) : Finished :=
  let resultColNames := getResultColumnNames st in
  if onResult_
  then F_onResult st {| ir_colNames := resultColNames; ir_rsWriter := None |}
  else F_doFinish st
         (default {| column_names := None; rows := None |} resp_).

End GoExecutorFinish.

(* ================================================================= *)
(** ** Specification-side definitions *)

(** The types whose decoding is a placeholder in [decode]. *)
Definition reserved (type : SupportedType) : Prop :=
  match type with
  | TIMESTAMP | YEAR | YEARMONTH | DATE | DATETIME | PATH | UNKNOWN => True
  | BOOL | INT | VID | FLOAT | DOUBLE | STRING => False
  end.

(** The ResultType of the typed read that [decode] performs for a field;
    [None] for a type it does not read. *)
Definition read_code (reader : RowReader) (field : string)
    (type : SupportedType) : option ResultType :=
  match type with
  | BOOL => Some (getBool reader field).1
  | INT => Some (getInt reader field).1
  | STRING => Some (getString reader field).1
  | VID => Some (getVid reader field).1
  | FLOAT => Some (getFloat reader field).1
  | DOUBLE => Some (getDouble reader field).1
  | _ => None
  end.

Definition read_failed (reader : RowReader) (field : string)
    (type : SupportedType) : Prop :=
  ∃ code, read_code reader field type = Some code ∧ code ≠ SUCCEEDED.

(** Decoding a row and encoding the decoded values again, in the order of
    the schema: the composition that the round-trip property speaks of. *)
Definition reencode (rf : RowFormat) (encoded : string)
    (fields : list (string * SupportedType)) : Result string :=
  result ← NebulaCodecImpl.decode rf encoded fields;
  Ok (NebulaCodecImpl.encode rf
        (omap (λ iter : string * SupportedType, result !! iter.1) fields)).

(** A callback that also keeps the records it was called with. *)
Definition traced {S : Type} (cb : GoExecutor.Callback S)
  : GoExecutor.Callback (S * list (list VariantType)) :=
  λ record colTypes st,
    s' ← cb record colTypes st.1;
    Ok (s', st.2 ++ [record]).

(** The entries that the final hop requests for one edge type. *)
Definition edgeBlock (reversely : bool) (e : EdgeType) : list PropDef :=
  GoExecutor.edgeProp _DST e
  :: (if reversely then [GoExecutor.edgeProp _RANK e] else []).

(** [pd] is the request entry of the referenced source-tag property [tp],
    respectively of the referenced edge-alias property [ap]. *)
Definition is_srcTagProp (env : Env) (tp : string * string) (pd : PropDef)
  : Prop :=
  ∃ tagId, toTagID (schemaManager env) (space env) tp.1 = Ok tagId ∧
           pd = GoExecutor.tagProp SOURCE tp.2 tagId.

Definition is_aliasProp (ctx : ExpressionContext) (ap : string * string)
    (pd : PropDef) : Prop :=
  ∃ edgeType, getEdgeType ctx ap.1 = Some edgeType ∧
              pd = GoExecutor.edgeProp ap.2 edgeType.

(** Every alias that the expression context resolves names one of the
    traversed edge types. *)
Definition edges_registered (st : GoExecutor.Executor) : Prop :=
  ∀ name edgeType,
    getEdgeType (GoExecutor.expCtx_ st) name = Some edgeType →
    edgeType ∈ GoExecutor.edgeTypes_ st.

(** The WHERE filter accepts the edge record that [getters] stands for. *)
Definition passes_filter (env : Env) (st : GoExecutor.Executor)
    (getters : Getters) : Prop :=
  match filter_ (GoExecutor.whereWrapper_ st) with
  | Some filter =>
      ∃ value, eval filter getters = Ok value ∧ asBool env value = true
  | None => True
  end.

(** Two results agree: the same kind of outcome, with related values. *)
Definition Result_rel {A B} (R : A → B → Prop) (r1 : Result A)
    (r2 : Result B) : Prop :=
  match r1, r2 with
  | Ok a, Ok b => R a b
  | Err m1, Err m2 => m1 = m2
  | Fatal w1, Fatal w2 => w1 = w2
  | _, _ => False
  end.

(** The loop state of a traced run of processFinalResult, seen without the
    trace. *)
Definition erase {S : Type} (acc : gset Z * (S * list (list VariantType)))
    (acc' : gset Z * S) : Prop :=
  acc.1 = acc'.1 ∧ acc.2.1 = acc'.2.

(** With DISTINCT, the hashes of the records that reached the callback
    are the set of hashes seen, without repetition. *)
Definition distinct_inv {S : Type} (env : Env)
    (acc : gset Z * (S * list (list VariantType))) : Prop :=
  NoDup (hash_range env <$> acc.2.2) ∧
  ∀ h, h ∈ acc.1 ↔ h ∈ hash_range env <$> acc.2.2.


(** The trace loop of the get_neighbors continuation runs through: every
    host latency has a response at its index, and that response has
    vertices. *)
Definition traceable (result : RpcResponse) : Prop :=
  ∀ i h, hostLatency result !! i = Some h →
    ∃ resp vertices,
      responses result !! i = Some resp ∧ get_vertices resp = Some vertices.

(** No line of a log reports a shortfall. *)
Definition no_shortfall (log : list GoExecutor.LogLine) : Prop :=
  ∀ line, line ∈ log →
    match line with
    | GoExecutor.LOG_partially_failed _ | GoExecutor.LOG_failed_part _ _ => False
    | _ => True
    end.

(** The cell that [encode] writes for a value; [None] for a dynamic type
    that its typeid cascade does not know. *)
Definition cell_of (value : NebulaCodecImpl.Value) : option Cell :=
  match value with
  | NebulaCodecImpl.any_int i => Some (W_int i)
  | NebulaCodecImpl.any_string s => Some (W_string s)
  | NebulaCodecImpl.any_double d => Some (W_double d)
  | NebulaCodecImpl.any_float f => Some (W_float f)
  | NebulaCodecImpl.any_bool b => Some (W_bool b)
  | NebulaCodecImpl.any_int64 _ | NebulaCodecImpl.any_other _ => None
  end.

(** The value that the typed read of a field yields when it succeeds:
    of the dynamic type that belongs to the declared type. *)
Definition field_value (reader : RowReader) (field : string)
    (type : SupportedType) : option NebulaCodecImpl.Value :=
  let on_success {A} (r : ResultType * A) (f : A → NebulaCodecImpl.Value) :=
    match r.1 with SUCCEEDED => Some (f r.2) | _ => None end in
  match type with
  | BOOL => on_success (getBool reader field) NebulaCodecImpl.any_bool
  | INT => on_success (getInt reader field) NebulaCodecImpl.any_int
  | STRING => on_success (getString reader field) NebulaCodecImpl.any_string
  | VID => on_success (getVid reader field) NebulaCodecImpl.any_int64
  | FLOAT => on_success (getFloat reader field) NebulaCodecImpl.any_float
  | DOUBLE => on_success (getDouble reader field) NebulaCodecImpl.any_double
  | _ => None
  end.

(** The values that the fields named [name] yield, in schema order. *)
Definition values_named (reader : RowReader) (name : string)
    (fields : list (string * SupportedType)) : list NebulaCodecImpl.Value :=
  omap (λ iter : string * SupportedType,
          if decide (iter.1 = name) then field_value reader iter.1 iter.2
          else None)
       fields.

(** Every traversed edge type is the type of some registered alias. *)
Definition traversed_registered (st : GoExecutor.Executor) : Prop :=
  ∀ edgeType, edgeType ∈ GoExecutor.edgeTypes_ st →
    ∃ name, getEdgeType (GoExecutor.expCtx_ st) name = Some edgeType.

(** Every traversed edge type is a schema edge type, negated when the
    traversal is reverse. *)
Definition traversed_signed (env : Env) (st : GoExecutor.Executor) : Prop :=
  ∀ edgeType, edgeType ∈ GoExecutor.edgeTypes_ st →
    ∃ e, toEdgeType (schemaManager env) (space env) e
         = Ok (if GoExecutor.isReversely st then - edgeType else edgeType).

(** The edges of a get_neighbors response, each with the vertex and the
    edge-type bucket it came in. *)
Definition response_edges (rpcResp : RpcResponse)
  : list (VertexData * EdgeData * IdAndProp) :=
  resp ← responses rpcResp;
  vdata ← default [] (get_vertices resp);
  edata ← edge_data vdata;
  edge ← get_edges edata;
  [(vdata, edata, edge)].

(** [pd] is the request entry of the referenced destination-tag property
    [tp]. *)
Definition is_dstTagProp (env : Env) (tp : string * string) (pd : PropDef)
  : Prop :=
  ∃ tagId, toTagID (schemaManager env) (space env) tp.1 = Ok tagId ∧
           pd = GoExecutor.tagProp DEST tp.2 tagId.

(** The tag of a referenced property has an id in the space. *)
Definition tag_resolves (env : Env) (tp : string * string) : Prop :=
  ∃ tagId, toTagID (schemaManager env) (space env) tp.1 = Ok tagId.

(** The edge of a referenced edge property is a registered alias, or the
    property is _DST, which is never looked up. *)
Definition alias_resolves (ctx : ExpressionContext) (ap : string * string)
  : Prop :=
  ap.2 = _DST ∨ ∃ edgeType, getEdgeType ctx ap.1 = Some edgeType.

(** The hop loop driven by storage: each outstanding get_neighbors request
    is answered with the next response, until the executor ends with
    anything else or the responses run out. *)
Fixpoint feed (env : Env) (a : GoExecutorFlow.Action)
    (results : list RpcResponse) : GoExecutorFlow.Action :=
  match a, results with
  | GoExecutorFlow.A_getNeighbors st _, result :: rest =>
      feed env (GoExecutorFlow.on_getNeighbors env st result) rest
  | _, _ => a
  end.

(** What the storage layer may answer to whichever request is
    outstanding. *)
Record Replies := {
  to_getNeighbors : RpcResponse;
  to_getVertexProps : RpcResponse;
  to_getEdgeProps : list (string + list EdgePropResponse)
}.

(** The continuation of the outstanding request, run on its reply. *)
Definition answer (env : Env) (rsf : RowSetFormat) (a : GoExecutorFlow.Action)
    (reply : Replies) : GoExecutorFlow.Action :=
  match a with
  | GoExecutorFlow.A_getNeighbors st _ =>
      GoExecutorFlow.on_getNeighbors env st (to_getNeighbors reply)
  | GoExecutorFlow.A_getVertexProps st _ stepOutResp =>
      GoExecutorFlow.on_getVertexProps env st stepOutResp
        (to_getVertexProps reply)
  | GoExecutorFlow.A_getEdgeProps st _ dstids stepResp =>
      GoExecutorFlow.on_getEdgeProps env rsf st dstids stepResp
        (to_getEdgeProps reply)
  | _ => a
  end.

Definition is_request (a : GoExecutorFlow.Action) : bool :=
  match a with
  | GoExecutorFlow.A_getNeighbors _ _
  | GoExecutorFlow.A_getVertexProps _ _ _
  | GoExecutorFlow.A_getEdgeProps _ _ _ _ => true
  | _ => false
  end.

(** The storage requests that may still follow an action: the hops that
    are left and the two of the final phase, or what is left of those
    two. *)
Definition requests_left (a : GoExecutorFlow.Action) : Z :=
  match a with
  | GoExecutorFlow.A_getNeighbors st _ =>
      GoExecutor.steps_ st - GoExecutor.curStep_ st + 3
  | GoExecutorFlow.A_getEdgeProps _ _ _ _ => 2
  | GoExecutorFlow.A_getVertexProps _ _ _ => 1
  | _ => 0
  end.

(** The hop of an outstanding get_neighbors request is not beyond the
    step count. *)
Definition hop_in_range (a : GoExecutorFlow.Action) : Prop :=
  match a with
  | GoExecutorFlow.A_getNeighbors st _ =>
      GoExecutor.curStep_ st ≤ GoExecutor.steps_ st
  | _ => True
  end.

(* ================================================================= *)
(** ** A small concrete instance, to run the definitions on *)

Module Demo.

(** A toy row format: a typed read succeeds when the schema has the field
    with that type, and yields a value computed from the row's length. *)
Definition has_col (schema : Schema) (field : string) (type : SupportedType)
  : bool := bool_decide ((field, type) ∈ schema).

Definition code_of (b : bool) : ResultType :=
  if b then SUCCEEDED else E_FAILED (-1).

Definition reader (encoded : string) (schema : Schema) : RowReader :=
  let n := Z.of_nat (String.length encoded) in
  {| getBool f := (code_of (has_col schema f BOOL), true);
     getInt f := (code_of (has_col schema f INT), n);
     getString f := (code_of (has_col schema f STRING), encoded);
     getVid f := (code_of (has_col schema f VID), n);
     getFloat f := (code_of (has_col schema f FLOAT), n);
     getDouble f := (code_of (has_col schema f DOUBLE), n);
     getPropByName f :=
       if bool_decide (f ∈ schema.*1) then Some (VAR_INT64 n) else None |}.

Definition cell_tag (c : Cell) : string :=
  match c with
  | W_bool _ => "b" | W_int _ => "i" | W_float _ => "f"
  | W_double _ => "d" | W_string _ => "s"
  end.

Definition rf : RowFormat :=
  {| RowWriter_encode cells := String.concat "" (cell_tag <$> cells);
     RowReader_getRowReader := reader;
     RowReader_getDefaultProp schema prop :=
       if bool_decide (prop ∈ schema.*1) then Ok (VAR_INT64 0)
       else Err "no such property";
     getFieldType schema prop := default UNKNOWN (list_to_map (M := gmap string SupportedType) schema !! prop) |}.

(** One space with the edges [like] (type 1) and [serve] (type 2) and the
    tag [person] (id 10). *)
Definition sm : SchemaManager :=
  {| toTagID _ name :=
       if bool_decide (name = "person") then Ok 10 else Err "tag not found";
     getTagSchema _ tagId :=
       if bool_decide (tagId = 10) then Some [("name", STRING)] else None;
     toEdgeType _ name :=
       if bool_decide (name = "like") then Ok 1
       else if bool_decide (name = "serve") then Ok 2
       else Err "edge not found";
     getEdgeSchema _ edgeType :=
       if bool_decide (edgeType = 1) then Some [("rating", INT)] else None;
     getAllEdge _ := Ok ["like"; "serve"] |}.

Definition env : Env :=
  {| space := 1;
     schemaManager := sm;
     rowFormat := rf;
     FLAGS_filter_pushdown := true;
     FLAGS_trace_go := false;
     asBool v := match v with VAR_BOOL b => b | _ => true end;
     hash_range record :=
       foldr (λ v h, match v with VAR_INT64 i => i + 31 * h | _ => 31 * h end)
             7 record;
     columnTypeToSupportedType _ := INT;
     double_to_float d := d |}.

Definition ctx0 : ExpressionContext :=
  {| edgeMap_ := ∅; tagMap_ := ∅; srcTagProps := []; dstTagProps := [];
     aliasProps := []; overAll_ := false |}.

(** A freshly constructed executor. *)
Definition fresh : GoExecutor.Executor :=
  {| GoExecutor.steps_ := 1;
     GoExecutor.upto_ := false;
     GoExecutor.curStep_ := 1;
     GoExecutor.starts_ := [];
     GoExecutor.edgeTypes_ := [];
     GoExecutor.isReversely_ := false;
     GoExecutor.backTracker_ := None;
     GoExecutor.vertexHolder_ := None;
     GoExecutor.edgeHolder_ := None;
     GoExecutor.expCtx_ := ctx0;
     GoExecutor.yields_ := [];
     GoExecutor.whereWrapper_ := {| filter_ := None; filterPushdown_ := "" |};
     GoExecutor.distinct_ := false;
     GoExecutor.index_ := None |}.

(** Expressions: [like.rating], [<edge>._dst], the literal [true] and the
    filter [like._dst != 3]. *)
Definition like_rating : Expression :=
  {| kind := kAliasProp; alias := "like"; prop := "rating"; getType := 0;
     toString := "like.rating";
     eval getters := getAliasProp getters "like" "rating" |}.

Definition dst_of (edgeName : string) : Expression :=
  {| kind := kEdgeDstId; alias := edgeName; prop := _DST; getType := 0;
     toString := edgeName +:+ "._dst";
     eval getters := getEdgeDstId getters edgeName |}.

Definition literal_true : Expression :=
  {| kind := kPrimary; alias := ""; prop := ""; getType := 0;
     toString := "true"; eval _ := Ok (VAR_BOOL true) |}.

Definition dst_is_not_3 : Expression :=
  {| kind := kRelational; alias := ""; prop := ""; getType := 0;
     toString := "(like._dst!=3)";
     eval getters :=
       v ← getEdgeDstId getters "like";
       match v with
       | VAR_INT64 i => Ok (VAR_BOOL (negb (i =? 3)))
       | _ => Err "not an integer"
       end |}.

Definition yield (e : Expression) : YieldColumn :=
  {| col_alias := None; col_expr := e; getFunName := "" |}.

(** An executor after its clauses are prepared, on its single hop. *)
Definition prepared (edgeTypes : list EdgeType) (reversely : bool)
    (edgeHolder : option EdgeHolder.t) (ctx : ExpressionContext)
    (yields : list YieldColumn) (filter : option Expression)
    (distinct : bool) : GoExecutor.Executor :=
  {| GoExecutor.steps_ := 1;
     GoExecutor.upto_ := false;
     GoExecutor.curStep_ := 1;
     GoExecutor.starts_ := [1];
     GoExecutor.edgeTypes_ := edgeTypes;
     GoExecutor.isReversely_ := reversely;
     GoExecutor.backTracker_ := None;
     GoExecutor.vertexHolder_ := None;
     GoExecutor.edgeHolder_ := edgeHolder;
     GoExecutor.expCtx_ := ctx;
     GoExecutor.yields_ := yields;
     GoExecutor.whereWrapper_ :=
       {| filter_ := filter; filterPushdown_ := "" |};
     GoExecutor.distinct_ := distinct;
     GoExecutor.index_ := None |}.

Definition ctx_of (edgeMap : gmap string EdgeType)
    (aliasProps : list (string * string)) : ExpressionContext :=
  {| edgeMap_ := edgeMap; tagMap_ := ∅; srcTagProps := [];
     dstTagProps := []; aliasProps := aliasProps; overAll_ := false |}.

(** GO FROM 1 OVER like YIELD like.rating *)
Definition go_like : GoExecutor.Executor :=
  prepared [1] false None
    (ctx_of {[ "like" := 1 ]} [("like", "rating")])
    [yield like_rating] None false.

(** GO FROM 1 OVER like, serve YIELD like._dst, serve._dst *)
Definition go_two : GoExecutor.Executor :=
  prepared [1; 2] false None
    (ctx_of {[ "like" := 1; "serve" := 2 ]}
            [("like", _DST); ("serve", _DST)])
    [yield (dst_of "like"); yield (dst_of "serve")] None false.

(** GO FROM 2 OVER like REVERSELY YIELD like.rating, before any edge
    property has been fetched. *)
Definition go_back : GoExecutor.Executor :=
  prepared [-1] true (Some EdgeHolder.empty)
    (ctx_of {[ "like" := -1 ]} [("like", "rating")])
    [yield like_rating] None false.

(** GO FROM 1 OVER like WHERE like._dst != 3 YIELD DISTINCT like._dst *)
Definition go_distinct : GoExecutor.Executor :=
  prepared [1] false None
    (ctx_of {[ "like" := 1 ]} [("like", _DST)])
    [yield (dst_of "like")] (Some dst_is_not_3) true.

(** GO FROM 1 OVER like YIELD true *)
Definition go_true : GoExecutor.Executor :=
  prepared [1] false None (ctx_of {[ "like" := 1 ]} [])
    [yield literal_true] None false.

(** Vertex 1 with the edges 1→2, 1→3 and 1→2 again, all of type 1. *)
Definition resp : RpcResponse :=
  {| completeness := 100;
     failedParts := [];
     responses :=
       [ {| get_vertices :=
              Some [ {| get_vertex_id := 1;
                        get_tag_data := [];
                        edge_data :=
                          [ {| edata_type := 1;
                               get_edges :=
                                 [ {| get_dst := 2; get_props := "r" |};
                                   {| get_dst := 3; get_props := "r" |};
                                   {| get_dst := 2; get_props := "rr" |} ]
                            |} ] |} ];
            get_vertex_schema := None;
            get_edge_schema := Some {[ 1 := [("rating", INT)] ]};
            get_total_edges := Some 3 |} ];
     hostLatency := [] |}.

(** A callback that counts its calls. *)
Definition count : GoExecutor.Callback nat := λ _ _ n, Ok (S n).

(** The same environment with FLAGS_trace_go set, and a complete
    response of one host whose query response has no vertices. *)
Definition env_trace : Env :=
  {| space := space env;
     schemaManager := schemaManager env;
     rowFormat := rowFormat env;
     FLAGS_filter_pushdown := FLAGS_filter_pushdown env;
     FLAGS_trace_go := true;
     asBool := asBool env;
     hash_range := hash_range env;
     columnTypeToSupportedType := columnTypeToSupportedType env;
     double_to_float := double_to_float env |}.

Definition no_vertices : RpcResponse :=
  {| completeness := 100;
     failedParts := [];
     responses :=
       [ {| get_vertices := None; get_vertex_schema := None;
            get_edge_schema := None; get_total_edges := None |} ];
     hostLatency := [(1, 10, 20)] |}.

(** GO FROM 1 OVER like YIELD like._rank *)
Definition like_rank : Expression :=
  {| kind := kAliasProp; alias := "like"; prop := _RANK; getType := 0;
     toString := "like._rank";
     eval getters := getAliasProp getters "like" _RANK |}.

Definition go_rank : GoExecutor.Executor :=
  prepared [1] false None
    (ctx_of {[ "like" := 1 ]} [("like", _RANK)])
    [yield like_rank] None false.

End Demo.

(* ================================================================= *)
(** ** Further instances: more hops, the holders, the end of a query *)

Module Demo2.

(** OVER like, and OVER like REVERSELY *)
Definition over_like (reversely : bool) : GoExecutor.OverClause :=
  {| GoExecutor.oc_isReversely := reversely;
     GoExecutor.edges :=
       [ {| GoExecutor.isOverAll := false; GoExecutor.edge := "like";
            GoExecutor.oe_alias := None |} ] |}.

(** GO 2 STEPS FROM 1 OVER like YIELD like.rating, on its first hop. *)
Definition go_far : GoExecutor.Executor :=
  GoExecutor.set_backTracker (Some {| VertexBackTracker.mapping_ := ∅ |})
    (GoExecutor.set_steps 2 Demo.go_like).

(** A response that is not failed and has no vertex. *)
Definition no_edges : RpcResponse :=
  {| completeness := 100; failedParts := []; responses := [];
     hostLatency := [] |}.

(** The reply to getVertexProps for the vertices 2 and 3, both with the
    tag 10. *)
Definition vertex_2 : VertexData :=
  {| get_vertex_id := 2;
     get_tag_data := [ {| td_tag_id := 10; td_data := "bob" |} ];
     edge_data := [] |}.

Definition vertex_3 : VertexData :=
  {| get_vertex_id := 3;
     get_tag_data := [ {| td_tag_id := 10; td_data := "carol" |} ];
     edge_data := [] |}.

Definition vertex_props : QueryResponse :=
  {| get_vertices := Some [vertex_2; vertex_3];
     get_vertex_schema := Some {[ 10 := [("name", STRING)] ]};
     get_edge_schema := None;
     get_total_edges := None |}.

(** A holder that has vertex 7 with the tag 10. *)
Definition holds_7 : VertexHolder.t :=
  {| VertexHolder.data_ := {[ 7 := {[ 10 := ([("name", STRING)], "dave") ]} ]} |}.

(** The final response of a reverse traversal from 2: the reverse edges
    2→1 and 2→3 of type -1, with their ranks. *)
Definition reverse_edges : EdgeData :=
  {| edata_type := -1;
     get_edges := [ {| get_dst := 1; get_props := "r" |};
                    {| get_dst := 3; get_props := "rr" |} ] |}.

Definition reverse_vertex : VertexData :=
  {| get_vertex_id := 2; get_tag_data := []; edge_data := [reverse_edges] |}.

Definition reverse_query : QueryResponse :=
  {| get_vertices := Some [reverse_vertex];
     get_vertex_schema := None;
     get_edge_schema := Some {[ -1 := [(_RANK, INT)] ]};
     get_total_edges := Some 2 |}.

Definition reverse_resp : RpcResponse :=
  {| completeness := 100; failedParts := []; responses := [reverse_query];
     hostLatency := [] |}.

(** A toy row set: one row per character of the data, each an edge from
    1 to the position of the row, of type 1. *)
Definition row_at (n : nat) : RowReader :=
  {| getBool _ := (E_FAILED (-1), false);
     getInt _ := (SUCCEEDED, Z.of_nat n);
     getString _ := (E_FAILED (-1), "");
     getVid _ := (SUCCEEDED, Z.of_nat n);
     getFloat _ := (E_FAILED (-1), 0);
     getDouble _ := (E_FAILED (-1), 0);
     getPropByName _ := Some (VAR_INT64 (Z.of_nat n)) |}.

Definition rsf : RowSetFormat :=
  {| RowSetReader_rows _ data := row_at <$> seq 2 (String.length data);
     Collector_getProp _ name iter :=
       if bool_decide (name = _SRC) then Ok (VAR_INT64 1)
       else if bool_decide (name = _TYPE) then Ok (VAR_INT64 1)
       else match getPropByName iter name with
            | Some v => Ok v
            | None => Err "no such property"
            end;
     numFields _ := 1%nat;
     RowReader_getPropByIndex iter _ := getPropByName iter "";
     RowWriter_collect _ values := String.concat "" ((λ _, "v") <$> values) |}.

Definition edge_props : EdgePropResponse :=
  {| get_schema := Some [("rating", INT)]; get_data := Some "ab" |}.

(** A holder that has the edge 1→2 of type 1 already. *)
Definition holds_1_2 : EdgeHolder.t :=
  {| EdgeHolder.edges_ := {[ (1, 2, 1) := ([("rating", INT)], "old") ]};
     EdgeHolder.schemas_ := {[ 1 := [("rating", INT)] ]} |}.

(** The output side: edge names by type, and a schema of one INT column
    per column name. *)
Definition out : Output :=
  {| toEdgeName _ edgeType :=
       if bool_decide (edgeType = 1) then Ok "like"
       else if bool_decide (edgeType = 2) then Ok "serve"
       else Err "edge not found";
     EdgeDstIdColumn name := Demo.yield (Demo.dst_of name);
     Collector_getSchema _ colnames _ := Ok ((λ name, (name, INT)) <$> colnames);
     Collector_collect column _ :=
       match column with
       | VAR_INT64 i => Ok (W_int i)
       | VAR_DOUBLE d => Ok (W_double d)
       | VAR_BOOL b => Ok (W_bool b)
       | VAR_STR s => Ok (W_string s)
       end;
     getFieldType_at schema typeIndex :=
       default UNKNOWN (snd <$> schema !! typeIndex);
     RowWriter_encode_under _ cells :=
       String.concat "" (Demo.cell_tag <$> cells) |}.

(** GO FROM 1 OVER * without YIELD, over like and serve. *)
Definition go_all : GoExecutor.Executor :=
  Demo.prepared [1; 2] false None
    {| edgeMap_ := {[ "like" := 1; "serve" := 2 ]}; tagMap_ := ∅;
       srcTagProps := []; dstTagProps := [];
       aliasProps := [("like", _DST); ("serve", _DST)]; overAll_ := true |}
    [] None false.

(** GO FROM 1, 1, 4 OVER like YIELD DISTINCT like._dst, as prepared. *)
Definition go_thrice : GoExecutor.Executor :=
  GoExecutorFlow.set_starts [1; 1; 4] Demo.go_distinct.

(** GO FROM 1 OVER like YIELD $$.person.name, as prepared. *)
Definition go_dst : GoExecutor.Executor :=
  Demo.prepared [1] false None
    {| edgeMap_ := {[ "like" := 1 ]}; tagMap_ := {[ "person" := 10 ]};
       srcTagProps := []; dstTagProps := [("person", "name")];
       aliasProps := []; overAll_ := false |}
    [Demo.yield Demo.literal_true] None false.

(** The reply to getVertexProps, and what the storage layer answers to
    whichever request is outstanding. *)
Definition vertex_reply : RpcResponse :=
  {| completeness := 100; failedParts := []; responses := [vertex_props];
     hostLatency := [] |}.

Definition reply : Replies :=
  {| to_getNeighbors := Demo.resp;
     to_getVertexProps := vertex_reply;
     to_getEdgeProps := [inr [edge_props]] |}.

Definition first_req : GetNeighborsRequest :=
  {| req_space := 1; req_vertices := [1]; req_edgeTypes := [1];
     req_filter := ""; req_returnCols := [] |}.

End Demo2.

(* ================================================================= *)
(** * Properties *)

(** ** Generic facts about [Result] and [foreach] *)

Lemma bind_Ok_inv {A B} (m : Result A) (f : A → Result B) (b : B) :
  (a ← m; f a) = Ok b → ∃ a, m = Ok a ∧ f a = Ok b.
Proof. destruct m as [a| |]; simpl; intros H; [eauto | discriminate..]. Qed.

(** An invariant of the loop state that every turn preserves holds when
    the loop completes. *)
Lemma foreach_invariant {A S} (I : S → Prop) (body : A → S → Result S) l :
  (∀ x s s', x ∈ l → I s → body x s = Ok s' → I s') →
  ∀ s s', I s → foreach body l s = Ok s' → I s'.
Proof.
  induction l as [|x xs IH]; simpl; intros Hbody s s' Hs Hrun.
  - by inversion Hrun; subst.
  - apply bind_Ok_inv in Hrun as (s1 & H1 & H2).
    eapply IH; [| |exact H2].
    + intros y t t' Hy. apply Hbody. by right.
    + eapply Hbody; [by left|exact Hs|exact H1].
Qed.

(** A loop whose every turn is a [continue] leaves the state alone. *)
Lemma foreach_skip {A S} (body : A → S → Result S) l s :
  (∀ x, x ∈ l → body x s = Ok s) → foreach body l s = Ok s.
Proof.
  induction l as [|x xs IH]; simpl; intros Hbody; [done|].
  rewrite Hbody by (by left). simpl. apply IH.
  intros y Hy. apply Hbody. by right.
Qed.

(* ----------------------------------------------------------------- *)
(** ** NebulaCodecImpl *)

Section codec.
Import NebulaCodecImpl.
Variable rf : RowFormat.

(** The schema that [decode] builds column by column is the field list. *)
Lemma decode_schema (fields acc : Schema) :
  fold_left (λ s iter, appendCol s iter.1 iter.2) fields acc = acc ++ fields.
Proof.
  revert acc. induction fields as [|[n t] fs IH]; intros acc; simpl.
  - by rewrite app_nil_r.
  - rewrite IH. unfold appendCol. by rewrite <- app_assoc.
Qed.

(** What one turn of the decoding loop does to the entry of [name]. *)
Lemma decode_field_None reader result field type name :
  decode_field reader result (field, type) !! name = None ↔
  result !! name = None ∧
  (name = field → read_code reader field type ≠ Some SUCCEEDED).
Proof.
  unfold decode_field, read_code, PRINT_ERROR_MESSAGE; simpl.
  destruct type; simpl;
    try (split; [intros H; split; [done|intros _; discriminate]|by intros [? _]]).
  all: match goal with |- context [let '(_, _) := ?r in _] =>
         destruct r as [[|c] v] eqn:E end; simpl.
  all: try (split; [intros H; split; [done|intros _; congruence]|by intros [? _]]).
  all: split;
    [ intros H; destruct (decide (field = name)) as [->|Hne];
      [ by rewrite lookup_insert_eq in H
      | rewrite lookup_insert_ne in H by done; split; [done|congruence] ]
    | intros [H1 H2]; destruct (decide (field = name)) as [->|Hne];
      [ exfalso; by apply H2 | by rewrite lookup_insert_ne ] ].
Qed.

Lemma decode_loop_None reader fields result name :
  fold_left (decode_field reader) fields result !! name = None ↔
  result !! name = None ∧
  ∀ type, (name, type) ∈ fields →
          read_code reader name type ≠ Some SUCCEEDED.
Proof.
  revert result. induction fields as [|[f t] fs IH]; intros result; simpl.
  - split; [intros H; split; [done|]|by intros [? _]].
    intros type Hin. by apply elem_of_nil in Hin.
  - rewrite IH, decode_field_None. split.
    + intros [[H1 H2] H3]. split; [done|].
      intros type [Heq|Hin]%elem_of_cons; [|by apply H3].
      inversion Heq; subst. by apply H2.
    + intros [H1 H2]. split; [split; [done|]|].
      * intros ->. apply H2. by left.
      * intros type Hin. apply H2. by right.
Qed.

Lemma read_code_omitted reader field type :
  read_code reader field type ≠ Some SUCCEEDED ↔
  reserved type ∨ read_failed reader field type.
Proof.
  unfold read_failed. split.
  - intros H. destruct (read_code reader field type) as [code|] eqn:E.
    + right. exists code. split; [done|congruence].
    + left. by destruct type.
  - intros [Hres|(code & E & Hne)]; [|congruence].
    by destruct type.
Qed.

(** Without an int64_t branch, [encode] writes nothing for such a value. *)
Lemma encode_int64_skipped v values :
  encode rf (any_int64 v :: values) = encode rf values.
Proof. reflexivity. Qed.

(** Values of the five dynamic types that [encode] knows are all written,
    in order. *)
Lemma write_loop_app values writer :
  fold_left write values writer = writer ++ fold_left write values [].
Proof.
  revert writer. induction values as [|v vs IH]; intros writer; simpl.
  - by rewrite app_nil_r.
  - rewrite IH. rewrite (IH (write [] v)).
    destruct v; simpl; by rewrite <- ?app_assoc.
Qed.

(** C10. [decode] returns an error exactly when the encoded string or the
    field list is empty, and it never fails otherwise; in the map it
    returns, a name is absent exactly when every field of that name has
    a reserved type or a read that did not succeed: such fields are left
    out, not reported. *)
Theorem decode_errors_and_omissions encoded fields :
  (∀ msg, decode rf encoded fields = Err msg → encoded = "" ∨ fields = []) ∧
  (encoded = "" ∨ fields = [] → ∃ msg, decode rf encoded fields = Err msg) ∧
  (∀ what, decode rf encoded fields ≠ Fatal what) ∧
  (∀ result, decode rf encoded fields = Ok result →
     let reader := RowReader_getRowReader rf encoded fields in
     ∀ field,
       (∀ type, (field, type) ∈ fields →
                reserved type ∨ read_failed reader field type) ↔
       result !! field = None).
Proof.
  unfold decode. rewrite decode_schema; simpl.
  destruct (decide (encoded = "")) as [He|He];
    [|destruct (decide (length fields = 0%nat)) as [Hf|Hf]].
  - repeat split; try discriminate; eauto.
  - apply length_zero_iff_nil in Hf.
    repeat split; try discriminate; eauto.
  - assert (fields ≠ []) as Hne by (intros ->; by apply Hf).
    split; [discriminate|]. split; [by intros [?|?]|].
    split; [discriminate|].
    intros result [= <-]; cbv zeta; intros field.
    rewrite decode_loop_None, lookup_empty.
    split.
    + intros H. split; [done|]. intros type Hin.
      apply read_code_omitted. by apply H.
    + intros [_ H] type Hin. apply read_code_omitted. by apply H.
Qed.

(** C9. Re-encoding a decoded row that holds one vertex id: [decode]
    yields an int64_t, [encode] has no branch for it and writes nothing,
    so the result is the encoding of the empty row whatever the id was. *)
Theorem reencode_vid_row_is_empty_row encoded field :
  encoded ≠ "" →
  (getVid (RowReader_getRowReader rf encoded [(field, VID)]) field).1
    = SUCCEEDED →
  reencode rf encoded [(field, VID)] = Ok (RowWriter_encode rf []).
Proof.
  intros He Hread. unfold reencode, decode. rewrite decode_schema; simpl.
  destruct (decide (encoded = "")) as [|_]; [done|]. simpl.
  unfold decode_field; simpl.
  destruct (getVid _ field) as [code v]. simpl in Hread. subst code. simpl.
  by rewrite lookup_insert_eq.
Qed.

End codec.

Lemma decode_errors_and_omissions_witness :
  NebulaCodecImpl.decode Demo.rf "row" [("id", VID); ("born", DATE)]
    = Ok {[ "id" := NebulaCodecImpl.any_int64 3 ]} ∧
  ({[ "id" := NebulaCodecImpl.any_int64 3 ]} : gmap string _) !! "born" = None.
Proof.
  split; [reflexivity|].
  apply (decode_errors_and_omissions Demo.rf "row" [("id", VID); ("born", DATE)]);
    [reflexivity|].
  intros type Hin. left.
  apply elem_of_cons in Hin as [Heq|Hin]; [discriminate|].
  apply elem_of_cons in Hin as [Heq|Hin]; [by inversion Heq|].
  by apply elem_of_nil in Hin.
Defined.

Lemma reencode_vid_row_is_empty_row_witness :
  reencode Demo.rf "row" [("id", VID)] = Ok "".
Proof.
  apply (reencode_vid_row_is_empty_row Demo.rf "row" "id"); [discriminate|].
  reflexivity.
Defined.

(* ----------------------------------------------------------------- *)
(** ** GoExecutor: the completeness of a storage response *)

Section completeness.
Import GoExecutor.
Variables (env : Env) (st : Executor).

Lemma log_latencies_no_shortfall responses i hostLatency :
  no_shortfall (log_latencies responses i hostLatency).1.
Proof.
  revert i. induction hostLatency as [|h rest IH]; intros i line; simpl.
  - by intros ?%elem_of_nil.
  - destruct (responses !! i) as [resp|]; [|by intros ?%elem_of_nil].
    destruct (get_vertices resp); [|by intros ?%elem_of_nil].
    simpl. rewrite elem_of_cons. intros [->|Hin]; [done|]. by eapply IH.
Qed.

Lemma log_trace_no_shortfall result : no_shortfall (log_trace st result).1.
Proof.
  intros line. unfold log_trace. simpl.
  rewrite elem_of_cons. intros [->|Hin]; [done|].
  by eapply log_latencies_no_shortfall.
Qed.

(** The trace loop runs through exactly when every response it reads is
    there and has vertices. *)
Lemma log_latencies_None responses i hostLatency :
  (log_latencies responses i hostLatency).2 = None ↔
  ∀ j h, hostLatency !! j = Some h →
    ∃ resp vertices,
      responses !! (i + j)%nat = Some resp ∧
      get_vertices resp = Some vertices.
Proof.
  revert i. induction hostLatency as [|h rest IH]; intros i; simpl.
  - split; [by intros _ j h' ?|done].
  - destruct (responses !! i) as [resp|] eqn:Hresp.
    + destruct (get_vertices resp) as [vertices|] eqn:Hvertices; simpl.
      * rewrite IH. split.
        -- intros Hrest [|j] h'; simpl.
           ++ intros _. rewrite Nat.add_0_r. by exists resp, vertices.
           ++ intros Hj. rewrite Nat.add_succ_r. by apply (Hrest j h').
        -- intros Hall j h' Hj.
           specialize (Hall (S j) h' Hj). by rewrite Nat.add_succ_r in Hall.
      * split; [done|]. intros Hall.
        destruct (Hall 0%nat h eq_refl) as (resp' & vertices & Hr & Hv).
        rewrite Nat.add_0_r in Hr. congruence.
    + split; [done|]. intros Hall.
      destruct (Hall 0%nat h eq_refl) as (resp' & vertices & Hr & _).
      rewrite Nat.add_0_r in Hr. congruence.
Qed.

Lemma log_trace_None result :
  (log_trace st result).2 = None ↔ traceable result.
Proof. unfold log_trace, traceable. simpl. apply log_latencies_None. Qed.

(** C1. Both fan-outs of the executor treat the completeness of the
    response alike: 0 ends the query through doError; a value strictly
    between 0 and 100 logs the shortfall, and 100 logs no such line; the
    continuation of get_vertex_props then goes on to finishExecution
    with the fetched vertices stored, and that of get_neighbors hands
    the response on unchanged to onStepOutResponse. But when
    FLAGS_trace_go is set, the continuation of get_neighbors first reads
    the number of vertices of the response at the index of every host
    latency, without a check: when a response is missing there or has no
    vertices, it ends in that read and never reaches
    onStepOutResponse. *)
Theorem completeness_policy (stepOutResp result : RpcResponse) :
  let c := completeness result in
  let hop := stepOut_cb env st result in
  let dest := fetchVertexProps_cb st stepOutResp result in
  let st' :=
    set_vertexHolder
      (Some (fold_left VertexHolder.add (responses result)
               (default VertexHolder.empty (vertexHolder_ st)))) st in
  (c = 0 →
     hop = ([], doError "Get neighbors failed") ∧
     dest = ([], doError "Get dest props failed")) ∧
  (0 < c < 100 →
     LOG_partially_failed c ∈ hop.1 ∧
     dest.2 = finishExecution st' stepOutResp ∧
     LOG_partially_failed c ∈ dest.1) ∧
  (c = 100 →
     no_shortfall hop.1 ∧
     dest = ([], finishExecution st' stepOutResp)) ∧
  (c ≠ 0 →
     if FLAGS_trace_go env
     then (traceable result → hop.2 = onStepOutResponse result) ∧
          (¬ traceable result → ∃ what, hop.2 = abort what)
     else hop.2 = onStepOutResponse result).
Proof.
  intros c hop dest st'. subst hop dest.
  unfold stepOut_cb, fetchVertexProps_cb. fold c. fold st'.
  split; [|split; [|split]].
  - intros ->. by rewrite bool_decide_eq_true_2.
  - intros [Hlo Hhi].
    rewrite bool_decide_eq_false_2 by lia.
    rewrite bool_decide_eq_true_2 by lia.
    split; [|by split; [|left]].
    destruct (FLAGS_trace_go env); simpl; by left.
  - intros ->.
    rewrite bool_decide_eq_false_2 by lia.
    rewrite bool_decide_eq_false_2 by (intros H; by apply H).
    split; [|done].
    destruct (FLAGS_trace_go env); simpl; [apply log_trace_no_shortfall|].
    intros line Hin. by apply elem_of_nil in Hin.
  - intros Hc. rewrite bool_decide_eq_false_2 by done.
    destruct (FLAGS_trace_go env); [|done]. cbn [snd].
    pose proof (log_trace_None result) as Htrace.
    destruct (log_trace st result).2 as [what|]; split.
    + intros Hok. by apply Htrace in Hok.
    + intros _. by exists what.
    + done.
    + intros Hno. destruct Hno. by apply Htrace.
Qed.

End completeness.

Lemma completeness_policy_witness :
  ∃ what,
    (GoExecutor.stepOut_cb Demo.env_trace Demo.fresh Demo.no_vertices).2
    = GoExecutor.abort what.
Proof.
  destruct (completeness_policy Demo.env_trace Demo.fresh Demo.no_vertices
              Demo.no_vertices) as (_ & _ & _ & Htrace).
  apply Htrace; [discriminate|].
  intros Hok. destruct (Hok 0%nat (1, 10, 20) eq_refl)
    as (resp & vertices & [= <-] & [=]).
Defined.

(* ----------------------------------------------------------------- *)
(** ** GoExecutor: the back-tracker *)

Section back_tracker.
Import GoExecutor.

Lemma backTracker_set_steps v st :
  backTracker_ (set_steps v st) = backTracker_ st.
Proof. by destruct st. Qed.

Lemma backTracker_set_upto v st :
  backTracker_ (set_upto v st) = backTracker_ st.
Proof. by destruct st. Qed.

Lemma steps_set_backTracker v st :
  steps_ (set_backTracker v st) = steps_ st.
Proof. by destruct st. Qed.

Lemma backTracker_set_backTracker v st :
  backTracker_ (set_backTracker v st) = v.
Proof. by destruct st. Qed.

Lemma index_set_backTracker v st :
  index_ (set_backTracker v st) = index_ st.
Proof. by destruct st. Qed.

(** Without a back-tracker the root of a vertex is the vertex itself. *)
Lemma getPropFromInterim_identity st index id prop :
  backTracker_ st = None → index_ st = Some index →
  getPropFromInterim st id prop = getColumnWithVID index id prop.
Proof. unfold getPropFromInterim. by intros -> ->. Qed.

(** C2, as the code has it. After a step preparation that succeeds on an
    executor that has no back-tracker yet, a back-tracker exists exactly
    when the step count differs from 1; with one step there is none, and
    the lookup that variable and input properties go through reads the
    interim index at the source vertex id itself. *)
Theorem prepareStep_backTracker clause st :
  backTracker_ st = None →
  (prepareStep clause st).1 = Ok () →
  let st' := (prepareStep clause st).2 in
  (is_Some (backTracker_ st') ↔ steps_ st' ≠ 1) ∧
  (steps_ st' = 1 →
     backTracker_ st' = None ∧
     ∀ index id prop, index_ st' = Some index →
       getPropFromInterim st' id prop = getColumnWithVID index id prop).
Proof.
  intros Hfresh. unfold prepareStep.
  set (st1 := match clause with
              | Some c => set_upto (isUpto c) (set_steps (steps c) st)
              | None => st end).
  assert (backTracker_ st1 = None) as Hbt1.
  { subst st1. destruct clause; [|done].
    by rewrite backTracker_set_upto, backTracker_set_steps. }
  destruct (upto_ st1); [discriminate|]. intros _. simpl.
  destruct (bool_decide_reflect (steps_ st1 ≠ 1)) as [Hne|Heq].
  - rewrite steps_set_backTracker, backTracker_set_backTracker.
    split; [by split; eauto|]. by intros ?.
  - rewrite Hbt1. split.
    + split; [by intros [? ?]|by intros ?].
    + intros _. split; [done|]. intros index id prop Hidx.
      by apply getPropFromInterim_identity.
Qed.

End back_tracker.

Lemma prepareStep_backTracker_witness :
  GoExecutor.backTracker_
    (GoExecutor.prepareStep
       (Some {| GoExecutor.steps := 1; GoExecutor.isUpto := false |})
       Demo.fresh).2 = None.
Proof.
  apply (prepareStep_backTracker
           (Some {| GoExecutor.steps := 1; GoExecutor.isUpto := false |})
           Demo.fresh); reflexivity.
Defined.

(** C2, as stated, fails for [GO 0 STEPS]: the preparation succeeds and
    allocates a back-tracker although the step count is not greater
    than 1. *)
Lemma prepareStep_zero_steps_allocates :
  let prepared :=
    GoExecutor.prepareStep
      (Some {| GoExecutor.steps := 0; GoExecutor.isUpto := false |})
      Demo.fresh in
  prepared.1 = Ok () ∧
  ¬ (is_Some (GoExecutor.backTracker_ prepared.2) ↔
     GoExecutor.steps_ prepared.2 > 1).
Proof.
  simpl. split; [done|]. intros [Hto _].
  assert (0 > 1) by (apply Hto; by eexists). lia.
Qed.

(* ----------------------------------------------------------------- *)
(** ** GoExecutor: the properties requested on a hop *)

Section step_out_props.
Import GoExecutor.
Variable env : Env.

Lemma Forall2_elem_of_l {A B} (R : A → B → Prop) l k x :
  Forall2 R l k → x ∈ l → ∃ y, y ∈ k ∧ R x y.
Proof.
  induction 1 as [|a b l k Hab _ IH]; intros Hin.
  - by apply elem_of_nil in Hin.
  - apply elem_of_cons in Hin as [->|Hin].
    + exists b. split; [by left|done].
    + destruct (IH Hin) as (y & Hy & HR). exists y. split; [by right|done].
Qed.

Lemma Forall2_elem_of_r {A B} (R : A → B → Prop) l k y :
  Forall2 R l k → y ∈ k → ∃ x, x ∈ l ∧ R x y.
Proof.
  induction 1 as [|a b l k Hab _ IH]; intros Hin.
  - by apply elem_of_nil in Hin.
  - apply elem_of_cons in Hin as [->|Hin].
    + exists a. split; [by left|done].
    + destruct (IH Hin) as (x & Hx & HR). exists x. split; [by right|done].
Qed.

(** The per-edge-type loops of the two branches. *)
Lemma dst_loop (edgeTypes : list EdgeType) props :
  fold_left (λ props e, props ++ [edgeProp _DST e]) edgeTypes props
  = props ++ map (edgeProp _DST) edgeTypes.
Proof.
  revert props. induction edgeTypes as [|e es IH]; intros props; simpl.
  - by rewrite app_nil_r.
  - by rewrite IH, <- app_assoc.
Qed.

Lemma dst_rank_loop (reversely : bool) (edgeTypes : list EdgeType) props :
  fold_left
    (λ props e,
       let props := props ++ [edgeProp _DST e] in
       if reversely then props ++ [edgeProp _RANK e] else props)
    edgeTypes props
  = props ++ flat_map (edgeBlock reversely) edgeTypes.
Proof.
  revert props. induction edgeTypes as [|e es IH]; intros props; simpl.
  - by rewrite app_nil_r.
  - rewrite IH. destruct reversely; simpl; by rewrite <- !app_assoc.
Qed.

Lemma srcTagProps_loop_shape l props props' :
  srcTagProps_loop env l props = Ok props' →
  ∃ src, props' = props ++ src ∧ Forall2 (is_srcTagProp env) l src.
Proof.
  revert props. induction l as [|tp l IH]; intros props; simpl.
  - intros [= <-]. exists []. by rewrite app_nil_r.
  - destruct (toTagID _ _ tp.1) as [tagId| |] eqn:E; [|done..].
    intros (src & -> & HF)%IH.
    exists (tagProp SOURCE tp.2 tagId :: src).
    rewrite <- app_assoc. split; [done|].
    constructor; [by exists tagId|done].
Qed.

Lemma aliasProps_loop_shape ctx l props props' :
  aliasProps_loop ctx l props = Ok props' →
  ∃ als, props' = props ++ als ∧
         Forall2 (is_aliasProp ctx) (filter (λ ap, ap.2 ≠ _DST) l) als.
Proof.
  revert props. induction l as [|ap l IH]; intros props; simpl.
  - intros [= <-]. exists []. by rewrite app_nil_r.
  - destruct (bool_decide_reflect (ap.2 = _DST)) as [Heq|Hne].
    + rewrite filter_cons_False by (by intros ?). apply IH.
    + rewrite filter_cons_True by done.
      destruct (getEdgeType ctx ap.1) as [edgeType|] eqn:E; [|done].
      intros (als & -> & HF)%IH.
      exists (edgeProp ap.2 edgeType :: als).
      rewrite <- app_assoc. split; [done|].
      constructor; [by exists edgeType|done].
Qed.

(** The request of the final hop, part by part. *)
Lemma getStepOutProps_final_shape st props :
  isFinalStep st = true →
  getStepOutProps env st = Ok props →
  ∃ src als,
    props = flat_map (edgeBlock (isReversely st)) (edgeTypes_ st)
            ++ src ++ als ∧
    Forall2 (is_srcTagProp env) (srcTagProps (expCtx_ st)) src ∧
    if isReversely st then als = []
    else Forall2 (is_aliasProp (expCtx_ st))
           (filter (λ ap, ap.2 ≠ _DST) (aliasProps (expCtx_ st))) als.
Proof.
  intros Hfinal. unfold getStepOutProps. rewrite Hfinal; simpl.
  rewrite dst_rank_loop; simpl.
  intros (props1 & Hsrc & Hrest)%bind_Ok_inv.
  apply srcTagProps_loop_shape in Hsrc as (src & -> & Hsrc).
  destruct (isReversely st).
  - inversion Hrest; subst. exists src, []. by rewrite app_nil_r.
  - apply aliasProps_loop_shape in Hrest as (als & -> & Hals).
    exists src, als. by rewrite <- app_assoc.
Qed.


(** C3. On a hop that is not the final one the request is exactly one
    _DST entry per traversed edge type. On the final hop a request that
    is issued holds _DST for every edge type; _RANK for every edge type
    in reverse mode, and in forward mode a _RANK entry only for an edge
    whose _RANK the query references; every referenced source-tag
    property; in forward mode every referenced edge-alias property (its
    alias resolves, but for a referenced _DST, which is not looked up),
    and in reverse mode no edge property besides _DST and _RANK of the
    traversed types; and nothing besides these. *)
Theorem getStepOutProps_contents st :
  (isFinalStep st = false →
     getStepOutProps env st = Ok (map (edgeProp _DST) (edgeTypes_ st))) ∧
  (isFinalStep st = true →
   ∀ props, getStepOutProps env st = Ok props →
     let ctx := expCtx_ st in
     (∀ e, e ∈ edgeTypes_ st → edgeProp _DST e ∈ props) ∧
     (isReversely st = true →
        ∀ e, e ∈ edgeTypes_ st → edgeProp _RANK e ∈ props) ∧
     (isReversely st = false →
        ∀ e, edgeProp _RANK e ∈ props →
             ∃ name, (name, _RANK) ∈ aliasProps ctx ∧
                     getEdgeType ctx name = Some e) ∧
     (∀ tag prop, (tag, prop) ∈ srcTagProps ctx →
        ∃ tagId, toTagID (schemaManager env) (space env) tag = Ok tagId ∧
                 tagProp SOURCE prop tagId ∈ props) ∧
     (isReversely st = false →
        ∀ name prop, (name, prop) ∈ aliasProps ctx →
          (prop ≠ _DST → is_Some (getEdgeType ctx name)) ∧
          (edges_registered st →
           ∀ edgeType, getEdgeType ctx name = Some edgeType →
                       edgeProp prop edgeType ∈ props)) ∧
     (isReversely st = true →
        ∀ pd, pd ∈ props → pd_owner pd = EDGE →
          ∃ e, e ∈ edgeTypes_ st ∧
               (pd = edgeProp _DST e ∨ pd = edgeProp _RANK e)) ∧
     (∀ pd, pd ∈ props →
        (∃ e, e ∈ edgeTypes_ st ∧
              (pd = edgeProp _DST e ∨
               isReversely st = true ∧ pd = edgeProp _RANK e)) ∨
        (∃ tp, tp ∈ srcTagProps ctx ∧ is_srcTagProp env tp pd) ∨
        (isReversely st = false ∧
         ∃ ap, ap ∈ aliasProps ctx ∧ ap.2 ≠ _DST ∧ is_aliasProp ctx ap pd))).
Proof.
  split.
  { intros Hhop. unfold getStepOutProps. rewrite Hhop; simpl.
    by rewrite dst_loop. }
  intros Hfinal props Hprops ctx.
  destruct (getStepOutProps_final_shape st props Hfinal Hprops)
    as (src & als & -> & Hsrc & Hals).
  fold ctx in Hsrc, Hals.
  assert (∀ e, e ∈ edgeTypes_ st →
            edgeProp _DST e ∈ flat_map (edgeBlock (isReversely st))
                                       (edgeTypes_ st)) as Hdst.
  { intros e He. apply list_elem_of_In, in_flat_map. exists e.
    split; [by apply list_elem_of_In|by left]. }
  assert (∀ pd, pd ∈ flat_map (edgeBlock (isReversely st)) (edgeTypes_ st) →
            ∃ e, e ∈ edgeTypes_ st ∧
                 (pd = edgeProp _DST e ∨
                  isReversely st = true ∧ pd = edgeProp _RANK e)) as Hblock.
  { intros pd (e & He & Hpd)%list_elem_of_In%in_flat_map.
    exists e. split; [by apply list_elem_of_In|].
    unfold edgeBlock in Hpd. destruct (isReversely st); simpl in Hpd.
    - destruct Hpd as [<-|[<-|[]]]; auto.
    - destruct Hpd as [<-|[]]; auto. }
  assert (∀ pd, pd ∈ flat_map (edgeBlock (isReversely st)) (edgeTypes_ st)
                     ++ src ++ als →
        (∃ e, e ∈ edgeTypes_ st ∧
              (pd = edgeProp _DST e ∨
               isReversely st = true ∧ pd = edgeProp _RANK e)) ∨
        (∃ tp, tp ∈ srcTagProps ctx ∧ is_srcTagProp env tp pd) ∨
        (isReversely st = false ∧
         ∃ ap, ap ∈ aliasProps ctx ∧ ap.2 ≠ _DST ∧ is_aliasProp ctx ap pd))
    as Hall.
  { intros pd [Hin|[Hin|Hin]%elem_of_app]%elem_of_app.
    - left. by apply Hblock.
    - right; left. by apply (Forall2_elem_of_r _ _ _ _ Hsrc).
    - right; right. destruct (isReversely st).
      + subst als. by apply elem_of_nil in Hin.
      + split; [done|].
        destruct (Forall2_elem_of_r _ _ _ _ Hals Hin) as (ap & Hap & HR).
        apply list_elem_of_filter in Hap as [Hne Hap]. by exists ap. }
  split; [|split; [|split; [|split; [|split; [|split]]]]].
  - intros e He. apply elem_of_app. left. by apply Hdst.
  - intros Hrev e He. apply elem_of_app. left.
    apply list_elem_of_In, in_flat_map. exists e.
    split; [by apply list_elem_of_In|]. rewrite Hrev. right; by left.
  - intros Hfwd e Hin.
    destruct (Hall _ Hin) as [(e' & _ & [Heq|[Hrev _]])|
                             [(tp & _ & tagId & _ & Heq)|
                              (_ & [name prop] & Hap & _ & t & Ht & Heq)]].
    + discriminate.
    + congruence.
    + discriminate.
    + simpl in *. inversion Heq; subst. by exists name.
  - intros tag prop Hin.
    destruct (Forall2_elem_of_l _ _ _ _ Hsrc Hin) as (pd & Hpd & tagId & Hid & ->).
    exists tagId. split; [done|]. apply elem_of_app. right.
    apply elem_of_app. by left.
  - intros Hfwd name prop Hin. rewrite Hfwd in Hals. split.
    + intros Hne.
      assert ((name, prop) ∈ filter (λ ap, ap.2 ≠ _DST) (aliasProps ctx))
        as Hf by (by apply list_elem_of_filter).
      destruct (Forall2_elem_of_l _ _ _ _ Hals Hf) as (pd & Hpd & t & Ht & ->).
      by exists t.
    + intros Hreg edgeType Hget.
      destruct (decide (prop = _DST)) as [->|Hne].
      { apply elem_of_app. left. apply Hdst. by eapply Hreg. }
      assert ((name, prop) ∈ filter (λ ap, ap.2 ≠ _DST) (aliasProps ctx))
        as Hf by (by apply list_elem_of_filter).
      destruct (Forall2_elem_of_l _ _ _ _ Hals Hf) as (pd & Hpd & t & Ht & ->).
      simpl in Ht. assert (t = edgeType) as -> by (unfold ctx in *; congruence).
      apply elem_of_app. right. apply elem_of_app. by right.
  - intros Hrev pd Hin Howner.
    destruct (Hall _ Hin) as [(e & He & [Heq|[_ Heq]])|
                             [(tp & _ & tagId & _ & Heq)|(Hfwd & _)]].
    + exists e. auto.
    + exists e. auto.
    + subst pd. discriminate.
    + congruence.
  - exact Hall.
Qed.

End step_out_props.

(** *** The OVER clause registers what it traverses *)

Section over.
Import GoExecutor.
Variable env : Env.

(** Registering an edge right after pushing its type keeps every
    registered alias among the traversed edge types. *)
Lemma addEdge_registered st name v ctx :
  edges_registered st →
  addEdge (expCtx_ (set_edgeTypes (edgeTypes_ st ++ [v]) st)) name v
    = Some ctx →
  edges_registered
    (set_expCtx ctx (set_edgeTypes (edgeTypes_ st ++ [v]) st)).
Proof.
  intros Hreg. unfold addEdge. destruct st; simpl in *.
  destruct (edgeMap_ expCtx_0 !! name) eqn:E; [done|].
  intros [= <-] n t. unfold getEdgeType; simpl.
  destruct (decide (name = n)) as [->|Hne].
  - rewrite lookup_insert_eq. intros [= <-].
    apply elem_of_app. right. by left.
  - rewrite lookup_insert_ne by done. intros Hn.
    apply elem_of_app. left. by apply (Hreg n t).
Qed.

Lemma prepareOverAll_loop_registered allEdge st st' :
  edges_registered st →
  prepareOverAll_loop env allEdge st = (Ok (), st') →
  edges_registered st'.
Proof.
  revert st. induction allEdge as [|e rest IH]; intros st Hreg; simpl.
  - by intros [= <-].
  - destruct (toEdgeType _ _ e) as [v| |]; [|done..].
    set (v' := if isReversely st then - v else v).
    destruct (addEdge _ e v') as [ctx|] eqn:E; [|done].
    apply IH. by eapply addEdge_registered.
Qed.

Lemma setOverAllEdge_registered st :
  edges_registered st →
  edges_registered (set_expCtx (setOverAllEdge (expCtx_ st)) st).
Proof. intros Hreg. by destruct st. Qed.

Lemma prepareOver_loop_registered edges st st' :
  edges_registered st →
  prepareOver_loop env edges st = (Ok (), st') →
  edges_registered st'.
Proof.
  revert st. induction edges as [|e rest IH]; intros st Hreg; simpl.
  - by intros [= <-].
  - destruct (isOverAll e).
    + unfold prepareOverAll.
      destruct (getAllEdge _ _) as [allEdge| |]; [|done..].
      apply prepareOverAll_loop_registered.
      by apply setOverAllEdge_registered.
    + destruct (toEdgeType _ _ (edge e)) as [v| |]; [|done..].
      set (v' := if isReversely st then - v else v).
      destruct (addEdge _ _ v') as [ctx|] eqn:E; [|done].
      apply IH. by eapply addEdge_registered.
Qed.

(** After the OVER clause is prepared, every alias that the expression
    context resolves names one of the traversed edge types. *)
Lemma prepareOver_registered clause st st' :
  edges_registered st →
  prepareOver env clause st = (Ok (), st') →
  edges_registered st'.
Proof.
  intros Hreg. unfold prepareOver. destruct clause as [clause|]; [|done].
  apply prepareOver_loop_registered.
  destruct st; simpl in *. unfold isReversely; simpl.
  by destruct (oc_isReversely clause).
Qed.
End over.

(* ----------------------------------------------------------------- *)
(** ** GoExecutor: the getters of a projected edge record *)

Section getters.
Import GoExecutor.
Variables (env : Env) (st : Executor).

(** C7, as the code has it. With more than one traversed edge type, a
    named edge that the OVER clause did not register is an error, and one
    whose type is not the record's yields 0; with a single edge type, or
    when the named edge has the record's type, the getter yields the
    record's source vertex in reverse mode and its destination in forward
    mode. *)
Theorem getEdgeDstId_spec (srcId dstId : VertexID) (edgeType : EdgeType)
    (edgeName : string) :
  let ret := getters_getEdgeDstId st srcId dstId edgeType edgeName in
  ((1 < length (edgeTypes_ st))%nat →
   getEdgeType (expCtx_ st) edgeName = None →
   ret = Err ("Get edge type for `" +:+ edgeName +:+ "' failed in getters.")) ∧
  (∀ type, (1 < length (edgeTypes_ st))%nat →
           getEdgeType (expCtx_ st) edgeName = Some type →
           type ≠ edgeType →
           ret = Ok (VAR_INT64 0)) ∧
  ((length (edgeTypes_ st) ≤ 1)%nat ∨
   getEdgeType (expCtx_ st) edgeName = Some edgeType →
   ret = Ok (VAR_INT64 (if isReversely st then srcId else dstId))).
Proof.
  unfold getters_getEdgeDstId. split; [|split].
  - intros Hmany ->. by rewrite bool_decide_eq_true_2.
  - intros type Hmany -> Hne.
    rewrite bool_decide_eq_true_2 by done.
    by rewrite bool_decide_eq_true_2.
  - intros [Hone | ->].
    + rewrite bool_decide_eq_false_2 by lia. done.
    + destruct (bool_decide _); [|done].
      by rewrite bool_decide_eq_false_2 by (by intros ?).
Qed.

(** C4. In reverse mode (the edge holder exists since prepareOver, and
    the record has a reader), an edge-alias property of an edge that has
    the record's type is whatever the edge holder has under
    (dst, src, |type|), and an error when the holder lacks that key;
    for an edge of another type it is the default from the schema the
    holder has for |type|, and without such a schema the integer 0 for
    _SRC, _DST and _RANK and an error for every other property. *)
Theorem reverse_getAliasProp_spec (reader : RowReader)
    (srcId dstId : VertexID) (edgeType type : EdgeType)
    (edgeSchema : gmap EdgeType Schema) (edgeHolder : EdgeHolder.t)
    (edgeName prop : string) :
  isReversely st = true →
  edgeHolder_ st = Some edgeHolder →
  getEdgeType (expCtx_ st) edgeName = Some type →
  let ret :=
    getters_getAliasProp env st (Some reader) srcId dstId edgeType
      edgeSchema edgeName prop in
  (type = edgeType →
     ret = EdgeHolder.get (rowFormat env) edgeHolder dstId srcId
             (Z.abs edgeType) prop ∧
     (EdgeHolder.edges_ edgeHolder !! (dstId, srcId, Z.abs edgeType) = None →
      ∃ msg, ret = Err msg)) ∧
  (type ≠ edgeType →
     (∀ schema,
        EdgeHolder.schemas_ edgeHolder !! Z.abs type = Some schema →
        ret = RowReader_getDefaultProp (rowFormat env) schema prop) ∧
     (EdgeHolder.schemas_ edgeHolder !! Z.abs type = None →
        (prop = _SRC ∨ prop = _DST ∨ prop = _RANK →
         ret = Ok (VAR_INT64 0)) ∧
        (prop ≠ _SRC → prop ≠ _DST → prop ≠ _RANK →
         ∃ msg, ret = Err msg))).
Proof.
  intros Hrev Hholder Htype. unfold getters_getAliasProp.
  rewrite Htype, Hrev, Hholder. split.
  - intros ->. rewrite bool_decide_eq_false_2 by (by intros ?).
    split; [done|]. intros Hkey. unfold EdgeHolder.get.
    rewrite Hkey.
    by eexists.
  - intros Hne. rewrite bool_decide_eq_true_2 by done.
    unfold EdgeHolder.getDefaultProp. split.
    + by intros schema ->.
    + intros ->. split.
      * intros [-> | [-> | ->]]; reflexivity.
      * intros H1 H2 H3.
        rewrite !bool_decide_eq_false_2 by done. simpl. by eexists.
Qed.

End getters.

(* ----------------------------------------------------------------- *)
(** ** GoExecutor: projection *)

Section projection.
Import GoExecutor.
Variables (env : Env) (st : Executor).
Context {S : Type}.
Variable cb : Callback S.

(** What holds of the loop state at the start and is kept by the body of
    the innermost loop holds when processFinalResult returns true. *)
Lemma processFinalResult_invariant (I : gset Z * S → Prop) rpcResp s s' :
  (∀ colTypes getters acc acc',
     I acc → projectEdge env st cb colTypes getters acc = Ok acc' → I acc') →
  I (∅, s) →
  processFinalResult env st rpcResp cb s = Ok s' →
  ∃ uniqResult, I (uniqResult, s').
Proof.
  intros Hbody Hinit. unfold processFinalResult.
  intros (colTypes & _ & (acc & Hrun & [= <-])%bind_Ok_inv)%bind_Ok_inv.
  exists acc.1. replace (acc.1, acc.2) with acc by by destruct acc.
  revert Hrun. apply foreach_invariant; [|done].
  intros resp acc1 acc1' _ H1.
  destruct (get_vertices resp) as [vertices|]; [|by intros [= <-]].
  apply foreach_invariant; [|done]. intros vdata acc2 acc2' _ H2.
  apply foreach_invariant; [|done]. intros edata acc3 acc3' _ H3.
  apply foreach_invariant; [|done]. intros edge acc4 acc4' _ H4.
  by apply Hbody.
Qed.

(** A record reaches the callback only through [emitRecord], and only
    when the filter, if there is one, accepted it. *)
Lemma projectEdge_inv colTypes getters acc acc' :
  projectEdge env st cb colTypes getters acc = Ok acc' →
  acc' = acc ∨
  passes_filter env st getters ∧
  emitRecord env st cb colTypes getters acc = Ok acc'.
Proof.
  unfold projectEdge, passes_filter.
  destruct (filter_ (whereWrapper_ st)) as [filter|]; [|by right].
  intros (value & Heval & Hrest)%bind_Ok_inv.
  destruct (asBool env value) eqn:Hb.
  - right. split; [by exists value|done].
  - left. by inversion Hrest.
Qed.

Lemma emitRecord_inv colTypes getters uniqResult s acc' :
  emitRecord env st cb colTypes getters (uniqResult, s) = Ok acc' →
  ∃ record, evalYields (yields_ st) getters = Ok record ∧
    ((distinct_ st = true ∧ hash_range env record ∈ uniqResult ∧
      acc' = (uniqResult, s)) ∨
     (∃ s', cb record colTypes s = Ok s' ∧
        if distinct_ st
        then ((hash_range env record ∉ uniqResult) ∧
              acc' = ({[hash_range env record]} ∪ uniqResult, s'))
        else acc' = (uniqResult, s'))).
Proof.
  unfold emitRecord.
  intros (record & Hrec & Hrest)%bind_Ok_inv. exists record.
  split; [done|]. destruct (distinct_ st).
  - destruct (bool_decide_reflect (hash_range env record ∈ uniqResult))
      as [Hin|Hnin].
    + left. by inversion Hrest.
    + right. apply bind_Ok_inv in Hrest as (s' & Hcb & [= <-]). eauto.
  - right. apply bind_Ok_inv in Hrest as (s' & Hcb & [= <-]). eauto.
Qed.

(** When the filter rejects every edge record, the callback is never
    reached: processFinalResult returns true with its captures as they
    were. *)
Lemma processFinalResult_all_rejected rpcResp s filter colTypes :
  filter_ (whereWrapper_ st) = Some filter →
  (∀ getters, ∃ value,
     eval filter getters = Ok value ∧ asBool env value = false) →
  calculateExprTypes env st (yields_ st) = Ok colTypes →
  processFinalResult env st rpcResp cb s = Ok s.
Proof.
  intros Hfilter Hreject Htypes. unfold processFinalResult.
  rewrite Htypes; simpl.
  rewrite foreach_skip; [done|]. intros resp _.
  destruct (get_vertices resp) as [vertices|]; [|done].
  apply foreach_skip. intros vdata _.
  apply foreach_skip. intros edata _.
  apply foreach_skip. intros edge _.
  unfold projectEdge. rewrite Hfilter.
  destruct (Hreject
              (mkGetters env st (default ∅ (get_vertex_schema resp))
                 (default ∅ (get_edge_schema resp)) (get_tag_data vdata)
                 (get_vertex_id vdata) (edata_type edata)
                 (RowReader_getRowReader (rowFormat env) (get_props edge)
                    <$> default ∅ (get_edge_schema resp) !! edata_type edata)
                 (get_dst edge)))
    as (value & -> & Hfalse).
  simpl. by rewrite Hfalse.
Qed.

End projection.

Section projection_trace.
Import GoExecutor.
Variables (env : Env) (st : Executor).
Context {S : Type}.
Variable cb : Callback S.

Lemma traced_inv record colTypes s calls acc :
  traced cb record colTypes (s, calls) = Ok acc →
  ∃ s', cb record colTypes s = Ok s' ∧ acc = (s', calls ++ [record]).
Proof.
  unfold traced; simpl. intros (s' & Hcb & [= <-])%bind_Ok_inv. eauto.
Qed.

Lemma projectEdge_distinct_inv colTypes getters acc acc' :
  distinct_ st = true →
  distinct_inv env acc →
  projectEdge env st (traced cb) colTypes getters acc = Ok acc' →
  distinct_inv env acc'.
Proof.
  intros Hd Hinv [->|[_ Hemit]]%projectEdge_inv; [done|].
  destruct acc as [uniqResult [s calls]].
  apply emitRecord_inv in Hemit as (record & _ & [(_ & _ & ->)|Hcb]);
    [done|].
  destruct Hcb as (s' & (s1 & _ & ->)%traced_inv & Hacc).
  rewrite Hd in Hacc. destruct Hacc as [Hnew ->].
  destruct Hinv as [Hnodup Hset]; simpl in *.
  unfold distinct_inv; simpl. rewrite fmap_app; simpl. split.
  - apply NoDup_app. split; [done|]. split; [|apply NoDup_singleton].
    intros h Hh ->%list_elem_of_singleton. apply Hnew. by apply Hset.
  - intros h. rewrite elem_of_union, elem_of_singleton, elem_of_app,
      list_elem_of_singleton, Hset. tauto.
Qed.

(** C8. With the distinct flag set, no two of the records that
    processFinalResult passes to the output callback have the same hash:
    the list of their hashes, in the order of the calls, has no
    repetition. *)
Theorem distinct_rows_have_distinct_hashes rpcResp s s' calls :
  distinct_ st = true →
  processFinalResult env st rpcResp (traced cb) (s, []) = Ok (s', calls) →
  NoDup (hash_range env <$> calls).
Proof.
  intros Hd Hrun.
  destruct (processFinalResult_invariant env st (traced cb) (distinct_inv env)
              rpcResp (s, []) (s', calls)) as (uniqResult & Hnodup & _);
    [|split|exact Hrun|exact Hnodup].
  - intros colTypes getters acc acc'. by apply projectEdge_distinct_inv.
  - apply NoDup_nil_2.
  - intros h; simpl. by rewrite elem_of_empty, elem_of_nil.
Qed.




End projection_trace.

Lemma Result_rel_bind {A B A' B'} (R : A → A' → Prop) (Q : B → B' → Prop)
    (m : Result A) (m' : Result A') (f : A → Result B) (f' : A' → Result B') :
  Result_rel R m m' →
  (∀ a a', R a a' → Result_rel Q (f a) (f' a')) →
  Result_rel Q (a ← m; f a) (a' ← m'; f' a').
Proof. destruct m, m'; simpl; try done. intros HR Hf. by apply Hf. Qed.

Lemma Result_rel_refl {A} (r : Result A) : Result_rel eq r r.
Proof. by destruct r. Qed.

Lemma foreach_sim {A S T} (R : S → T → Prop)
    (body1 : A → S → Result S) (body2 : A → T → Result T) l :
  (∀ x s t, R s t → Result_rel R (body1 x s) (body2 x t)) →
  ∀ s t, R s t → Result_rel R (foreach body1 l s) (foreach body2 l t).
Proof.
  intros Hbody. induction l as [|x xs IH]; intros s t Hst; simpl; [done|].
  eapply Result_rel_bind; [by apply Hbody|]. apply IH.
Qed.

Section trace_faithful.
Import GoExecutor.
Variables (env : Env) (st : Executor).
Context {S : Type}.
Variable cb : Callback S.

Lemma emitRecord_traced colTypes getters acc acc' :
  erase acc acc' →
  Result_rel erase (emitRecord env st (traced cb) colTypes getters acc)
                   (emitRecord env st cb colTypes getters acc').
Proof.
  destruct acc as [u [s calls]], acc' as [u' s']. intros [Hu Hs].
  simpl in *. subst u' s'. unfold emitRecord.
  eapply Result_rel_bind; [apply Result_rel_refl|].
  intros record _ <-. unfold traced; simpl.
  destruct (distinct_ st); [destruct (bool_decide _); [done|]|];
    by destruct (cb record colTypes s).
Qed.

Lemma projectEdge_traced colTypes getters acc acc' :
  erase acc acc' →
  Result_rel erase (projectEdge env st (traced cb) colTypes getters acc)
                   (projectEdge env st cb colTypes getters acc').
Proof.
  intros Hacc. unfold projectEdge.
  destruct (filter_ (whereWrapper_ st)) as [filter|];
    [|by apply emitRecord_traced].
  eapply Result_rel_bind; [apply Result_rel_refl|].
  intros value _ <-. destruct (asBool env value); [|done].
  by apply emitRecord_traced.
Qed.

(** Keeping the trace changes nothing else: the traced run ends as the
    plain run does, with the same state of the callback. *)
Lemma processFinalResult_traced rpcResp s calls :
  Result_rel (λ r s', r.1 = s')
    (processFinalResult env st rpcResp (traced cb) (s, calls))
    (processFinalResult env st rpcResp cb s).
Proof.
  unfold processFinalResult.
  eapply Result_rel_bind; [apply Result_rel_refl|]. intros colTypes _ <-.
  eapply Result_rel_bind with (R := erase); [|by intros ? ? [_ ?]].
  apply foreach_sim; [|done]. intros resp acc1 acc1' H1.
  destruct (get_vertices resp); [|done].
  apply foreach_sim; [|done]. intros vdata acc2 acc2' H2.
  apply foreach_sim; [|done]. intros edata acc3 acc3' H3.
  apply foreach_sim; [|done]. intros edge acc4 acc4' H4.
  by apply projectEdge_traced.
Qed.

End trace_faithful.

(* ----------------------------------------------------------------- *)
(** ** GoExecutor: the response of a terminal query *)

Section thrift_response.
Import GoExecutor.
Variable env : Env.

(** The cell that a declared column type selects. *)
Lemma setColumn_declared type column cell :
  setColumn env type column = Ok cell →
  match type with
  | BOOL => ∃ b, column = VAR_BOOL b ∧ cell = CV_bool_val b
  | INT => ∃ i, column = VAR_INT64 i ∧ cell = CV_integer i
  | TIMESTAMP => ∃ i, column = VAR_INT64 i ∧ cell = CV_timestamp i
  | VID => ∃ i, column = VAR_INT64 i ∧ cell = CV_id i
  | DOUBLE => ∃ d, column = VAR_DOUBLE d ∧ cell = CV_double_precision d
  | FLOAT =>
      ∃ d, column = VAR_DOUBLE d ∧
           cell = CV_single_precision (double_to_float env d)
  | STRING => ∃ s, column = VAR_STR s ∧ cell = CV_str s
  | _ =>
      match column with
      | VAR_INT64 i => cell = CV_integer i
      | VAR_DOUBLE d => cell = CV_double_precision d
      | VAR_STR s => cell = CV_str s
      | VAR_BOOL _ => cell = CV_EMPTY
      end
  end.
Proof.
  destruct type, column; simpl; intros [= <-]; eauto.
Qed.

(** Column names: the alias when there is one, else the expression's text. *)
Lemma getResultColumnNames_lookup st i col :
  yields_ st !! i = Some col →
  getResultColumnNames st !! i
    = Some (default (toString (col_expr col)) (col_alias col)).
Proof.
  intros Hcol. unfold getResultColumnNames.
  rewrite list_lookup_fmap, Hcol; simpl. by destruct (col_alias col).
Qed.

(** The row has one cell per column type, each set from the value at the
    same position. *)
Lemma setColumns_lookup record colTypes row i type column :
  setColumns env record colTypes = Ok row →
  colTypes !! i = Some type →
  record !! i = Some column →
  ∃ cell, setColumn env type column = Ok cell ∧ row !! i = Some cell.
Proof.
  revert record row i.
  induction colTypes as [|ty tys IH]; intros record row i; simpl; [done|].
  destruct record as [|col cols]; [done|].
  intros (cell & Hcell & (cells & Hcells & [= <-])%bind_Ok_inv)%bind_Ok_inv.
  destruct i as [|i]; simpl.
  - intros [= <-] [= <-]. by exists cell.
  - intros Hty Hcol. by apply (IH cols cells i).
Qed.

(** C6, where the code departs from it. In any row that the callback of
    toThriftResponse appends, a column whose declared type is UNKNOWN and
    whose value is a bool holds no variant at all: its cell is the empty
    ColumnValue that emplace_back created. *)
Theorem unknown_bool_cell_is_empty record colTypes rows rows' i (b : bool) :
  toThriftResponse_cb env record colTypes rows = Ok rows' →
  colTypes !! i = Some UNKNOWN →
  record !! i = Some (VAR_BOOL b) →
  ∃ row, rows' = rows ++ [{| columns := row |}] ∧ row !! i = Some CV_EMPTY.
Proof.
  unfold toThriftResponse_cb.
  intros (row & Hrow & [= <-])%bind_Ok_inv Hty Hcol.
  exists row. split; [done|].
  destruct (setColumns_lookup _ _ _ _ _ _ Hrow Hty Hcol) as (cell & Hcell & ->).
  simpl in Hcell. by inversion Hcell.
Qed.
End thrift_response.

(* ----------------------------------------------------------------- *)
(** ** The properties at work on the concrete instance *)

Lemma getStepOutProps_contents_witness :
  GoExecutor.getStepOutProps Demo.env Demo.go_like
    = Ok [GoExecutor.edgeProp _DST 1; GoExecutor.edgeProp "rating" 1] ∧
  ∃ edgeType,
    getEdgeType (GoExecutor.expCtx_ Demo.go_like) "like" = Some edgeType ∧
    GoExecutor.edgeProp "rating" edgeType
      ∈ [GoExecutor.edgeProp _DST 1; GoExecutor.edgeProp "rating" 1].
Proof.
  split; [reflexivity|].
  destruct (getStepOutProps_contents Demo.env Demo.go_like) as [_ Hfinal].
  destruct (Hfinal eq_refl _ eq_refl) as (_ & _ & _ & _ & Halias & _).
  destruct (Halias eq_refl "like" "rating") as [_ Hin]; [by left|].
  exists 1. split; [reflexivity|]. apply Hin; [|reflexivity].
  intros name edgeType. unfold Demo.go_like, getEdgeType. simpl.
  intros [_ <-]%lookup_singleton_Some. by left.
Defined.

(** C3, as stated, fails for a forward query that refers to the _RANK of
    an edge: the request of its final hop holds _RANK for every traversed
    edge type although the traversal is not reverse. *)
Lemma getStepOutProps_forward_rank :
  let st := Demo.go_rank in
  GoExecutor.isFinalStep st = true ∧
  GoExecutor.isReversely st = false ∧
  ∃ props,
    GoExecutor.getStepOutProps Demo.env st = Ok props ∧
    ∀ e, e ∈ GoExecutor.edgeTypes_ st → GoExecutor.edgeProp _RANK e ∈ props.
Proof.
  split; [reflexivity|]. split; [reflexivity|].
  exists [GoExecutor.edgeProp _DST 1; GoExecutor.edgeProp _RANK 1].
  split; [reflexivity|].
  intros e [->|[]%elem_of_nil]%elem_of_cons. right. by left.
Defined.

Lemma getEdgeDstId_spec_witness :
  GoExecutor.getters_getEdgeDstId Demo.go_two 1 2 1 "serve"
    = Ok (VAR_INT64 0).
Proof.
  destruct (getEdgeDstId_spec Demo.go_two 1 2 1 "serve") as (_ & Hother & _).
  apply (Hother 2); [simpl; lia|reflexivity|discriminate].
Defined.

(** C7, as stated, fails on an edge name that the OVER clause did not
    register: with two traversed edge types the getter returns neither 0
    nor a vertex id, but an error. *)
Lemma getEdgeDstId_unknown_edge :
  let ret := GoExecutor.getters_getEdgeDstId Demo.go_two 1 2 1 "foo" in
  (1 < length (GoExecutor.edgeTypes_ Demo.go_two))%nat ∧
  getEdgeType (GoExecutor.expCtx_ Demo.go_two) "foo" = None ∧
  ret ≠ Ok (VAR_INT64 0) ∧
  ret ≠ Ok (VAR_INT64 (if GoExecutor.isReversely Demo.go_two then 1 else 2)).
Proof. simpl. split; [lia|]. by repeat split. Qed.

Lemma reverse_getAliasProp_spec_witness :
  ∃ msg,
    GoExecutor.getters_getAliasProp Demo.env Demo.go_back
      (Some (Demo.reader "r" [("rating", INT)])) 2 1 (-1)
      {[ -1 := [("rating", INT)] ]} "like" "rating" = Err msg.
Proof.
  destruct (reverse_getAliasProp_spec Demo.env Demo.go_back
              (Demo.reader "r" [("rating", INT)]) 2 1 (-1) (-1)
              {[ -1 := [("rating", INT)] ]} EdgeHolder.empty "like" "rating"
              eq_refl eq_refl eq_refl) as [Hsame _].
  apply Hsame; reflexivity.
Defined.

Lemma distinct_rows_have_distinct_hashes_witness :
  NoDup (hash_range Demo.env <$> [[VAR_INT64 2]]).
Proof.
  apply (distinct_rows_have_distinct_hashes Demo.env Demo.go_distinct
           Demo.count Demo.resp 0%nat 1%nat [[VAR_INT64 2]]);
    [reflexivity|vm_compute; reflexivity].
Defined.


Lemma unknown_bool_cell_is_empty_witness :
  ∃ row,
    [ {| columns := [CV_id 2; CV_EMPTY] |} ] = [] ++ [{| columns := row |}] ∧
    row !! 1%nat = Some CV_EMPTY.
Proof.
  apply (unknown_bool_cell_is_empty Demo.env
           [VAR_INT64 2; VAR_BOOL true] [VID; UNKNOWN] [] _ 1%nat true);
    reflexivity.
Defined.

(** The response to [GO FROM 1 OVER like YIELD true]: three rows, each with
    a cell that holds nothing. *)
Example yield_true_response :
  GoExecutor.toThriftResponse Demo.env Demo.go_true Demo.resp
  = Ok [ {| columns := [CV_EMPTY] |}; {| columns := [CV_EMPTY] |};
         {| columns := [CV_EMPTY] |} ].
Proof. vm_compute. reflexivity. Qed.

(** Scenario S6 on two edge types: the column of the other edge type
    is 0. *)
Example over_two_edges_response :
  GoExecutor.toThriftResponse Demo.env Demo.go_two Demo.resp
  = Ok [ {| columns := [CV_id 2; CV_id 0] |};
         {| columns := [CV_id 3; CV_id 0] |};
         {| columns := [CV_id 2; CV_id 0] |} ].
Proof. vm_compute. reflexivity. Qed.

(** Two rows that store different vertex ids re-encode to the same
    string: at most one of them can be its own round trip. *)
Example vid_rows_collapse :
  NebulaCodecImpl.decode Demo.rf "a" [("id", VID)]
    ≠ NebulaCodecImpl.decode Demo.rf "ab" [("id", VID)] ∧
  reencode Demo.rf "a" [("id", VID)] = reencode Demo.rf "ab" [("id", VID)].
Proof.
  split; [|reflexivity].
  intros Heq.
  assert (Ok (NebulaCodecImpl.any_int64 1) = Ok (NebulaCodecImpl.any_int64 2))
    as Habs; [|discriminate].
  change (Ok (NebulaCodecImpl.any_int64 1))
    with (m ← NebulaCodecImpl.decode Demo.rf "a" [("id", VID)];
          from_option Ok (Err "") (m !! "id")).
  by rewrite Heq.
Qed.

(* ================================================================= *)
(** * Further properties of the modelled code *)

(* ----------------------------------------------------------------- *)
(** ** NebulaCodecImpl: what is written and what is read *)

Section codec_more.
Import NebulaCodecImpl.
Variable rf : RowFormat.

Lemma write_cell_of writer value :
  write writer value = writer ++ option_list (cell_of value).
Proof. destruct value; simpl; by rewrite ?app_nil_r. Qed.

Lemma write_loop_cells values writer :
  fold_left write values writer = writer ++ omap cell_of values.
Proof.
  revert writer. induction values as [|v vs IH]; intros writer; simpl.
  - by rewrite app_nil_r.
  - rewrite IH, write_cell_of, <- app_assoc. by destruct (cell_of v).
Qed.

(** X1. [encode] writes the values of the five dynamic types it knows, in
    order, and nothing for any other value: a value of another type can
    be taken out of the vector without changing the result. *)
Theorem encode_ignores_unknown_types (before after : list Value)
    (value : Value) :
  encode rf (before ++ after)
    = RowWriter_encode rf (omap cell_of before ++ omap cell_of after) ∧
  (cell_of value = None →
   encode rf (before ++ value :: after) = encode rf (before ++ after)).
Proof.
  unfold encode. rewrite !write_loop_cells; simpl. rewrite !omap_app; simpl.
  split; [done|]. by intros ->.
Qed.

(** What one turn of the decoding loop leaves under [name]. *)
Lemma decode_field_lookup reader result field type name :
  decode_field reader result (field, type) !! name
  = match (if decide (field = name) then field_value reader field type
           else None) with
    | Some v => Some v
    | None => result !! name
    end.
Proof.
  unfold decode_field, field_value, PRINT_ERROR_MESSAGE; simpl.
  destruct (decide (field = name)) as [->|Hne].
  - destruct type; simpl; try done;
      match goal with |- context [let '(_, _) := ?r in _] =>
        destruct r as [[|c] v] end; simpl; by rewrite ?lookup_insert_eq.
  - destruct type; simpl; try done;
      match goal with |- context [let '(_, _) := ?r in _] =>
        destruct r as [[|c] v] end; simpl; by rewrite ?lookup_insert_ne.
Qed.

Lemma last_cons_default {A} (x : A) (l : list A) :
  last (x :: l) = Some (default x (last l)).
Proof.
  revert x. induction l as [|y l IH]; intros x; [done|].
  change (last (x :: y :: l)) with (last (y :: l)). by rewrite IH.
Qed.

(** The loop keeps, under each name, the value of the last field of that
    name whose read succeeded. *)
Lemma decode_loop_lookup reader fields result name :
  fold_left (decode_field reader) fields result !! name
  = match last (values_named reader name fields) with
    | Some v => Some v
    | None => result !! name
    end.
Proof.
  revert result. induction fields as [|[f t] fs IH]; intros result; [done|].
  simpl. rewrite IH, decode_field_lookup. unfold values_named; simpl.
  destruct (decide (f = name)) as [->|Hne]; [|done].
  destruct (field_value reader name t) as [v|]; [|done].
  rewrite last_cons_default. by destruct (last _).
Qed.

(** X2. In the map that [decode] returns, every entry stems from a field of
    that name whose typed read succeeded, and holds the value that this
    read produced: of the dynamic type that belongs to the declared type
    (bool, int, int64_t, float, double, string). *)
Theorem decode_entries_are_reads encoded fields result name value :
  decode rf encoded fields = Ok result →
  result !! name = Some value →
  ∃ type, (name, type) ∈ fields ∧
          field_value (RowReader_getRowReader rf encoded fields) name type
            = Some value.
Proof.
  unfold decode. rewrite decode_schema; simpl.
  destruct (decide (encoded = "")); [done|].
  destruct (decide (length fields = 0%nat)); [done|].
  intros [= <-]. rewrite decode_loop_lookup, lookup_empty.
  set (reader := RowReader_getRowReader rf encoded fields).
  destruct (last _) as [v|] eqn:Hlast; [|done]. intros [= ->].
  apply last_Some_elem_of in Hlast.
  apply list_elem_of_omap in Hlast as ([f t] & Hin & Hv). simpl in Hv.
  destruct (decide (f = name)) as [->|]; [|done]. by exists t.
Qed.

Lemma values_named_cons reader name f t fs :
  values_named reader name ((f, t) :: fs)
  = (if decide (f = name) then option_list (field_value reader f t) else [])
    ++ values_named reader name fs.
Proof.
  unfold values_named; simpl. destruct (decide (f = name)); [|done].
  by destruct (field_value reader f t).
Qed.

Lemma values_named_absent reader name fs :
  name ∉ fs.*1 → values_named reader name fs = [].
Proof.
  induction fs as [|[f t] fs IH]; [done|].
  rewrite fmap_cons. intros [Hne Hnotin]%not_elem_of_cons.
  rewrite values_named_cons, decide_False by done. by apply IH.
Qed.

Lemma values_named_NoDup reader name type fs :
  NoDup fs.*1 → (name, type) ∈ fs →
  values_named reader name fs = option_list (field_value reader name type).
Proof.
  induction fs as [|[f t] fs IH]; [by intros _ ?%elem_of_nil|].
  rewrite fmap_cons. intros [Hnotin Hnodup]%NoDup_cons Hin.
  rewrite values_named_cons.
  apply elem_of_cons in Hin as [[= <- <-]|Hin].
  - rewrite decide_True by done.
    by rewrite values_named_absent, app_nil_r.
  - rewrite decide_False; [by apply IH|].
    intros ->. apply Hnotin. apply list_elem_of_fmap. by exists (name, type).
Qed.

(** X3. When no two fields share a name, [decode] maps each field that it
    reads successfully to the value read, and has no entry for any other
    field. *)
Theorem decode_field_by_field encoded fields result name type :
  NoDup fields.*1 →
  decode rf encoded fields = Ok result →
  (name, type) ∈ fields →
  result !! name
    = field_value (RowReader_getRowReader rf encoded fields) name type.
Proof.
  unfold decode. rewrite decode_schema; simpl.
  destruct (decide (encoded = "")); [done|].
  destruct (decide (length fields = 0%nat)); [done|].
  intros Hnodup [= <-] Hin. rewrite decode_loop_lookup, lookup_empty.
  rewrite (values_named_NoDup _ _ type) by done.
  by destruct (field_value _ name type).
Qed.

End codec_more.

(* ----------------------------------------------------------------- *)
(** ** GoExecutor: what the OVER clause leaves behind *)

Section over_more.
Import GoExecutor.
Variable env : Env.

(** What one registration (push the type, then addEdge) does to the
    state. *)
Lemma register_edge_inv st name v ctx :
  addEdge (expCtx_ (set_edgeTypes (edgeTypes_ st ++ [v]) st)) name v
    = Some ctx →
  let st' := set_expCtx ctx (set_edgeTypes (edgeTypes_ st ++ [v]) st) in
  edgeTypes_ st' = edgeTypes_ st ++ [v] ∧
  isReversely_ st' = isReversely_ st ∧
  edgeHolder_ st' = edgeHolder_ st ∧
  getEdgeType (expCtx_ st) name = None ∧
  ∀ n, getEdgeType (expCtx_ st') n
       = if decide (name = n) then Some v else getEdgeType (expCtx_ st) n.
Proof.
  unfold addEdge, getEdgeType. destruct st; simpl.
  destruct (edgeMap_ expCtx_0 !! name) eqn:E; [done|].
  intros [= <-]; simpl. do 4 (split; [done|]).
  intros n. apply lookup_insert.
Qed.

Lemma register_edge_traversed st name v ctx :
  traversed_registered st →
  addEdge (expCtx_ (set_edgeTypes (edgeTypes_ st ++ [v]) st)) name v
    = Some ctx →
  traversed_registered (set_expCtx ctx (set_edgeTypes (edgeTypes_ st ++ [v]) st)).
Proof.
  intros Hinv Hadd.
  destruct (register_edge_inv _ _ _ _ Hadd) as (Hty & _ & _ & Hfresh & Hget).
  intros t. rewrite Hty.
  intros [Hold| ->%list_elem_of_singleton]%elem_of_app.
  - destruct (Hinv t Hold) as (n & Hn). exists n. rewrite Hget.
    destruct (decide (name = n)) as [->|]; [congruence|done].
  - exists name. rewrite Hget. by rewrite decide_True.
Qed.

Lemma register_edge_signed st e name v0 ctx :
  traversed_signed env st →
  toEdgeType (schemaManager env) (space env) e = Ok v0 →
  addEdge (expCtx_ (set_edgeTypes
                      (edgeTypes_ st ++ [if isReversely st then - v0 else v0])
                      st))
          name (if isReversely st then - v0 else v0) = Some ctx →
  traversed_signed env
    (set_expCtx ctx
       (set_edgeTypes
          (edgeTypes_ st ++ [if isReversely st then - v0 else v0]) st)).
Proof.
  intros Hinv He Hadd.
  destruct (register_edge_inv _ _ _ _ Hadd) as (Hty & Hrev & _).
  intros t. rewrite Hty. unfold isReversely in *. rewrite Hrev.
  intros [Hold| ->%list_elem_of_singleton]%elem_of_app; [by apply Hinv|].
  exists e. rewrite He. destruct (isReversely_ st); [|done].
  by rewrite Z.opp_involutive.
Qed.

(** An invariant of the state that registering an edge and marking the
    context as OVER * both keep is kept by the whole clause. *)
Lemma prepareOver_loop_invariant (I : Executor → Prop) edges st st' :
  (∀ st e name v0 ctx,
     I st →
     toEdgeType (schemaManager env) (space env) e = Ok v0 →
     addEdge (expCtx_ (set_edgeTypes
                         (edgeTypes_ st ++ [if isReversely st then - v0 else v0])
                         st))
             name (if isReversely st then - v0 else v0) = Some ctx →
     I (set_expCtx ctx
          (set_edgeTypes
             (edgeTypes_ st ++ [if isReversely st then - v0 else v0]) st))) →
  (∀ st, I st → I (set_expCtx (setOverAllEdge (expCtx_ st)) st)) →
  I st →
  prepareOver_loop env edges st = (Ok (), st') →
  I st'.
Proof.
  intros Hreg Hall. revert st.
  assert (∀ allEdge st, I st →
            prepareOverAll_loop env allEdge st = (Ok (), st') → I st') as Hloop.
  { induction allEdge as [|e rest IH]; intros st Hst; simpl.
    - by intros [= <-].
    - destruct (toEdgeType _ _ e) as [v0| |] eqn:He; [|done..].
      destruct (addEdge _ e _) as [ctx|] eqn:Hadd; [|done].
      apply IH. by eapply Hreg. }
  induction edges as [|e rest IH]; intros st Hst; simpl.
  - by intros [= <-].
  - destruct (isOverAll e).
    + unfold prepareOverAll.
      destruct (getAllEdge _ _) as [allEdge| |]; [|done..].
      apply Hloop. by apply Hall.
    + destruct (toEdgeType _ _ (edge e)) as [v0| |] eqn:He; [|done..].
      destruct (addEdge _ _ _) as [ctx|] eqn:Hadd; [|done].
      apply IH. by eapply Hreg.
Qed.

(** X4. When the OVER clause is prepared successfully on an executor that
    traverses nothing yet and has no alias registered, the types of the
    registered aliases are exactly the traversed edge types. *)
Theorem prepareOver_registers_what_it_traverses clause st st' :
  edgeTypes_ st = [] →
  edgeMap_ (expCtx_ st) = ∅ →
  prepareOver env clause st = (Ok (), st') →
  ∀ edgeType,
    edgeType ∈ edgeTypes_ st' ↔
    ∃ name, getEdgeType (expCtx_ st') name = Some edgeType.
Proof.
  intros Hnone Hempty Hprep edgeType. split.
  - revert edgeType. change (traversed_registered st').
    revert Hprep. unfold prepareOver.
    destruct clause as [clause|]; [|done].
    apply prepareOver_loop_invariant.
    + intros. by eapply register_edge_traversed.
    + intros s Hs. by destruct s.
    + intros t. destruct st; simpl in *. subst. unfold isReversely; simpl.
      destruct (oc_isReversely clause); simpl; by intros ?%elem_of_nil.
  - intros (name & Hname).
    apply (prepareOver_registered env clause st st') with (name := name);
      [|done..].
    intros n t. unfold getEdgeType. by rewrite Hempty, lookup_empty.
Qed.

(** X5. After the OVER clause is prepared successfully, the executor has
    the direction of the clause; in reverse mode it has an edge holder and
    every traversed edge type is the negation of a schema edge type, in
    forward mode every traversed edge type is a schema edge type. *)
Theorem prepareOver_direction clause st st' :
  edgeTypes_ st = [] →
  prepareOver env (Some clause) st = (Ok (), st') →
  isReversely st' = oc_isReversely clause ∧
  (oc_isReversely clause = true → is_Some (edgeHolder_ st')) ∧
  ∀ edgeType, edgeType ∈ edgeTypes_ st' →
    ∃ e, toEdgeType (schemaManager env) (space env) e
         = Ok (if oc_isReversely clause then - edgeType else edgeType).
Proof.
  intros Hnone. unfold prepareOver.
  set (st0 := if isReversely (set_isReversely (oc_isReversely clause) st)
              then set_edgeHolder (Some EdgeHolder.empty)
                     (set_isReversely (oc_isReversely clause) st)
              else set_isReversely (oc_isReversely clause) st).
  assert (isReversely st0 = oc_isReversely clause ∧
          (oc_isReversely clause = true → is_Some (edgeHolder_ st0)) ∧
          traversed_signed env st0) as Hst0.
  { subst st0. destruct st; simpl in *. subst. unfold isReversely; simpl.
    destruct (oc_isReversely clause); simpl;
      (split; [done|]); (split; [by eauto|]);
      intros t; simpl; by intros ?%elem_of_nil. }
  intros Hprep.
  pose (I := λ s : Executor,
          isReversely s = oc_isReversely clause ∧
          (oc_isReversely clause = true → is_Some (edgeHolder_ s)) ∧
          traversed_signed env s).
  assert (I st') as (Hrev & Hholder & Hsigned).
  { revert Hprep. apply prepareOver_loop_invariant with (I := I); [| |done].
    - intros s e name v0 ctx (Hr & Hh & Hs) He Hadd.
      destruct (register_edge_inv _ _ _ _ Hadd) as (_ & Hrev' & Hholder' & _).
      unfold I, isReversely in *. rewrite Hrev', Hholder'.
      split; [done|]. split; [done|]. by eapply register_edge_signed.
    - intros s Hs. by destruct s. }
  split; [done|]. split; [done|].
  intros t Ht. destruct (Hsigned t Ht) as (e & He). exists e.
  by rewrite Hrev in He.
Qed.

End over_more.

(* ----------------------------------------------------------------- *)
(** ** GoExecutor: when a property request can be built *)

Section requests_more.
Import GoExecutor GoExecutorFlow.
Variable env : Env.

Lemma getDstProps_loop_shape l props props' :
  getDstProps_loop env l props = Ok props' →
  ∃ dst, props' = props ++ dst ∧ Forall2 (is_dstTagProp env) l dst.
Proof.
  revert props. induction l as [|tp l IH]; intros props; simpl.
  - intros [= <-]. exists []. by rewrite app_nil_r.
  - destruct (toTagID _ _ tp.1) as [tagId| |] eqn:E; [|done..].
    intros (dst & -> & HF)%IH.
    exists (tagProp DEST tp.2 tagId :: dst).
    rewrite <- app_assoc. split; [done|].
    constructor; [by exists tagId|done].
Qed.

Lemma getDstProps_loop_resolves l props :
  Forall (tag_resolves env) l →
  ∃ props', getDstProps_loop env l props = Ok props'.
Proof.
  intros Hall. revert props.
  induction Hall as [|tp l (tagId & Htag) _ IH]; intros props; simpl.
  - by eexists.
  - rewrite Htag. apply IH.
Qed.

Lemma srcTagProps_loop_resolves l props :
  Forall (tag_resolves env) l →
  ∃ props', srcTagProps_loop env l props = Ok props'.
Proof.
  intros Hall. revert props.
  induction Hall as [|tp l (tagId & Htag) _ IH]; intros props; simpl.
  - by eexists.
  - rewrite Htag. apply IH.
Qed.

Lemma aliasProps_loop_resolves ctx l props :
  Forall (alias_resolves ctx) l →
  ∃ props', aliasProps_loop ctx l props = Ok props'.
Proof.
  intros Hall. revert props.
  induction Hall as [|ap l Hap _ IH]; intros props; simpl.
  - by eexists.
  - destruct (bool_decide_reflect (ap.2 = _DST)) as [|Hne]; [apply IH|].
    destruct Hap as [|(edgeType & ->)]; [done|]. apply IH.
Qed.

Lemma aliasProps_loop_Ok_resolves ctx l props props' :
  aliasProps_loop ctx l props = Ok props' →
  Forall (alias_resolves ctx) l.
Proof.
  revert props. induction l as [|ap l IH]; intros props; simpl; [done|].
  destruct (bool_decide_reflect (ap.2 = _DST)) as [Heq|Hne].
  - intros H. constructor; [by left|by eapply IH].
  - destruct (getEdgeType ctx ap.1) as [edgeType|] eqn:E; [|done].
    intros H. constructor; [right; by exists edgeType|by eapply IH].
Qed.

(** X6. The destination-property request can be built exactly when every
    referenced destination tag has an id in the space, and then it holds
    one DEST entry per referenced property, in the order of the
    references. *)
Theorem getDstProps_spec st :
  ((∃ props, getDstProps env st = Ok props) ↔
   Forall (tag_resolves env) (dstTagProps (expCtx_ st))) ∧
  (∀ props, getDstProps env st = Ok props →
     Forall2 (is_dstTagProp env) (dstTagProps (expCtx_ st)) props).
Proof.
  unfold getDstProps. split; [split|].
  - intros (props & (dst & _ & HF)%getDstProps_loop_shape).
    clear -HF. induction HF as [|tp pd l k (tagId & Htag & _) _ IH];
      constructor; [by exists tagId|done].
  - apply getDstProps_loop_resolves.
  - by intros props (dst & -> & HF)%getDstProps_loop_shape.
Qed.

(** X7. The get_neighbors request of a hop can always be built on a hop
    that is not final. On the final hop it can be built exactly when every
    referenced source tag has an id and, in a forward traversal, every
    referenced edge property other than _DST names a registered edge: a
    reverse traversal does not look at the edge properties here, and a
    referenced _DST is never looked up. *)
Theorem stepOut_request_exists st :
  (isFinalStep st = false → ∃ req, stepOut env st = Ok req) ∧
  (isFinalStep st = true →
     ((∃ req, stepOut env st = Ok req) ↔
      Forall (tag_resolves env) (srcTagProps (expCtx_ st)) ∧
      (isReversely st = false →
       Forall (alias_resolves (expCtx_ st)) (aliasProps (expCtx_ st))))).
Proof.
  unfold stepOut, getStepOutProps. split.
  - intros ->; simpl. by eexists.
  - intros ->. cbn [negb].
    match goal with |- context [srcTagProps_loop env _ ?p] =>
      generalize p end.
    intros props0. split.
    + intros (req & Hreq).
      destruct (srcTagProps_loop _ _ _) as [props1| |] eqn:Hsrc; [|done..].
      simpl in Hreq. split.
      * apply srcTagProps_loop_shape in Hsrc as (src & _ & HF).
        clear -HF. induction HF as [|tp pd l k (tagId & Htag & _) _ IH];
          constructor; [by exists tagId|done].
      * intros Hfwd. rewrite Hfwd in Hreq.
        destruct (aliasProps_loop _ _ _) as [props2| |] eqn:Hals; [|done..].
        by eapply aliasProps_loop_Ok_resolves.
    + intros [Hsrc Hals].
      destruct (srcTagProps_loop_resolves _ props0 Hsrc) as (props1 & ->).
      simpl.
      destruct (isReversely st); [by eexists|].
      destruct (aliasProps_loop_resolves _ _ props1 (Hals eq_refl))
        as (props2 & ->).
      by eexists.
Qed.

End requests_more.

(* ----------------------------------------------------------------- *)
(** ** GoExecutor: the destinations of a response *)

Lemma fold_left_invariant {A B} (I : B → Prop) (f : B → A → B) l acc :
  (∀ acc x, x ∈ l → I acc → I (f acc x)) → I acc → I (fold_left f l acc).
Proof.
  revert acc. induction l as [|x xs IH]; intros acc Hf Hacc; simpl; [done|].
  apply IH.
  - intros acc' y Hy. apply Hf. by right.
  - apply Hf; [by left|done].
Qed.

Lemma fold_left_elem_of {A B} (f : gset Z * B → A → gset Z * B)
    (g : A → list Z) l acc v :
  (∀ acc x v, v ∈ (f acc x).1 ↔ v ∈ g x ∨ v ∈ acc.1) →
  v ∈ (fold_left f l acc).1 ↔ v ∈ l ≫= g ∨ v ∈ acc.1.
Proof.
  intros Hf. revert acc. induction l as [|x xs IH]; intros acc; simpl.
  - rewrite elem_of_nil. tauto.
  - rewrite IH, Hf, elem_of_app. tauto.
Qed.

Lemma list_bind_singleton_fmap {A B} (f : A → B) (l : list A) :
  (l ≫= λ x, [f x]) = f <$> l.
Proof. induction l as [|x l IH]; [done|]. by rewrite fmap_cons, <- IH. Qed.

Section dst_ids.
Import GoExecutor GoExecutorFlow.
Variable st : Executor.

(** The destinations of the edges of a response, level by level. *)
Lemma response_edges_dst rpcResp v :
  (∃ e, e ∈ response_edges rpcResp ∧ get_dst e.2 = v) ↔
  v ∈ responses rpcResp ≫= λ resp,
        default [] (get_vertices resp) ≫= λ vdata,
          edge_data vdata ≫= λ edata, get_dst <$> get_edges edata.
Proof.
  unfold response_edges. split.
  - intros ([[vdata edata] edge] & Hin & <-).
    apply list_elem_of_bind in Hin as (resp & Hin & Hresp).
    apply list_elem_of_bind in Hin as (vdata' & Hin & Hvdata).
    apply list_elem_of_bind in Hin as (edata' & Hin & Hedata).
    apply list_elem_of_bind in Hin as (edge' & Hin & Hedge).
    apply list_elem_of_singleton in Hin as [= -> -> ->].
    apply list_elem_of_bind. exists resp. split; [|done].
    apply list_elem_of_bind. exists vdata'. split; [|done].
    apply list_elem_of_bind. exists edata'. split; [|done].
    apply list_elem_of_fmap. by exists edge'.
  - intros (resp & Hin & Hresp)%list_elem_of_bind.
    apply list_elem_of_bind in Hin as (vdata & Hin & Hvdata).
    apply list_elem_of_bind in Hin as (edata & Hin & Hedata).
    apply list_elem_of_fmap in Hin as (edge & -> & Hedge).
    exists (vdata, edata, edge). split; [|done].
    apply list_elem_of_bind. exists resp. split; [|done].
    apply list_elem_of_bind. exists vdata. split; [|done].
    apply list_elem_of_bind. exists edata. split; [|done].
    apply list_elem_of_bind. exists edge. split; [by left|done].
Qed.

(** The set that getDstIdsFromResp accumulates holds the destinations of
    the edges of the response. *)
Lemma getDstIdsFromResp_ids rpcResp :
  NoDup (getDstIdsFromResp st rpcResp).1 ∧
  (∀ v, v ∈ (getDstIdsFromResp st rpcResp).1 ↔
        ∃ e, e ∈ response_edges rpcResp ∧ get_dst e.2 = v).
Proof.
  unfold getDstIdsFromResp; simpl. split; [apply NoDup_elements|].
  - intros v. rewrite elem_of_elements, response_edges_dst.
    rewrite (fold_left_elem_of _
               (λ resp, default [] (get_vertices resp) ≫= λ vdata,
                  edge_data vdata ≫= λ edata, get_dst <$> get_edges edata)).
    { simpl. rewrite elem_of_empty. tauto. }
    clear v. intros acc resp v.
    destruct (get_vertices resp) as [vertices|]; simpl;
      [|rewrite elem_of_nil; tauto].
    apply (fold_left_elem_of _
             (λ vdata, edge_data vdata ≫= λ edata,
                get_dst <$> get_edges edata)).
    clear acc v. intros acc vdata v.
    apply (fold_left_elem_of _ (λ edata, get_dst <$> get_edges edata)).
    clear acc v. intros acc edata v.
    rewrite <- (list_bind_singleton_fmap get_dst).
    apply (fold_left_elem_of _ (λ edge, [get_dst edge])).
    clear acc v. intros acc edge v. simpl.
    rewrite elem_of_union, elem_of_singleton, list_elem_of_singleton. tauto.
Qed.

(** X8. The ids that getDstIdsFromResp returns are the destinations of the
    edges of the response, each once. The back-tracker is left as it was
    on the final step, and there is none afterwards where there was none
    before. *)
Theorem getDstIdsFromResp_spec rpcResp :
  let ret := getDstIdsFromResp st rpcResp in
  NoDup ret.1 ∧
  (∀ v, v ∈ ret.1 ↔ ∃ e, e ∈ response_edges rpcResp ∧ get_dst e.2 = v) ∧
  (isFinalStep st = true → ret.2 = backTracker_ st) ∧
  (backTracker_ st = None → ret.2 = None).
Proof.
  cbv zeta. destruct (getDstIdsFromResp_ids rpcResp) as [Hnodup Hmem].
  split; [exact Hnodup|]. split; [exact Hmem|]. clear Hnodup Hmem.
  unfold getDstIdsFromResp; simpl. split.
  - intros Hfinal.
    apply (fold_left_invariant (λ acc, acc.2 = backTracker_ st)); [|done].
    intros acc resp _ Hacc. destruct (get_vertices resp); [|done].
    apply (fold_left_invariant (λ acc, acc.2 = backTracker_ st)); [|done].
    intros acc1 vdata _ Hacc1.
    apply (fold_left_invariant (λ acc, acc.2 = backTracker_ st)); [|done].
    intros acc2 edata _ Hacc2.
    apply (fold_left_invariant (λ acc, acc.2 = backTracker_ st)); [|done].
    intros acc3 edge _ Hacc3. simpl. by rewrite Hfinal.
  - intros Hnone. rewrite Hnone.
    apply (fold_left_invariant (λ acc, acc.2 = None)); [|done].
    intros acc resp _ Hacc. destruct (get_vertices resp); [|done].
    apply (fold_left_invariant (λ acc, acc.2 = None)); [|done].
    intros acc1 vdata _ Hacc1.
    apply (fold_left_invariant (λ acc, acc.2 = None)); [|done].
    intros acc2 edata _ Hacc2.
    apply (fold_left_invariant (λ acc, acc.2 = None)); [|done].
    intros acc3 edge _ Hacc3. simpl. rewrite Hacc3. by destruct (negb _).
Qed.

End dst_ids.

(* ----------------------------------------------------------------- *)
(** ** GoExecutor: the hop loop *)

Section hop_loop.
Import GoExecutor GoExecutorFlow.
Variable env : Env.

Lemma fetchVertexProps_cases st ids rpcResp :
  (∃ req, fetchVertexProps env st ids rpcResp = A_getVertexProps st req rpcResp
          ∧ vreq_vertices req = ids) ∨
  (∃ msg, fetchVertexProps env st ids rpcResp = A_doError msg) ∨
  (∃ what, fetchVertexProps env st ids rpcResp = A_fatal what).
Proof.
  unfold fetchVertexProps. destruct (getDstProps env st); eauto.
Qed.

(** The final response never leads to another hop. *)
Lemma maybeFinishExecution_no_hop st rpcResp st' req :
  maybeFinishExecution env st rpcResp ≠ A_getNeighbors st' req.
Proof.
  unfold maybeFinishExecution.
  repeat match goal with
         | |- context [if ?b then _ else _] => destruct b
         end; try done.
  - by destruct (fetchVertexProps_cases
                   (set_backTracker (getDstIdsFromResp st rpcResp).2 st)
                   (getDstIdsFromResp st rpcResp).1 rpcResp)
      as [(? & -> & _)|[(? & ->)|(? & ->)]].
  - destruct (edgeKeys_of_response env rpcResp); [|done..].
    by destruct (edgeProps_of_aliasProps _).
Qed.

Lemma next_hop_fields st ids bt :
  let st1 := set_starts ids (set_backTracker bt st) in
  let st2 := set_curStep (curStep_ st1 + 1) st1 in
  starts_ st1 = ids ∧
  curStep_ st2 = curStep_ st + 1 ∧
  steps_ st2 = steps_ st ∧
  edgeTypes_ st2 = edgeTypes_ st ∧
  starts_ st2 = ids.
Proof. by destruct st. Qed.

Lemma stepOut_vertices st req :
  stepOut env st = Ok req → req_vertices req = starts_ st.
Proof.
  unfold stepOut. destruct (getStepOutProps env st); [|done..].
  by intros [= <-].
Qed.

(** A request after the continuation of get_neighbors is one of
    onStepOutResponse, and the continuation gets that far when the
    response is not wholly failed and the trace, if it is on, runs
    through. *)
Lemma on_getNeighbors_request st result st' req :
  on_getNeighbors env st result = A_getNeighbors st' req →
  completeness result ≠ 0 ∧
  onStepOutResponse env st result = A_getNeighbors st' req.
Proof.
  unfold on_getNeighbors, stepOut_cb.
  destruct (bool_decide_reflect (completeness result = 0)) as [|Hc]; [done|].
  destruct (FLAGS_trace_go env); cbn [snd]; [|by auto].
  destruct (log_trace st result).2; [done|by auto].
Qed.

Lemma on_getNeighbors_continues st result :
  completeness result ≠ 0 →
  FLAGS_trace_go env = false ∨ traceable result →
  on_getNeighbors env st result = onStepOutResponse env st result.
Proof.
  intros Hc Htrace. unfold on_getNeighbors, stepOut_cb.
  rewrite bool_decide_eq_false_2 by done.
  destruct (FLAGS_trace_go env); cbn [snd]; [|done].
  destruct Htrace as [|Htrace]; [done|].
  apply (log_trace_None st) in Htrace. by rewrite Htrace.
Qed.

(** The only path of the continuation of get_neighbors that ends in a
    further request. *)
Lemma on_getNeighbors_inv st result st' req :
  on_getNeighbors env st result = A_getNeighbors st' req →
  isFinalStep st = false ∧
  completeness result ≠ 0 ∧
  (getDstIdsFromResp st result).1 ≠ [] ∧
  st' = (let st1 := set_starts (getDstIdsFromResp st result).1
                      (set_backTracker (getDstIdsFromResp st result).2 st) in
         set_curStep (curStep_ st1 + 1) st1) ∧
  stepOut env st' = Ok req.
Proof.
  intros (Hc & Hreq)%on_getNeighbors_request. revert Hreq.
  unfold onStepOutResponse.
  destruct (isFinalStep st) eqn:Hfinal;
    [intros H; by apply maybeFinishExecution_no_hop in H|].
  remember (getDstIdsFromResp st result) as ret eqn:Hret. clear Hret.
  destruct (next_hop_fields st ret.1 ret.2) as (Hs1 & _).
  cbv zeta. rewrite Hs1.
  destruct (bool_decide_reflect (ret.1 = [])) as [|Hne]; [done|].
  unfold stepOut_action.
  destruct (stepOut env _) as [req0| |] eqn:Hreq; [|done..].
  by intros [= <- <-].
Qed.

(** X9. The continuation of get_neighbors issues a further request only
    on a hop that is not final and for a response that is not wholly
    failed, and then the next hop starts from the destinations of that
    response, each once and at least one, with the hop counter advanced
    by one and the step count and the traversed edge types unchanged. *)
Theorem on_getNeighbors_next_hop st result st' req :
  on_getNeighbors env st result = A_getNeighbors st' req →
  isFinalStep st = false ∧
  completeness result ≠ 0 ∧
  curStep_ st' = curStep_ st + 1 ∧
  steps_ st' = steps_ st ∧
  edgeTypes_ st' = edgeTypes_ st ∧
  starts_ st' = (getDstIdsFromResp st result).1 ∧
  starts_ st' ≠ [] ∧
  NoDup (starts_ st') ∧
  (∀ v, v ∈ starts_ st' ↔
        ∃ e, e ∈ response_edges result ∧ get_dst e.2 = v) ∧
  stepOut env st' = Ok req ∧
  req_vertices req = starts_ st'.
Proof.
  intros (Hfinal & Hc & Hne & -> & Hreq)%on_getNeighbors_inv.
  destruct (getDstIdsFromResp_ids st result) as [Hnodup Hmem].
  remember (getDstIdsFromResp st result) as ret eqn:Hret. clear Hret.
  destruct (next_hop_fields st ret.1 ret.2)
    as (Hs1 & Hcur & Hsteps & Hty & Hs2).
  cbv zeta in *.
  split; [done|]. split; [done|]. split; [exact Hcur|].
  split; [exact Hsteps|]. split; [exact Hty|]. split; [exact Hs2|].
  rewrite Hs2. split; [done|]. split; [done|]. split; [exact Hmem|].
  split; [exact Hreq|]. rewrite (stepOut_vertices _ _ Hreq). exact Hs2.
Qed.

(** Only the hop counter, the start set and the back-tracker change from
    one hop to the next. *)
Lemma feed_next_hop st req results st' req' :
  curStep_ st ≤ steps_ st →
  feed env (A_getNeighbors st req) results = A_getNeighbors st' req' →
  curStep_ st' = curStep_ st + Z.of_nat (length results) ∧
  steps_ st' = steps_ st ∧
  curStep_ st' ≤ steps_ st'.
Proof.
  revert st req. induction results as [|result rest IH]; intros st req Hle.
  - simpl. intros [= <- <-]. lia.
  - simpl. destruct (on_getNeighbors env st result) as [| | |st1 req1| | |] eqn:Hhop;
      try (destruct rest; discriminate).
    apply on_getNeighbors_inv in Hhop as (Hfinal & _ & _ & Hst1 & _).
    destruct (next_hop_fields st (getDstIdsFromResp st result).1
                (getDstIdsFromResp st result).2)
      as (_ & Hcur & Hsteps & _).
    cbv zeta in Hcur, Hsteps, Hst1. rewrite <- Hst1 in Hcur, Hsteps.
    apply bool_decide_eq_false in Hfinal.
    intros (Hc & Hs & Hl)%IH; [|lia].
    rewrite Hc, Hs, Hcur, Hsteps, Nat2Z.inj_succ. lia.
Qed.

(** X10. Started on a hop number that is not beyond the step count, the
    executor issues at most as many get_neighbors requests as hops remain:
    once [steps_ - curStep_ + 1] responses have been handled, no request
    is outstanding. While one is, the hop counter has advanced by one per
    response and has not passed the step count. *)
Theorem hop_loop_bounded st req results st' req' :
  curStep_ st ≤ steps_ st →
  feed env (A_getNeighbors st req) results = A_getNeighbors st' req' →
  Z.of_nat (length results) ≤ steps_ st - curStep_ st ∧
  curStep_ st' = curStep_ st + Z.of_nat (length results) ∧
  curStep_ st' ≤ steps_ st'.
Proof.
  intros Hle Hfeed.
  destruct (feed_next_hop _ _ _ _ _ Hle Hfeed) as (Hc & Hs & Hl).
  split; [lia|done].
Qed.

(** What onStepOutResponse does with a response that has no edge. *)
Lemma onStepOutResponse_dead_end st result :
  response_edges result = [] →
  (isFinalStep st = false →
   ∃ st', onStepOutResponse env st result = A_onEmptyInputs st') ∧
  (isFinalStep st = true →
   (∃ st', onStepOutResponse env st result = A_onEmptyInputs st') ∨
   onStepOutResponse env st result = A_finishExecution st result ∧
   hasDstTagProp (expCtx_ st) = false).
Proof.
  intros Hnone.
  assert ((getDstIdsFromResp st result).1 = []) as Hids.
  { destruct (getDstIdsFromResp_ids st result) as (_ & Hmem).
    destruct ((getDstIdsFromResp st result).1) as [|v ids]; [done|].
    destruct (proj1 (Hmem v)) as (e & He & _); [by left|].
    rewrite Hnone in He. by apply elem_of_nil in He. }
  unfold onStepOutResponse.
  split; intros ->.
  - assert (starts_ (set_starts (getDstIdsFromResp st result).1
                       (set_backTracker (getDstIdsFromResp st result).2 st))
            = []) as -> by (rewrite <- Hids; by destruct st).
    rewrite bool_decide_eq_true_2 by done. by eexists.
  - unfold maybeFinishExecution.
    destruct (hasDstTagProp (expCtx_ st)) eqn:Hdst.
    + left. destruct (isReversely st); cbn [negb andb orb];
        rewrite Hids; rewrite bool_decide_eq_true_2 by done; by eexists.
    + destruct (_ || _); [by right|].
      left. rewrite Hids. rewrite bool_decide_eq_true_2 by done. by eexists.
Qed.

End hop_loop.

(* ----------------------------------------------------------------- *)
(** ** GoExecutor: the shape of a terminal response *)

Lemma foreach_count_le {A B S} (f : S → nat) (g : A → list B)
    (body : A → S → Result S) l s s' :
  (∀ x s s', x ∈ l → body x s = Ok s' → (f s' ≤ f s + length (g x))%nat) →
  foreach body l s = Ok s' →
  (f s' ≤ f s + length (l ≫= g))%nat.
Proof.
  revert s. induction l as [|x xs IH]; intros s Hbody.
  - intros [= <-]. simpl. lia.
  - intros (s1 & H1 & H2)%bind_Ok_inv.
    change ((x :: xs) ≫= g) with (g x ++ (xs ≫= g)). rewrite length_app.
    apply Hbody in H1; [|by left].
    apply IH in H2; [lia|]. intros y t t' Hy. apply Hbody. by right.
Qed.

Lemma foreach_count_eq {A B S} (f : S → nat) (g : A → list B)
    (body : A → S → Result S) l s s' :
  (∀ x s s', x ∈ l → body x s = Ok s' → f s' = (f s + length (g x))%nat) →
  foreach body l s = Ok s' →
  f s' = (f s + length (l ≫= g))%nat.
Proof.
  revert s. induction l as [|x xs IH]; intros s Hbody.
  - intros [= <-]. simpl. lia.
  - intros (s1 & H1 & H2)%bind_Ok_inv.
    change ((x :: xs) ≫= g) with (g x ++ (xs ≫= g)). rewrite length_app.
    apply Hbody in H1; [|by left].
    apply IH in H2; [lia|]. intros y t t' Hy. apply Hbody. by right.
Qed.

Section callbacks.
Import GoExecutor.
Variables (env : Env) (st : Executor).
Context {S : Type}.
Variable cb : Callback S.

Lemma calculateExprTypes_length yields colTypes :
  calculateExprTypes env st yields = Ok colTypes →
  length colTypes = length yields.
Proof.
  revert colTypes. induction yields as [|col yields IH]; intros colTypes; simpl.
  - by intros [= <-].
  - intros (type & _ & (tys & Htys & [= <-])%bind_Ok_inv)%bind_Ok_inv.
    simpl. f_equal. by apply IH.
Qed.

Lemma evalYields_length yields getters record :
  evalYields yields getters = Ok record → length record = length yields.
Proof.
  revert record. induction yields as [|col yields IH]; intros record; simpl.
  - by intros [= <-].
  - intros (value & _ & (values & Hvalues & [= <-])%bind_Ok_inv)%bind_Ok_inv.
    simpl. f_equal. by apply IH.
Qed.

(** The run of the four nested loops of processFinalResult. *)
Lemma processFinalResult_run rpcResp s s' :
  processFinalResult env st rpcResp cb s = Ok s' →
  ∃ colTypes acc,
    calculateExprTypes env st (yields_ st) = Ok colTypes ∧ acc.2 = s' ∧
    foreach
      (λ resp acc,
         match get_vertices resp with
         | None => Ok acc
         | Some vertices =>
             foreach
               (λ vdata acc,
                  foreach
                    (λ edata acc,
                       foreach
                         (λ edge acc,
                            projectEdge env st cb colTypes
                              (mkGetters env st
                                 (default ∅ (get_vertex_schema resp))
                                 (default ∅ (get_edge_schema resp))
                                 (get_tag_data vdata) (get_vertex_id vdata)
                                 (edata_type edata)
                                 (RowReader_getRowReader (rowFormat env)
                                    (get_props edge)
                                  <$> default ∅ (get_edge_schema resp)
                                      !! edata_type edata)
                                 (get_dst edge))
                              acc)
                         (get_edges edata) acc)
                    (edge_data vdata) acc)
               vertices acc
         end)
      (responses rpcResp) (∅, s) = Ok acc.
Proof.
  unfold processFinalResult.
  intros (colTypes & Htypes & (acc & Hrun & [= <-])%bind_Ok_inv)%bind_Ok_inv.
  by exists colTypes, acc.
Qed.

(** One edge record either leaves what the callback captures alone or
    runs the callback once, on a record and on column types that are as
    long as the YIELD list. *)
Lemma projectEdge_cb colTypes getters uniqResult s acc' :
  projectEdge env st cb colTypes getters (uniqResult, s) = Ok acc' →
  acc'.2 = s ∨
  ∃ record, length record = length (yields_ st) ∧
            cb record colTypes s = Ok acc'.2.
Proof.
  intros [->|[_ Hemit]]%projectEdge_inv; [by left|].
  apply emitRecord_inv in Hemit as (record & Hrecord & [(_ & _ & ->)|Hcb]);
    [by left|].
  destruct Hcb as (s' & Hcb & Hacc). right. exists record.
  split; [by eapply evalYields_length|].
  destruct (distinct_ st); [by destruct Hacc as [_ ->]|by subst].
Qed.

(** What the callback keeps, processFinalResult keeps. *)
Lemma processFinalResult_cb_invariant (I : S → Prop) rpcResp s s' :
  (∀ colTypes record s s',
     length colTypes = length (yields_ st) →
     length record = length (yields_ st) →
     I s → cb record colTypes s = Ok s' → I s') →
  I s →
  processFinalResult env st rpcResp cb s = Ok s' → I s'.
Proof.
  intros Hcb Hs (colTypes & acc & Htypes & <- & Hrun)%processFinalResult_run.
  apply calculateExprTypes_length in Htypes.
  pose (J := λ acc : gset Z * S, I acc.2).
  change (J acc). eapply (foreach_invariant J); [| |exact Hrun]; [|exact Hs].
  intros resp acc1 acc1' _ H1. cbv beta.
  destruct (get_vertices resp) as [vertices|]; [|by intros [= <-]].
  intros Hr. eapply (foreach_invariant J); [|exact H1|exact Hr].
  clear acc1 acc1' H1 Hr. intros vdata acc2 acc2' _ H2 Hr.
  eapply (foreach_invariant J); [|exact H2|exact Hr].
  clear acc2 acc2' H2 Hr. intros edata acc3 acc3' _ H3 Hr.
  eapply (foreach_invariant J); [|exact H3|exact Hr].
  clear acc3 acc3' H3 Hr. intros edge [u s4] acc4' _ H4.
  unfold J in *. simpl in H4.
  intros [->|(record & Hlen & Hrec)]%projectEdge_cb; [done|].
  by eapply Hcb.
Qed.

(** A measure that the callback raises by at most one is raised by at
    most the number of edges of the response. *)
Lemma processFinalResult_count_le (f : S → nat) rpcResp s s' :
  (∀ colTypes record s s',
     cb record colTypes s = Ok s' → (f s' ≤ f s + 1)%nat) →
  processFinalResult env st rpcResp cb s = Ok s' →
  (f s' ≤ f s + length (response_edges rpcResp))%nat.
Proof.
  intros Hcb (colTypes & acc & _ & <- & Hrun)%processFinalResult_run.
  unfold response_edges. revert Hrun.
  change (f s) with ((λ acc : gset Z * S, f acc.2) (∅, s)).
  apply (foreach_count_le (λ acc : gset Z * S, f acc.2)
           (λ resp, default [] (get_vertices resp) ≫= λ vdata,
              edge_data vdata ≫= λ edata,
                get_edges edata ≫= λ edge, [(vdata, edata, edge)])).
  intros resp acc1 acc1' _. cbv beta.
  destruct (get_vertices resp) as [vertices|]; simpl;
    [|intros [= <-]; lia].
  apply (foreach_count_le (λ acc : gset Z * S, f acc.2)
           (λ vdata, edge_data vdata ≫= λ edata,
              get_edges edata ≫= λ edge, [(vdata, edata, edge)])).
  intros vdata acc2 acc2' _.
  apply (foreach_count_le (λ acc : gset Z * S, f acc.2)
           (λ edata, get_edges edata ≫= λ edge, [(vdata, edata, edge)])).
  intros edata acc3 acc3' _.
  apply (foreach_count_le (λ acc : gset Z * S, f acc.2)
           (λ edge, [(vdata, edata, edge)])).
  intros edge [u s4] acc4' _.
  intros [->|(record & _ & Hrec)]%projectEdge_cb; simpl; [lia|].
  by eapply Hcb.
Qed.

(** Without a filter and without DISTINCT every edge record reaches the
    callback. *)
Lemma processFinalResult_count_eq (f : S → nat) rpcResp s s' :
  filter_ (whereWrapper_ st) = None →
  distinct_ st = false →
  (∀ colTypes record s s',
     cb record colTypes s = Ok s' → f s' = (f s + 1)%nat) →
  processFinalResult env st rpcResp cb s = Ok s' →
  f s' = (f s + length (response_edges rpcResp))%nat.
Proof.
  intros Hfilter Hdistinct Hcb.
  intros (colTypes & acc & _ & <- & Hrun)%processFinalResult_run.
  unfold response_edges. revert Hrun.
  change (f s) with ((λ acc : gset Z * S, f acc.2) (∅, s)).
  apply (foreach_count_eq (λ acc : gset Z * S, f acc.2)
           (λ resp, default [] (get_vertices resp) ≫= λ vdata,
              edge_data vdata ≫= λ edata,
                get_edges edata ≫= λ edge, [(vdata, edata, edge)])).
  intros resp acc1 acc1' _. cbv beta.
  destruct (get_vertices resp) as [vertices|]; simpl;
    [|intros [= <-]; lia].
  apply (foreach_count_eq (λ acc : gset Z * S, f acc.2)
           (λ vdata, edge_data vdata ≫= λ edata,
              get_edges edata ≫= λ edge, [(vdata, edata, edge)])).
  intros vdata acc2 acc2' _.
  apply (foreach_count_eq (λ acc : gset Z * S, f acc.2)
           (λ edata, get_edges edata ≫= λ edge, [(vdata, edata, edge)])).
  intros edata acc3 acc3' _.
  apply (foreach_count_eq (λ acc : gset Z * S, f acc.2)
           (λ edge, [(vdata, edata, edge)])).
  intros edge [u s4] acc4' _.
  unfold projectEdge. rewrite Hfilter.
  intros (record & _ & [(Hd & _)|Hrec])%emitRecord_inv; [congruence|].
  destruct Hrec as (s5 & Hrec & Hacc). rewrite Hdistinct in Hacc. subst.
  simpl. by eapply Hcb.
Qed.

End callbacks.

Section response_shape.
Import GoExecutor.
Variables (env : Env) (st : Executor).

Lemma setColumns_length record colTypes row :
  setColumns env record colTypes = Ok row → length row = length colTypes.
Proof.
  revert record row. induction colTypes as [|ty tys IH];
    intros [|col cols] row; simpl; try done.
  - by intros [= <-].
  - by intros [= <-].
  - intros (cell & _ & (cells & Hcells & [= <-])%bind_Ok_inv)%bind_Ok_inv.
    simpl. f_equal. by eapply IH.
Qed.

Lemma toThriftResponse_cb_inv record colTypes rows rows' :
  toThriftResponse_cb env record colTypes rows = Ok rows' →
  ∃ row, rows' = rows ++ [{| columns := row |}] ∧
         length row = length colTypes.
Proof.
  unfold toThriftResponse_cb.
  intros (row & Hrow & [= <-])%bind_Ok_inv. exists row.
  split; [done|]. by eapply setColumns_length.
Qed.

Lemma toThriftResponse_Ok rpcResp rows :
  toThriftResponse env st rpcResp = Ok rows ↔
  processFinalResult env st rpcResp (toThriftResponse_cb env) [] = Ok rows.
Proof.
  unfold toThriftResponse.
  destruct (processFinalResult _ _ _ _ _); split; congruence.
Qed.

Lemma processFinalResult_rows_wide rpcResp rows row :
  processFinalResult env st rpcResp (toThriftResponse_cb env) [] = Ok rows →
  row ∈ rows →
  length (columns row) = length (yields_ st).
Proof.
  intros Hrun. revert row.
  revert Hrun.
  apply (processFinalResult_cb_invariant env st (toThriftResponse_cb env)
           (λ rows, ∀ row, row ∈ rows →
              length (columns row) = length (yields_ st)));
    [|by intros ? ?%elem_of_nil].
  intros colTypes record rows0 rows1 Htypes _ IH.
  intros (cells & -> & Hlen)%toThriftResponse_cb_inv.
  intros row [Hold| ->%list_elem_of_singleton]%elem_of_app; [by apply IH|].
  simpl. congruence.
Qed.

Lemma processFinalResult_rows_le rpcResp rows :
  processFinalResult env st rpcResp (toThriftResponse_cb env) [] = Ok rows →
  (length rows ≤ length (response_edges rpcResp))%nat.
Proof.
  intros Hrun.
  apply (processFinalResult_count_le env st (toThriftResponse_cb env) length)
    in Hrun; [done|].
  intros colTypes record rows0 rows1 (cells & -> & _)%toThriftResponse_cb_inv.
  rewrite length_app. simpl. lia.
Qed.

(** X12. Every row of a terminal response has one cell per yield column,
    that is, per column name. *)
Theorem toThriftResponse_row_width rpcResp rows row :
  toThriftResponse env st rpcResp = Ok rows →
  row ∈ rows →
  length (columns row) = length (getResultColumnNames st).
Proof.
  intros Hrun%toThriftResponse_Ok Hrow.
  unfold getResultColumnNames. rewrite length_map.
  by eapply processFinalResult_rows_wide.
Qed.

(** X13. A terminal response has at most one row per edge of the
    get_neighbors response it projects, and exactly one per edge when the
    query has neither a filter nor DISTINCT. *)
Theorem toThriftResponse_row_count rpcResp rows :
  toThriftResponse env st rpcResp = Ok rows →
  (length rows ≤ length (response_edges rpcResp))%nat ∧
  (filter_ (whereWrapper_ st) = None → distinct_ st = false →
   length rows = length (response_edges rpcResp)).
Proof.
  intros Hrun%toThriftResponse_Ok. split.
  - by apply processFinalResult_rows_le.
  - intros Hfilter Hdistinct.
    apply (processFinalResult_count_eq env st (toThriftResponse_cb env) length)
      in Hrun; [done..|].
    intros colTypes record rows0 rows1 (cells & -> & _)%toThriftResponse_cb_inv.
    rewrite length_app. simpl. lia.
Qed.

End response_shape.

(* ----------------------------------------------------------------- *)
(** ** VertexHolder: what a response leaves in the table *)

Section vertex_holder.
Variable rf : RowFormat.

(** The inner loop of [add]: the table of one vertex. *)
Lemma tag_table_lookup (vertexSchema : gmap TagID Schema)
    (tds : list TagData) (m : gmap TagID (Schema * string)) td schema :
  NoDup (td_tag_id <$> tds) →
  td ∈ tds →
  vertexSchema !! td_tag_id td = Some schema →
  fold_left
    (λ (m : gmap TagID (Schema * string)) td,
       match vertexSchema !! td_tag_id td with
       | Some schema => <[td_tag_id td := (schema, td_data td)]> m
       | None => m
       end)
    tds m !! td_tag_id td = Some (schema, td_data td).
Proof.
  revert m. induction tds as [|td' tds IH]; intros m Hnd Hin Hschema.
  - by apply elem_of_nil in Hin.
  - rewrite fmap_cons in Hnd. apply NoDup_cons in Hnd as [Hfresh Hnd].
    apply elem_of_cons in Hin as [<-|Hin]; simpl.
    + rewrite Hschema.
      assert (∀ m', m' !! td_tag_id td = Some (schema, td_data td) →
                fold_left
                  (λ (m : gmap TagID (Schema * string)) td,
                     match vertexSchema !! td_tag_id td with
                     | Some schema => <[td_tag_id td := (schema, td_data td)]> m
                     | None => m
                     end)
                  tds m' !! td_tag_id td = Some (schema, td_data td)) as Hkeep.
      { clear IH Hnd. induction tds as [|td2 tds IH2]; intros m' Hm'; [done|].
        simpl. rewrite fmap_cons in Hfresh.
        apply not_elem_of_cons in Hfresh as [Hne Hfresh].
        apply IH2; [done|].
        destruct (vertexSchema !! td_tag_id td2); [|done].
        by rewrite lookup_insert_ne. }
      apply Hkeep. by rewrite lookup_insert_eq.
    + by apply IH.
Qed.

(** The outer loop of [add], at an id that the response does not carry. *)
Lemma vertex_table_frame (mk : VertexData → gmap TagID (Schema * string))
    (vertices : list VertexData)
    (data : gmap VertexID (gmap TagID (Schema * string))) id :
  id ∉ get_vertex_id <$> vertices →
  fold_left (λ data vdata, <[get_vertex_id vdata := mk vdata]> data)
    vertices data !! id = data !! id.
Proof.
  revert data. induction vertices as [|vdata vertices IH]; intros data Hid;
    [done|].
  rewrite fmap_cons in Hid. apply not_elem_of_cons in Hid as [Hne Hid].
  simpl. rewrite IH; [|done]. by rewrite lookup_insert_ne.
Qed.

(** The outer loop of [add], at a vertex of the response. *)
Lemma vertex_table_lookup (mk : VertexData → gmap TagID (Schema * string))
    (vertices : list VertexData)
    (data : gmap VertexID (gmap TagID (Schema * string))) vdata :
  NoDup (get_vertex_id <$> vertices) →
  vdata ∈ vertices →
  fold_left (λ data vdata, <[get_vertex_id vdata := mk vdata]> data)
    vertices data !! get_vertex_id vdata = Some (mk vdata).
Proof.
  revert data. induction vertices as [|vdata' vertices IH]; intros data Hnd Hin.
  - by apply elem_of_nil in Hin.
  - rewrite fmap_cons in Hnd. apply NoDup_cons in Hnd as [Hfresh Hnd].
    apply elem_of_cons in Hin as [<-|Hin]; simpl.
    + rewrite vertex_table_frame; [|done]. by rewrite lookup_insert_eq.
    + by apply IH.
Qed.

(** X14. After [add], a property of a vertex that the response carried is
    read from the blob and the schema the response gave for that tag,
    whatever the holder held before. *)
Theorem VertexHolder_add_get (h : VertexHolder.t) (resp : QueryResponse)
    vertices vertexSchema vdata td schema prop :
  get_vertices resp = Some vertices →
  get_vertex_schema resp = Some vertexSchema →
  NoDup (get_vertex_id <$> vertices) →
  NoDup (td_tag_id <$> get_tag_data vdata) →
  vdata ∈ vertices →
  td ∈ get_tag_data vdata →
  vertexSchema !! td_tag_id td = Some schema →
  VertexHolder.get rf (VertexHolder.add h resp) (get_vertex_id vdata)
    (td_tag_id td) prop
  = match getPropByName (RowReader_getRowReader rf (td_data td) schema) prop with
    | Some v => Ok v
    | None => Err ("get prop(" +:+ prop +:+ ") failed")
    end.
Proof.
  intros Hvertices Hschemas Hids Htags Hvdata Htd Hschema.
  unfold VertexHolder.get, VertexHolder.add.
  rewrite Hvertices, Hschemas. cbn [VertexHolder.data_].
  rewrite (vertex_table_lookup
             (λ vdata,
                fold_left
                  (λ (m : gmap TagID (Schema * string)) td,
                     match vertexSchema !! td_tag_id td with
                     | Some schema => <[td_tag_id td := (schema, td_data td)]> m
                     | None => m
                     end)
                  (get_tag_data vdata) ∅)); [|done..].
  rewrite (tag_table_lookup _ _ _ _ schema); [|done..].
  cbn [fst snd]. by destruct (getPropByName _ _).
Qed.

(** X15. [add] touches only the vertices of the response: what the holder
    answers for any other vertex id that it already held is unchanged. *)
Theorem VertexHolder_add_frame (h : VertexHolder.t) (resp : QueryResponse)
    id tid prop iter iter2 :
  id ∉ get_vertex_id <$> default [] (get_vertices resp) →
  VertexHolder.data_ h !! id = Some iter →
  iter !! tid = Some iter2 →
  VertexHolder.get rf (VertexHolder.add h resp) id tid prop
  = VertexHolder.get rf h id tid prop.
Proof.
  intros Hid Hiter Hiter2. unfold VertexHolder.get, VertexHolder.add.
  destruct (get_vertices resp) as [vertices|]; [|done].
  destruct (get_vertex_schema resp) as [vertexSchema|]; [|done].
  cbn [VertexHolder.data_].
  rewrite (vertex_table_frame
             (λ vdata,
                fold_left
                  (λ (m : gmap TagID (Schema * string)) td,
                     match vertexSchema !! td_tag_id td with
                     | Some schema => <[td_tag_id td := (schema, td_data td)]> m
                     | None => m
                     end)
                  (get_tag_data vdata) ∅)); [|done].
  by rewrite Hiter, Hiter2.
Qed.

(** X16. A tag that no held vertex carries is an unknown vertex: [get]
    answers the error for every vertex id and property, and in particular
    on the empty holder. *)
Theorem VertexHolder_get_unknown (h : VertexHolder.t) id tid prop :
  (∀ id' m, VertexHolder.data_ h !! id' = Some m → m !! tid = None) →
  VertexHolder.get rf h id tid prop = Err "Unknown Vertex".
Proof.
  intros Hnone.
  assert (VertexHolder.getDefaultProp rf h tid prop = Err "Unknown Vertex")
    as Hdefault.
  { unfold VertexHolder.getDefaultProp.
    destruct (omap _ _) as [|it2 rest] eqn:Homap; [done|].
    assert (it2 ∈ omap (λ it : VertexID * gmap TagID (Schema * string),
                          it.2 !! tid)
                       (map_to_list (VertexHolder.data_ h))) as Hit2
      by (rewrite Homap; left).
    apply list_elem_of_omap in Hit2 as ([id' m] & Hin & Hlook).
    apply elem_of_map_to_list in Hin. apply Hnone in Hin. simpl in Hlook.
    congruence. }
  unfold VertexHolder.get.
  destruct (VertexHolder.data_ h !! id) as [iter|] eqn:Hiter; [|done].
  by rewrite (Hnone _ _ Hiter).
Qed.

End vertex_holder.

(* ----------------------------------------------------------------- *)
(** ** GoExecutor: what the final response leads to *)

Lemma response_edges_intro rpcResp resp vertices vdata edata edge :
  resp ∈ responses rpcResp →
  get_vertices resp = Some vertices →
  vdata ∈ vertices →
  edata ∈ edge_data vdata →
  edge ∈ get_edges edata →
  (vdata, edata, edge) ∈ response_edges rpcResp.
Proof.
  intros Hresp Hvertices Hvdata Hedata Hedge. unfold response_edges.
  apply list_elem_of_bind. exists resp. split; [|done].
  rewrite Hvertices. simpl.
  apply list_elem_of_bind. exists vdata. split; [|done].
  apply list_elem_of_bind. exists edata. split; [|done].
  apply list_elem_of_bind. exists edge. split; [by left|done].
Qed.

Section final_response.
Import GoExecutor GoExecutorFlow.
Variable env : Env.

Lemma expCtx_set_backTracker v st :
  expCtx_ (set_backTracker v st) = expCtx_ st.
Proof. by destruct st. Qed.

Lemma isReversely_set_backTracker v st :
  isReversely (set_backTracker v st) = isReversely st.
Proof. by destruct st. Qed.

(** X17. What maybeFinishExecution does with the final response: it
    never asks for neighbours again; it projects at once only when no
    destination-tag property is referenced, and then with the state and
    the response untouched; it asks for vertex properties only when one
    is referenced, for the destinations of the response, each once and at
    least one; it asks for edge properties only in a reverse traversal,
    and then an edge property is referenced or the query is over all
    edges without a YIELD; and it ends with the output for empty inputs
    only when the response has no edge. *)
Theorem maybeFinishExecution_routing st rpcResp :
  match maybeFinishExecution env st rpcResp with
  | A_getNeighbors _ _ => False
  | A_finishExecution st' r =>
      st' = st ∧ r = rpcResp ∧ hasDstTagProp (expCtx_ st) = false
  | A_getVertexProps _ req r =>
      r = rpcResp ∧ hasDstTagProp (expCtx_ st) = true ∧
      (isReversely st = true → aliasProps (expCtx_ st) = []) ∧
      vreq_space req = space env ∧
      vreq_vertices req ≠ [] ∧ NoDup (vreq_vertices req) ∧
      (∀ v, v ∈ vreq_vertices req ↔
            ∃ e, e ∈ response_edges rpcResp ∧ get_dst e.2 = v) ∧
      getDstProps env st = Ok (vreq_returnCols req)
  | A_getEdgeProps _ _ dstids r =>
      r = rpcResp ∧ isReversely st = true ∧ dstids ≠ [] ∧
      (aliasProps (expCtx_ st) ≠ [] ∨
       hasDstTagProp (expCtx_ st) = false ∧
       isOverAllEdge (expCtx_ st) = true ∧ yields_ st = [])
  | A_onEmptyInputs _ => response_edges rpcResp = []
  | A_doError _ | A_fatal _ => True
  end.
Proof.
  destruct (getDstIdsFromResp_ids st rpcResp) as [Hnodup Hmem].
  unfold maybeFinishExecution, hasDstTagProp, isOverAllEdge.
  remember (getDstIdsFromResp st rpcResp) as ret eqn:Hret. clear Hret.
  assert (ret.1 = [] → response_edges rpcResp = []) as Hempty.
  { intros Hnil. destruct (response_edges rpcResp) as [|e es]; [done|].
    assert (get_dst e.2 ∈ ret.1) as Hin
      by (apply Hmem; exists e; split; [by left|done]).
    rewrite Hnil in Hin. by apply elem_of_nil in Hin. }
  rewrite !isReversely_set_backTracker, !expCtx_set_backTracker.
  unfold fetchVertexProps, getDstProps.
  rewrite !expCtx_set_backTracker.
  destruct (bool_decide_reflect (dstTagProps (expCtx_ st) = [])) as [Hdst|Hdst];
    destruct (isReversely st) eqn:Hrev;
    destruct (bool_decide_reflect (aliasProps (expCtx_ st) = [])) as [Hal|Hal];
    destruct (overAll_ (expCtx_ st)) eqn:Hall;
    destruct (bool_decide_reflect (yields_ st = [])) as [Hy|Hy];
    cbn [negb andb orb]; try done;
    (destruct (bool_decide_reflect (ret.1 = [])) as [Hnil|Hne];
       [by apply Hempty|]);
    try (destruct (getDstProps_loop env _ _); [|done..];
         cbn [vreq_space vreq_vertices vreq_returnCols];
         by repeat (split; [done|]));
    (destruct (edgeKeys_of_response env rpcResp); [|done..]);
    (destruct (edgeProps_of_aliasProps _); [|done..]);
    repeat (split; [done|]); auto.
Qed.

(** The loops that file one EdgeKey per edge, over one vertex. *)
Lemma edgeKeys_of_vertex_inv schemas vdata (P : EdgeKey → Prop)
    (m m' : gmap EdgeType (list EdgeKey)) :
  (∀ edata edge rank, edata ∈ edge_data vdata → edge ∈ get_edges edata →
     P {| ek_src := get_dst edge; ek_dst := get_vertex_id vdata;
          ek_ranking := rank; ek_edge_type := Z.abs (edata_type edata) |}) →
  (∀ type keys, m !! type = Some keys →
     keys ≠ [] ∧ ∀ key, key ∈ keys → ek_edge_type key = type ∧ P key) →
  edgeKeys_of_vertex env schemas vdata m = Ok m' →
  (∀ type keys, m' !! type = Some keys →
     keys ≠ [] ∧ ∀ key, key ∈ keys → ek_edge_type key = type ∧ P key).
Proof.
  intros HP Hm Hrun.
  pose (I := λ m : gmap EdgeType (list EdgeKey),
          ∀ type keys, m !! type = Some keys →
            keys ≠ [] ∧ ∀ key, key ∈ keys → ek_edge_type key = type ∧ P key).
  change (I m'). eapply (foreach_invariant I); [|exact Hm|exact Hrun].
  clear m m' Hm Hrun. intros edata m m' Hedata Hm.
  intros (currEdgeSchema & _ & Hrun)%bind_Ok_inv.
  eapply (foreach_invariant I); [|exact Hm|exact Hrun].
  clear m m' Hm Hrun. intros edge m m' Hedge Hm. cbv zeta.
  destruct currEdgeSchema as [schema|]; [|by intros [= <-]].
  destruct (getInt _ _) as [rc rank]. destruct rc; [|done].
  intros [= <-] type keys.
  destruct (decide (type = Z.abs (edata_type edata))) as [->|Hne].
  - rewrite lookup_insert_eq. intros [= <-]. split; [by destruct (default _ _)|].
    intros key [Hold| ->%list_elem_of_singleton]%elem_of_app.
    + destruct (m !! Z.abs (edata_type edata)) as [keys|] eqn:Hkeys;
        [|by apply elem_of_nil in Hold].
      by apply (Hm _ _ Hkeys).
    + split; [done|]. by apply HP.
  - rewrite lookup_insert_ne by done. apply Hm.
Qed.

Lemma edgeKeys_of_response_inv rpcResp m type keys :
  edgeKeys_of_response env rpcResp = Ok m →
  m !! type = Some keys →
  keys ≠ [] ∧
  ∀ key, key ∈ keys →
    ek_edge_type key = type ∧
    ∃ e, e ∈ response_edges rpcResp ∧
         ek_src key = get_dst e.2 ∧
         ek_dst key = get_vertex_id e.1.1 ∧
         ek_edge_type key = Z.abs (edata_type e.1.2).
Proof.
  intros Hrun. revert type keys.
  pose (P := λ key : EdgeKey,
          ∃ e, e ∈ response_edges rpcResp ∧
               ek_src key = get_dst e.2 ∧
               ek_dst key = get_vertex_id e.1.1 ∧
               ek_edge_type key = Z.abs (edata_type e.1.2)).
  pose (I := λ m : gmap EdgeType (list EdgeKey),
          ∀ type keys, m !! type = Some keys →
            keys ≠ [] ∧ ∀ key, key ∈ keys → ek_edge_type key = type ∧ P key).
  change (I m). eapply (foreach_invariant I); [| |exact Hrun];
    [|by intros ? ? ?%lookup_empty_Some].
  clear m Hrun. intros resp m m' Hresp Hm. cbv beta.
  destruct (get_vertices resp) as [vertices|] eqn:Hvertices;
    [|by intros [= <-]].
  intros Hrun. eapply (foreach_invariant I); [|exact Hm|exact Hrun].
  clear m m' Hm Hrun. intros vdata m m' Hvdata Hm Hrun.
  unfold I in *.
  eapply (edgeKeys_of_vertex_inv _ vdata P); [|exact Hm|exact Hrun].
  intros edata edge rank Hedata Hedge. exists (vdata, edata, edge).
  split; [|done]. by eapply response_edges_intro.
Qed.

Lemma edgeProps_of_aliasProps_inv ctx m type props p :
  edgeProps_of_aliasProps ctx = Ok m →
  m !! type = Some props →
  p ∈ props →
  pd_owner p = EDGE ∧ pd_id p = EntryId_edge_type type ∧
  ∃ alias e, (alias, pd_name p) ∈ aliasProps ctx ∧
             getEdgeType ctx alias = Some e ∧ type = Z.abs e.
Proof.
  intros Hrun. revert type props p.
  pose (I := λ m : gmap EdgeType (list PropDef),
          ∀ type props p, m !! type = Some props → p ∈ props →
            pd_owner p = EDGE ∧ pd_id p = EntryId_edge_type type ∧
            ∃ alias e, (alias, pd_name p) ∈ aliasProps ctx ∧
                       getEdgeType ctx alias = Some e ∧ type = Z.abs e).
  change (I m). eapply (foreach_invariant I); [| |exact Hrun];
    [|by intros ? ? ? ?%lookup_empty_Some].
  clear m Hrun. intros [alias name] m m' Hprop Hm. cbn [fst snd].
  destruct (getEdgeType ctx alias) as [e|] eqn:He; [|done].
  intros [= <-] type props p.
  destruct (decide (type = Z.abs e)) as [->|Hne].
  - rewrite lookup_insert_eq.
    intros [= <-] [Hold| ->%list_elem_of_singleton]%elem_of_app.
    + destruct (m !! Z.abs e) as [props|] eqn:Hprops;
        [|by apply elem_of_nil in Hold].
      by apply (Hm _ _ _ Hprops).
    + split; [done|]. split; [done|]. by exists alias, e.
  - rewrite lookup_insert_ne by done. apply Hm.
Qed.

(** X18. The getEdgeProps requests of a reverse traversal: there is one
    request per edge type, for the space of the session; its keys are
    not empty, carry that type, which is the absolute value of the type
    of an edge of the final response, and run from that edge's
    destination to the vertex the response listed it under; and every
    property it asks for is an edge property of that type that the query
    references through an alias of an edge of that type. *)
Theorem maybeFinishExecution_edge_requests st rpcResp st' reqs dstids r :
  maybeFinishExecution env st rpcResp = A_getEdgeProps st' reqs dstids r →
  (∀ req, req ∈ reqs →
     ereq_space req = space env ∧
     ereq_edges req ≠ [] ∧
     ∃ type, 0 ≤ type ∧
       (∀ key, key ∈ ereq_edges req →
          ek_edge_type key = type ∧
          ∃ e, e ∈ response_edges rpcResp ∧
               ek_src key = get_dst e.2 ∧
               ek_dst key = get_vertex_id e.1.1 ∧
               type = Z.abs (edata_type e.1.2)) ∧
       (∀ p, p ∈ ereq_returnCols req →
          pd_owner p = EDGE ∧ pd_id p = EntryId_edge_type type ∧
          ∃ alias e, (alias, pd_name p) ∈ aliasProps (expCtx_ st) ∧
                     getEdgeType (expCtx_ st) alias = Some e ∧
                     type = Z.abs e)) ∧
  (∀ i j req1 req2 key1 key2,
     reqs !! i = Some req1 → reqs !! j = Some req2 →
     key1 ∈ ereq_edges req1 → key2 ∈ ereq_edges req2 →
     ek_edge_type key1 = ek_edge_type key2 → i = j).
Proof.
  unfold maybeFinishExecution.
  rewrite !isReversely_set_backTracker, !expCtx_set_backTracker.
  destruct (_ || _); [done|].
  destruct (bool_decide _); [done|].
  destruct (_ || _).
  { unfold fetchVertexProps. by destruct (getDstProps _ _). }
  destruct (edgeKeys_of_response env rpcResp) as [keysMap| |] eqn:Hkeys;
    [|done..].
  destruct (edgeProps_of_aliasProps _) as [propsMap| |] eqn:Hprops; [|done..].
  intros [= _ <- _ _]. split.
  - intros req ([type keys] & -> & Hin)%list_elem_of_fmap.
    apply elem_of_map_to_list in Hin.
    destruct (edgeKeys_of_response_inv _ _ _ _ Hkeys Hin) as [Hne Hall].
    cbn [ereq_space ereq_edges ereq_returnCols fst snd].
    split; [done|]. split; [done|]. exists type. split; [|split].
    + destruct keys as [|key keys]; [done|].
      destruct (Hall key) as (<- & e & _ & _ & _ & ->); [by left|]. lia.
    + intros key Hkey.
      destruct (Hall key Hkey) as (Hty & e & He & Hsrc & Hdst & Habs).
      split; [done|]. exists e. by rewrite <- Hty.
    + intros p Hp.
      destruct (propsMap !! type) as [props|] eqn:Hlook;
        [|by apply elem_of_nil in Hp].
      by eapply edgeProps_of_aliasProps_inv.
  - intros i j req1 req2 key1 key2.
    rewrite !list_lookup_fmap.
    destruct (map_to_list keysMap !! i) as [[type1 keys1]|] eqn:Hi; [|done].
    destruct (map_to_list keysMap !! j) as [[type2 keys2]|] eqn:Hj; [|done].
    intros [= <-] [= <-]. cbn [ereq_edges snd]. intros Hk1 Hk2 Heq.
    assert (keysMap !! type1 = Some keys1) as H1
      by (apply elem_of_map_to_list; by eapply list_elem_of_lookup_2).
    assert (keysMap !! type2 = Some keys2) as H2
      by (apply elem_of_map_to_list; by eapply list_elem_of_lookup_2).
    destruct (edgeKeys_of_response_inv _ _ _ _ Hkeys H1) as [_ Hall1].
    destruct (edgeKeys_of_response_inv _ _ _ _ Hkeys H2) as [_ Hall2].
    destruct (Hall1 key1 Hk1) as [Ht1 _]. destruct (Hall2 key2 Hk2) as [Ht2 _].
    assert (type1 = type2) as Htype by congruence.
    pose proof (NoDup_fst_map_to_list keysMap) as Hnd.
    eapply NoDup_lookup; [exact Hnd| |];
      rewrite list_lookup_fmap; [by rewrite Hi|by rewrite Hj, Htype].
Qed.

End final_response.

(* ----------------------------------------------------------------- *)
(** ** EdgeHolder: what a response adds to the table *)

Section edge_holder.
Variables (rf : RowFormat) (rsf : RowSetFormat).

Lemma emplace_lookup `{Countable K} {V} (k k' : K) (v : V) (m : gmap K V) :
  EdgeHolder.emplace k v m !! k' =
  match m !! k' with
  | Some v' => Some v'
  | None => if decide (k = k') then Some v else None
  end.
Proof.
  unfold EdgeHolder.emplace. destruct (m !! k) as [v0|] eqn:Hk.
  - destruct (m !! k') eqn:Hk'; [done|].
    destruct (decide (k = k')) as [->|]; [congruence|done].
  - destruct (decide (k = k')) as [<-|Hne].
    + by rewrite lookup_insert_eq, Hk.
    + rewrite lookup_insert_ne by done. by destruct (m !! k').
Qed.

(** One row either leaves the table alone or emplaces one edge, under
    the schema of the response, together with the schema for its type. *)
Lemma add_row_inv eschema iter h h' :
  EdgeHolder.add_row rsf eschema iter h = Ok h' →
  h' = h ∨
  ∃ src dst type blob,
    Collector_getProp rsf eschema _SRC iter = Ok (VAR_INT64 src) ∧
    Collector_getProp rsf eschema _DST iter = Ok (VAR_INT64 dst) ∧
    Collector_getProp rsf eschema _TYPE iter = Ok (VAR_INT64 type) ∧
    EdgeHolder.edges_ h' =
      EdgeHolder.emplace (src, dst, to_EdgeType type) (eschema, blob)
        (EdgeHolder.edges_ h) ∧
    EdgeHolder.schemas_ h' =
      EdgeHolder.emplace (to_EdgeType type) eschema (EdgeHolder.schemas_ h).
Proof.
  unfold EdgeHolder.add_row.
  destruct (Collector_getProp rsf eschema _SRC iter) as [src| |];
    try (intros [= <-]; by left).
  destruct (Collector_getProp rsf eschema _DST iter) as [dst| |];
    try (intros [= <-]; by left).
  destruct (Collector_getProp rsf eschema _TYPE iter) as [type| |];
    try (intros [= <-]; by left).
  destruct src as [src| | |]; try done.
  destruct dst as [dst| | |]; try done.
  destruct type as [type| | |]; try done.
  intros (values & _ & [= <-])%bind_Ok_inv. right.
  by exists src, dst, type, (RowWriter_collect rsf eschema values).
Qed.

Lemma add_inv (I : EdgeHolder.t → Prop) h resp h' :
  (∀ eschema data iter h h',
     get_schema resp = Some eschema → get_data resp = Some data →
     data ≠ "" →
     iter ∈ RowSetReader_rows rsf eschema data →
     I h → EdgeHolder.add_row rsf eschema iter h = Ok h' → I h') →
  I h → EdgeHolder.add rsf h resp = Ok h' → I h'.
Proof.
  intros Hrow Hh. unfold EdgeHolder.add.
  destruct (get_schema resp) as [eschema|] eqn:Hs; [|by intros [= <-]].
  destruct (get_data resp) as [data|] eqn:Hd; [|by intros [= <-]].
  destruct (bool_decide_reflect (data = "")) as [|Hne]; [by intros [= <-]|].
  intros Hrun. eapply (foreach_invariant I); [|exact Hh|exact Hrun].
  intros iter h1 h2 Hiter. by apply (Hrow eschema data).
Qed.

(** X19. [add] never replaces what the holder already has: an edge that
    was held is still held with the same schema and blob, so [get] answers
    for it as before, and a type that had a schema keeps it. *)
Theorem EdgeHolder_add_keeps h resp h' :
  EdgeHolder.add rsf h resp = Ok h' →
  (∀ key v, EdgeHolder.edges_ h !! key = Some v →
            EdgeHolder.edges_ h' !! key = Some v) ∧
  (∀ type schema, EdgeHolder.schemas_ h !! type = Some schema →
                  EdgeHolder.schemas_ h' !! type = Some schema) ∧
  (∀ src dst type prop, is_Some (EdgeHolder.edges_ h !! (src, dst, type)) →
     EdgeHolder.get rf h' src dst type prop
     = EdgeHolder.get rf h src dst type prop) ∧
  (∀ type prop, is_Some (EdgeHolder.schemas_ h !! type) →
     EdgeHolder.getDefaultProp rf h' type prop
     = EdgeHolder.getDefaultProp rf h type prop).
Proof.
  intros Hadd.
  assert ((∀ key v, EdgeHolder.edges_ h !! key = Some v →
                    EdgeHolder.edges_ h' !! key = Some v) ∧
          (∀ type schema, EdgeHolder.schemas_ h !! type = Some schema →
                          EdgeHolder.schemas_ h' !! type = Some schema))
    as [Hedges Hschemas].
  { revert Hadd.
    apply (add_inv
             (λ h', (∀ key v, EdgeHolder.edges_ h !! key = Some v →
                              EdgeHolder.edges_ h' !! key = Some v) ∧
                    (∀ type schema,
                       EdgeHolder.schemas_ h !! type = Some schema →
                       EdgeHolder.schemas_ h' !! type = Some schema)));
      [|done].
    intros eschema data iter h1 h2 _ _ _ _ [He Hs].
    intros [->|(src & dst & type & blob & _ & _ & _ & Hedges & Hschemas)]
      %add_row_inv; [done|].
    rewrite Hedges, Hschemas. split.
    - intros key v Hkey. rewrite emplace_lookup. by rewrite (He _ _ Hkey).
    - intros ty schema Hty. rewrite emplace_lookup. by rewrite (Hs _ _ Hty). }
  split; [done|]. split; [done|]. split.
  - intros src dst type prop [v Hv]. unfold EdgeHolder.get.
    by rewrite Hv, (Hedges _ _ Hv).
  - intros type prop [schema Hschema]. unfold EdgeHolder.getDefaultProp.
    by rewrite Hschema, (Hschemas _ _ Hschema).
Qed.

(** X20. Whatever [add] puts into the holder comes from a row of the
    response: a new edge is keyed by the _src, _dst and _type of a row,
    the type narrowed to an EdgeType, and stored under the schema of the
    response. And every held edge has a schema for its type, if that was
    so before: then [getDefaultProp] for the type of a held edge never
    takes the branch of the missing reverse edge. *)
Theorem EdgeHolder_add_adds h resp h' :
  EdgeHolder.add rsf h resp = Ok h' →
  (∀ src dst type v,
     EdgeHolder.edges_ h' !! (src, dst, type) = Some v →
     EdgeHolder.edges_ h !! (src, dst, type) = Some v ∨
     ∃ eschema data iter type64,
       get_schema resp = Some eschema ∧ get_data resp = Some data ∧
       data ≠ "" ∧
       iter ∈ RowSetReader_rows rsf eschema data ∧
       Collector_getProp rsf eschema _SRC iter = Ok (VAR_INT64 src) ∧
       Collector_getProp rsf eschema _DST iter = Ok (VAR_INT64 dst) ∧
       Collector_getProp rsf eschema _TYPE iter = Ok (VAR_INT64 type64) ∧
       type = to_EdgeType type64 ∧ v.1 = eschema) ∧
  ((∀ src dst type, is_Some (EdgeHolder.edges_ h !! (src, dst, type)) →
                    is_Some (EdgeHolder.schemas_ h !! type)) →
   ∀ src dst type prop,
     is_Some (EdgeHolder.edges_ h' !! (src, dst, type)) →
     ∃ schema,
       EdgeHolder.schemas_ h' !! type = Some schema ∧
       EdgeHolder.getDefaultProp rf h' type prop
       = RowReader_getDefaultProp rf schema prop).
Proof.
  intros Hadd. split.
  - revert Hadd.
    apply (add_inv
             (λ h', ∀ src dst type v,
                EdgeHolder.edges_ h' !! (src, dst, type) = Some v →
                EdgeHolder.edges_ h !! (src, dst, type) = Some v ∨
                ∃ eschema data iter type64,
                  get_schema resp = Some eschema ∧ get_data resp = Some data ∧
                  data ≠ "" ∧
                  iter ∈ RowSetReader_rows rsf eschema data ∧
                  Collector_getProp rsf eschema _SRC iter = Ok (VAR_INT64 src) ∧
                  Collector_getProp rsf eschema _DST iter = Ok (VAR_INT64 dst) ∧
                  Collector_getProp rsf eschema _TYPE iter
                    = Ok (VAR_INT64 type64) ∧
                  type = to_EdgeType type64 ∧ v.1 = eschema));
      [|by left].
    intros eschema data iter h1 h2 Hs Hd Hne Hiter IH.
    intros [->|(src0 & dst0 & type0 & blob & Hsrc & Hdst & Htype & Hedges & _)]
      %add_row_inv; [done|].
    intros src dst type v. rewrite Hedges, emplace_lookup.
    destruct (EdgeHolder.edges_ h1 !! (src, dst, type)) as [v1|] eqn:Hold.
    { intros [= <-]. by apply IH. }
    destruct (decide _) as [[= <- <- <-]|]; [|done].
    intros [= <-]. right. exists eschema, data, iter, type0.
    by repeat (split; [done|]).
  - intros Hcover.
    assert (∀ src dst type,
              is_Some (EdgeHolder.edges_ h' !! (src, dst, type)) →
              is_Some (EdgeHolder.schemas_ h' !! type)) as Hcover'.
    { revert Hadd.
      apply (add_inv
               (λ h', ∀ src dst type,
                  is_Some (EdgeHolder.edges_ h' !! (src, dst, type)) →
                  is_Some (EdgeHolder.schemas_ h' !! type))); [|done].
      intros eschema data iter h1 h2 _ _ _ _ IH.
      intros [->|(src0 & dst0 & type0 & blob & _ & _ & _ & Hedges & Hschemas)]
        %add_row_inv; [done|].
      intros src dst type. rewrite Hedges, Hschemas, !emplace_lookup.
      destruct (EdgeHolder.edges_ h1 !! (src, dst, type)) as [v1|] eqn:Hold.
      { intros _. destruct (IH src dst type) as [schema ->]; by eauto. }
      destruct (decide _) as [[= <- <- <-]|]; [|by intros ?%is_Some_None].
      intros _. destruct (EdgeHolder.schemas_ h1 !! to_EdgeType type0);
        [by eauto|].
      rewrite decide_True by done. by eauto. }
    intros src dst type prop Hheld.
    destruct (Hcover' _ _ _ Hheld) as [schema Hschema].
    exists schema. split; [done|].
    unfold EdgeHolder.getDefaultProp. by rewrite Hschema.
Qed.

End edge_holder.

(* ----------------------------------------------------------------- *)
(** ** GoExecutor: after the final response *)

Section final_phase.
Import GoExecutor GoExecutorFlow.
Variables (env : Env) (rsf : RowSetFormat).

Lemma expCtx_set_edgeHolder v st :
  expCtx_ (set_edgeHolder v st) = expCtx_ st.
Proof. by destruct st. Qed.

Lemma fetchVertexProps_captures st ids rpcResp :
  match fetchVertexProps env st ids rpcResp with
  | A_getVertexProps _ _ r => r = rpcResp
  | A_doError _ | A_fatal _ => True
  | _ => False
  end.
Proof. unfold fetchVertexProps. by destruct (getDstProps env st). Qed.

Lemma maybeFinishExecution_captures st rpcResp :
  match maybeFinishExecution env st rpcResp with
  | A_getNeighbors _ _ => False
  | A_getEdgeProps _ _ _ r | A_getVertexProps _ _ r | A_finishExecution _ r =>
      r = rpcResp
  | _ => True
  end.
Proof.
  unfold maybeFinishExecution.
  destruct (_ || _); [done|]. destruct (bool_decide _); [done|].
  destruct (_ || _).
  - match goal with
    | |- context [fetchVertexProps env ?st ?ids ?r] =>
        pose proof (fetchVertexProps_captures st ids r) as H;
        by destruct (fetchVertexProps env st ids r)
    end.
  - destruct (edgeKeys_of_response env rpcResp); [|done..].
    by destruct (edgeProps_of_aliasProps _).
Qed.

(** The continuation of getVertexProps ends the execution. *)
Lemma on_getVertexProps_cases st stepOutResp result :
  match on_getVertexProps env st stepOutResp result with
  | A_finishExecution _ r => r = stepOutResp ∧ completeness result ≠ 0
  | A_doError _ => completeness result = 0
  | _ => False
  end.
Proof.
  unfold on_getVertexProps, fetchVertexProps_cb.
  by destruct (bool_decide_reflect (completeness result = 0)).
Qed.

(** The continuation of getEdgeProps asks at most for vertex
    properties. *)
Lemma on_getEdgeProps_cases st dstids stepResp result :
  match on_getEdgeProps env rsf st dstids stepResp result with
  | A_getVertexProps _ req r =>
      r = stepResp ∧ vreq_vertices req = dstids ∧
      hasDstTagProp (expCtx_ st) = true
  | A_finishExecution _ r =>
      r = stepResp ∧ hasDstTagProp (expCtx_ st) = false
  | A_doError _ | A_fatal _ => True
  | _ => False
  end.
Proof.
  unfold on_getEdgeProps. destruct (foreach _ _ _) as [holder| |]; [|done..].
  cbv zeta. rewrite expCtx_set_edgeHolder.
  destruct (hasDstTagProp (expCtx_ st)); [|done].
  unfold fetchVertexProps. by destruct (getDstProps env _).
Qed.

(** X21. After the final get_neighbors response the executor goes through
    at most two further round trips to the storage layer: the fan-out of
    getEdgeProps requests (one request per edge type, all answered to
    one continuation) first, and one getVertexProps request after that;
    it never asks for neighbours again. Whatever the replies are, no
    edge-property fan-out is outstanding after one continuation has run,
    and nothing at all after two. And what is projected in the end is
    that final get_neighbors response. *)
Theorem final_phase_is_two_round_trips st rpcResp replies :
  match fold_left (answer env rsf) replies
          (maybeFinishExecution env st rpcResp) with
  | A_getNeighbors _ _ => False
  | A_getEdgeProps _ _ _ r => r = rpcResp ∧ replies = []
  | A_getVertexProps _ _ r => r = rpcResp ∧ (length replies ≤ 1)%nat
  | A_finishExecution _ r => r = rpcResp
  | _ => True
  end.
Proof.
  induction replies as [|reply replies IH] using rev_ind.
  - simpl. pose proof (maybeFinishExecution_captures st rpcResp) as H.
    destruct (maybeFinishExecution env st rpcResp); simpl; try done;
      (split; [done|]); first [lia|done].
  - rewrite fold_left_app, length_app. simpl.
    destruct (fold_left _ replies _) as [| | |st1 req|st1 req r|st1 reqs ids r|];
      simpl; try done.
    + destruct IH as [-> Hlen].
      pose proof (on_getVertexProps_cases st1 rpcResp (to_getVertexProps reply))
        as H.
      destruct (on_getVertexProps env st1 rpcResp _); try done. by destruct H.
    + destruct IH as [-> ->].
      pose proof (on_getEdgeProps_cases st1 ids rpcResp (to_getEdgeProps reply))
        as H.
      destruct (on_getEdgeProps env rsf st1 ids rpcResp _); try done.
      * destruct H as (-> & _). split; [done|]. simpl. lia.
      * by destruct H.
Qed.

End final_phase.

(* ----------------------------------------------------------------- *)
(** ** GoExecutor: the end of the execution *)

Section finish.
Import GoExecutor GoExecutorFlow GoExecutorFinish.
Variables (env : Env) (out : Output).

Lemma getEdgeNames_loop_length edgeTypes names names' :
  getEdgeNames_loop env out edgeTypes names = Ok names' →
  length names' = (length names + length edgeTypes)%nat.
Proof.
  revert names. induction edgeTypes as [|edgeType rest IH]; intros names; simpl.
  - intros [= <-]. lia.
  - destruct (toEdgeName out (space env) (Z.abs edgeType)); [|done..].
    intros ->%IH. rewrite length_app. simpl. lia.
Qed.

Lemma yields_set_yields v st : yields_ (set_yields v st) = v.
Proof. by destruct st. Qed.

(** The state that finishExecution projects from, when it gets that far:
    the state it was given, or that state with the YIELD list made up
    from the edge names. *)
Lemma finishExecution_state onResult_ st rpcResp :
  (∃ status, finishExecution env out onResult_ st rpcResp = F_doError status ∧
     status = "get edge name failed" ∧ isOverAllEdge (expCtx_ st) = true ∧
     yields_ st = [] ∧ edgeTypes_ st = []) ∨
  (∃ what, finishExecution env out onResult_ st rpcResp = F_fatal what) ∨
  ∃ st',
    (isOverAllEdge (expCtx_ st) && bool_decide (yields_ st = []) = false ∧
     st' = st ∨
     isOverAllEdge (expCtx_ st) = true ∧ yields_ st = [] ∧
     ∃ edgeNames,
       getEdgeNames env out st = Ok edgeNames ∧
       length edgeNames = length (edgeTypes_ st) ∧ edgeNames ≠ [] ∧
       st' = set_yields (EdgeDstIdColumn out <$> edgeNames) st) ∧
    finishExecution env out onResult_ st rpcResp =
      if onResult_ then
        match setupInterimResult env out st' rpcResp with
        | Ok outputs => F_onResult st' outputs
        | Err status => F_doError status
        | Fatal what => F_fatal what
        end
      else
        match toThriftResponse env st' rpcResp with
        | Ok ret =>
            F_doFinish st'
              {| column_names := Some (getResultColumnNames st');
                 rows := if bool_decide (ret = []) then None else Some ret |}
        | Err _ =>
            match processFinalResult env st' rpcResp
                    (toThriftResponse_cb env) [] with
            | Err status => F_doError status
            | _ => F_fatal "unreachable"
            end
        | Fatal what => F_fatal what
        end.
Proof.
  unfold finishExecution.
  destruct (isOverAllEdge (expCtx_ st)) eqn:Hall; simpl;
    [|right; right; exists st; split; [by left|done]].
  destruct (bool_decide_reflect (yields_ st = [])) as [Hy|Hy];
    [|right; right; exists st; split; [by left|done]].
  destruct (getEdgeNames env out st) as [edgeNames|status|what] eqn:Hnames;
    simpl.
  - pose proof (getEdgeNames_loop_length _ _ _ Hnames) as Hlen. simpl in Hlen.
    destruct (bool_decide_reflect (edgeNames = [])) as [->|Hne].
    + left. eexists. do 4 (split; [done|]).
      by destruct (edgeTypes_ st).
    + right. right. eexists. split; [|done]. right.
      do 2 (split; [done|]). exists edgeNames. rewrite Hy. by simpl.
  - exfalso. revert Hnames. unfold getEdgeNames. generalize (@nil string).
    induction (edgeTypes_ st) as [|edgeType rest IH]; intros names; [done|].
    simpl. destruct (toEdgeName _ _ _); [apply IH|done..].
  - right. left. by eexists.
Qed.

(** X22. A query over all edges without a YIELD list is projected with a
    YIELD list of one destination-id column per traversed edge type, in
    the order of the edge types, so that its result has as many columns
    as edge types; and with no edge type at all it ends with the error
    for the missing edge name. *)
Theorem finishExecution_over_all onResult_ st rpcResp :
  isOverAllEdge (expCtx_ st) = true →
  yields_ st = [] →
  (edgeTypes_ st = [] →
   finishExecution env out onResult_ st rpcResp
   = F_doError "get edge name failed") ∧
  (∀ st',
     (∃ outputs, finishExecution env out onResult_ st rpcResp
                 = F_onResult st' outputs) ∨
     (∃ resp_, finishExecution env out onResult_ st rpcResp
               = F_doFinish st' resp_) →
     ∃ edgeNames,
       getEdgeNames env out st = Ok edgeNames ∧
       length edgeNames = length (edgeTypes_ st) ∧
       yields_ st' = EdgeDstIdColumn out <$> edgeNames ∧
       length (getResultColumnNames st') = length (edgeTypes_ st)).
Proof.
  intros Hall Hy. split.
  - intros Hnone. unfold finishExecution, getEdgeNames.
    rewrite Hall, Hy, Hnone. simpl. by rewrite ?bool_decide_eq_true_2.
  - intros st' Hend.
    destruct (finishExecution_state onResult_ st rpcResp)
      as [(status & Heq & _)|[(what & Heq)|(st1 & Hst1 & Heq)]].
    { destruct Hend as [[? Hend]|[? Hend]]; congruence. }
    { destruct Hend as [[? Hend]|[? Hend]]; congruence. }
    assert (st' = st1) as ->.
    { rewrite Heq in Hend. destruct onResult_.
      - destruct (setupInterimResult env out st1 rpcResp);
          destruct Hend as [[? Hend]|[? Hend]]; congruence.
      - destruct (toThriftResponse env st1 rpcResp);
          [|destruct (processFinalResult _ _ _ _ _)|];
          destruct Hend as [[? Hend]|[? Hend]]; congruence. }
    destruct Hst1 as [[Hno _]|(_ & _ & edgeNames & Hnames & Hlen & _ & ->)].
    { rewrite Hall, Hy in Hno. by rewrite bool_decide_eq_true_2 in Hno. }
    exists edgeNames. split; [done|]. split; [done|].
    rewrite yields_set_yields. split; [done|].
    unfold getResultColumnNames.
    by rewrite yields_set_yields, length_map, length_fmap.
Qed.

(** X23. The terminal response: it always carries the column names, one
    per YIELD column of the state projected; it carries rows only when
    there is one, never an empty list, so none when the response has no
    edge; and the rows are those of toThriftResponse, at most one per
    edge of the response and each as wide as the column names. With the
    hook unset nothing is handed to it. *)
Theorem finishExecution_response st rpcResp st' resp_ :
  finishExecution env out false st rpcResp = F_doFinish st' resp_ →
  column_names resp_ = Some (getResultColumnNames st') ∧
  rows resp_ ≠ Some [] ∧
  (response_edges rpcResp = [] → rows resp_ = None) ∧
  (∀ ret, rows resp_ = Some ret →
     toThriftResponse env st' rpcResp = Ok ret ∧
     (length ret ≤ length (response_edges rpcResp))%nat ∧
     ∀ row, row ∈ ret →
       length (columns row) = length (getResultColumnNames st')) ∧
  (∀ st2 outputs,
     finishExecution env out false st rpcResp ≠ F_onResult st2 outputs).
Proof.
  intros Hend.
  destruct (finishExecution_state false st rpcResp)
    as [(status & Heq & _)|[(what & Heq)|(st1 & _ & Heq)]]; [congruence..|].
  rewrite Heq in Hend |- *.
  destruct (toThriftResponse env st1 rpcResp) as [ret| |] eqn:Hret;
    [|by destruct (processFinalResult _ _ _ _ _)|done].
  injection Hend as <- <-. cbn [column_names rows].
  pose proof (proj1 (toThriftResponse_Ok _ _ _ _) Hret) as Hrun.
  pose proof (processFinalResult_rows_le _ _ _ _ Hrun) as Hle.
  split; [done|]. split; [destruct (bool_decide_reflect (ret = [])); congruence|].
  split; [|split; [|done]].
  - intros Hnone. rewrite Hnone in Hle. destruct ret; [done|simpl in Hle; lia].
  - intros ret'. destruct (bool_decide (ret = [])); [done|]. intros [= <-].
    split; [done|]. split; [done|]. intros row Hrow.
    unfold getResultColumnNames. rewrite length_map.
    by eapply processFinalResult_rows_wide.
Qed.

(** What the callback of setupInterimResult holds after a record: the
    schema made from a record, and one encoded row more. *)
Lemma setupInterimResult_cb_inv st record colTypes s s' :
  setupInterimResult_cb out st record colTypes s = Ok s' →
  ∃ schema rws cells,
    s' = Some (schema, rws ++ [RowWriter_encode_under out schema cells]) ∧
    match s with
    | Some sr => sr = (schema, rws)
    | None =>
        rws = [] ∧ length record = length colTypes ∧
        Collector_getSchema out record (getResultColumnNames st) colTypes
        = Ok schema
    end.
Proof.
  unfold setupInterimResult_cb.
  intros ([schema rws] & Hsr & (cells & _ & [= <-])%bind_Ok_inv)%bind_Ok_inv.
  exists schema, rws, cells. split; [done|].
  destruct s as [sr|]; [by injection Hsr|].
  destruct (bool_decide_reflect (length record ≠ length colTypes)) as [|Hlen];
    [done|].
  apply bind_Ok_inv in Hsr as (schema' & Hschema & [= <- <-]).
  split; [done|]. split; [|done].
  by destruct (decide (length record = length colTypes)).
Qed.

(** X24. The interim result of pipe mode: it carries the column names of
    the state projected; it has a row set only when a record reached the
    callback, so none when the response has no edge; the row set then
    has at least one row and at most one per edge of the response, and
    its schema is the one that Collector::getSchema made from a record
    and the column types, both as long as the YIELD list, under those
    column names. With the hook set no terminal response is made. *)
Theorem finishExecution_interim st rpcResp st' outputs :
  finishExecution env out true st rpcResp = F_onResult st' outputs →
  ir_colNames outputs = getResultColumnNames st' ∧
  (response_edges rpcResp = [] → ir_rsWriter outputs = None) ∧
  (∀ schema rws, ir_rsWriter outputs = Some (schema, rws) →
     rws ≠ [] ∧
     (length rws ≤ length (response_edges rpcResp))%nat ∧
     ∃ record colTypes,
       length record = length (yields_ st') ∧
       length colTypes = length (yields_ st') ∧
       Collector_getSchema out record (getResultColumnNames st') colTypes
       = Ok schema) ∧
  (∀ st2 resp_,
     finishExecution env out true st rpcResp ≠ F_doFinish st2 resp_).
Proof.
  intros Hend.
  destruct (finishExecution_state true st rpcResp)
    as [(status & Heq & _)|[(what & Heq)|(st1 & _ & Heq)]]; [congruence..|].
  rewrite Heq in Hend |- *.
  destruct (setupInterimResult env out st1 rpcResp) as [outputs1| |] eqn:Hout;
    [|done..].
  injection Hend as <- <-. revert Hout. unfold setupInterimResult.
  intros (rsWriter & Hrun & [= <-])%bind_Ok_inv. cbn [ir_colNames ir_rsWriter].
  pose (f := λ s : option (Schema * list string),
          match s with Some sr => length sr.2 | None => 0%nat end).
  assert (f rsWriter ≤ length (response_edges rpcResp))%nat as Hle.
  { apply (processFinalResult_count_le env st1 (setupInterimResult_cb out st1) f)
      in Hrun; [done|].
    intros colTypes record s s'
      (schema & rws & cells & -> & Hs)%setupInterimResult_cb_inv.
    unfold f. simpl. rewrite length_app. simpl.
    destruct s as [sr|]; [subst sr; simpl; lia|].
    destruct Hs as (-> & _). simpl. lia. }
  assert (match rsWriter with
          | Some sr =>
              sr.2 ≠ [] ∧
              ∃ record colTypes,
                length record = length (yields_ st1) ∧
                length colTypes = length (yields_ st1) ∧
                Collector_getSchema out record
                  (getResultColumnNames st1) colTypes = Ok sr.1
          | None => True
          end) as Hinv.
  { eapply (processFinalResult_cb_invariant env st1
              (setupInterimResult_cb out st1)
              (λ s, match s with
                    | Some sr =>
                        sr.2 ≠ [] ∧
                        ∃ record colTypes,
                          length record = length (yields_ st1) ∧
                          length colTypes = length (yields_ st1) ∧
                          Collector_getSchema out record
                            (getResultColumnNames st1) colTypes = Ok sr.1
                    | None => True
                    end)); [| |exact Hrun]; [|done].
    intros colTypes record s s' Htypes Hrecord IH
      (schema' & rws' & cells & -> & Hs)%setupInterimResult_cb_inv.
    simpl. split; [by destruct rws'|]. destruct s as [sr|].
    - subst sr. by destruct IH.
    - destruct Hs as (_ & _ & Hschema). by exists record, colTypes. }
  split; [done|]. split; [|split; [|done]].
  - intros Hnone. rewrite Hnone in Hle.
    destruct rsWriter as [[schema rws]|]; [|done]. exfalso.
    destruct Hinv as [Hne _]. unfold f in Hle. simpl in *.
    destruct rws; [done|simpl in Hle; lia].
  - intros schema rws ->. destruct Hinv as [Hne Hschema].
    split; [done|]. split; [exact Hle|exact Hschema].
Qed.

End finish.

(* ----------------------------------------------------------------- *)
(** ** GoExecutor: a response without an edge *)

Lemma list_bind_nil_inv {A B} (f : A → list B) (l : list A) x :
  l ≫= f = [] → x ∈ l → f x = [].
Proof.
  induction l as [|y l IH]; [by intros _ ?%elem_of_nil|].
  change ((y :: l) ≫= f) with (f y ++ (l ≫= f)).
  intros [Hy Hl]%app_eq_nil [->|Hx]%elem_of_cons; [done|by apply IH].
Qed.

Section dead_end.
Import GoExecutor GoExecutorFlow GoExecutorFinish.
Variables (env : Env) (out : Output).

(** The column types are computed without a failing status. *)
Lemma calculateExprTypes_not_Err st yields status :
  calculateExprTypes env st yields ≠ Err status.
Proof.
  induction yields as [|column rest IH]; simpl; [done|].
  assert (∀ status', calculateExprType env st (col_expr column) ≠ Err status')
    as Hone.
  { intros status'. unfold calculateExprType, getPropTypeFromInterim.
    destruct (kind (col_expr column)); try done;
      repeat match goal with
             | |- context [match ?x with _ => _ end] => destruct x; try done
             end. }
  destruct (calculateExprType env st (col_expr column)) as [type|status'|what]
    eqn:Hty; simpl; [|by destruct (Hone status')|done].
  by destruct (calculateExprTypes env st rest) as [types|status'|what'].
Qed.

(** No edge, no record: processFinalResult only computes the column
    types, and leaves what the callback captures alone. *)
Lemma processFinalResult_no_edges {S} (cb : Callback S) st rpcResp s :
  response_edges rpcResp = [] →
  processFinalResult env st rpcResp cb s
  = (colTypes ← calculateExprTypes env st (yields_ st); Ok s).
Proof.
  intros Hnone. unfold processFinalResult.
  destruct (calculateExprTypes env st (yields_ st)) as [colTypes| |];
    [|done..].
  simpl. rewrite foreach_skip; [done|].
  intros resp Hresp.
  pose proof (list_bind_nil_inv _ _ resp Hnone Hresp) as Hvs.
  cbv beta in Hvs.
  destruct (get_vertices resp) as [vertices|]; [|done]. simpl in Hvs.
  apply foreach_skip. intros vdata Hvdata.
  pose proof (list_bind_nil_inv _ _ vdata Hvs Hvdata) as Hes.
  cbv beta in Hes.
  apply foreach_skip. intros edata Hedata.
  pose proof (list_bind_nil_inv _ _ edata Hes Hedata) as Hed.
  cbv beta in Hed.
  destruct (get_edges edata) as [|edge edges]; [done|].
  discriminate Hed.
Qed.

(** X11. A get_neighbors response without a single edge, when it is not
    wholly failed and the trace, if it is on, runs through: on a hop that
    is not final the continuation ends with the output for empty inputs;
    on the final hop it ends with that output or goes on to
    finishExecution with that response, and this only when no
    destination-tag property is referenced. finishExecution then makes a
    result without a row: an interim result without a row set or a
    response without rows; and it calls doError only for a query over
    all edges without a YIELD list that traverses no edge type, with the
    error for the missing edge name. *)
Theorem dead_end_outcomes onResult_ st result :
  completeness result ≠ 0 →
  response_edges result = [] →
  FLAGS_trace_go env = false ∨ traceable result →
  (isFinalStep st = false →
   ∃ st', on_getNeighbors env st result = A_onEmptyInputs st') ∧
  (isFinalStep st = true →
   (∃ st', on_getNeighbors env st result = A_onEmptyInputs st') ∨
   on_getNeighbors env st result = A_finishExecution st result ∧
   hasDstTagProp (expCtx_ st) = false ∧
   match finishExecution env out onResult_ st result with
   | F_doError status =>
       status = "get edge name failed" ∧
       isOverAllEdge (expCtx_ st) = true ∧ yields_ st = [] ∧
       edgeTypes_ st = []
   | F_fatal _ => True
   | F_onResult _ outputs => onResult_ = true ∧ ir_rsWriter outputs = None
   | F_doFinish _ resp_ => onResult_ = false ∧ rows resp_ = None
   end).
Proof.
  intros Hc Hnone Htrace.
  rewrite (on_getNeighbors_continues env st result Hc Htrace).
  destruct (onStepOutResponse_dead_end env st result Hnone) as [Hhop Hlast].
  split; [exact Hhop|].
  intros [Hempty|[Hfinish Hdst]]%Hlast; [by left|]. right.
  split; [done|]. split; [done|].
  destruct (finishExecution_state env out onResult_ st result)
    as [(status & -> & Hstatus)|[(what & ->)|(st1 & _ & ->)]]; [done..|].
  pose proof (calculateExprTypes_not_Err st1 (yields_ st1)) as Hty.
  destruct onResult_.
  - unfold setupInterimResult.
    rewrite (processFinalResult_no_edges _ st1 result None Hnone).
    destruct (calculateExprTypes env st1 (yields_ st1)) as [types|status|what];
      simpl; [done|by destruct (Hty status)|done].
  - unfold toThriftResponse.
    rewrite !(processFinalResult_no_edges _ st1 result [] Hnone).
    destruct (calculateExprTypes env st1 (yields_ st1)) as [types|status|what];
      simpl; [done|by destruct (Hty status)|done].
Qed.

End dead_end.

(* ----------------------------------------------------------------- *)
(** ** GoExecutor: the first request *)

Section first_request.
Import GoExecutor GoExecutorFlow.
Variable env : Env.

Lemma starts_set_starts v st : starts_ (set_starts v st) = v.
Proof. by destruct st. Qed.

Lemma curStep_set_starts v st : curStep_ (set_starts v st) = curStep_ st.
Proof. by destruct st. Qed.

(** X25. The first get_neighbors request of an execution goes out only
    after both preparations succeeded and left start vertices; it asks
    for exactly those vertices, each once when the query is DISTINCT and
    as they were listed when it is not, on the hop that the preparation
    left. Without a start vertex the execution ends with the output for
    empty inputs and no request. *)
Theorem execute_first_request prepareClauses setupStarts st st' req :
  execute env prepareClauses setupStarts st = A_getNeighbors st' req →
  ∃ st0 st1,
    prepareClauses st = Ok st0 ∧ setupStarts st0 = Ok st1 ∧
    starts_ st1 ≠ [] ∧
    req_vertices req = starts_ st' ∧
    (∀ v, v ∈ req_vertices req ↔ v ∈ starts_ st1) ∧
    (distinct_ st1 = true → NoDup (req_vertices req)) ∧
    (distinct_ st1 = false → req_vertices req = starts_ st1) ∧
    curStep_ st' = curStep_ st1 ∧
    stepOut env st' = Ok req.
Proof.
  unfold execute.
  destruct (prepareClauses st) as [st0| |] eqn:Hprep; [|done..].
  destruct (setupStarts st0) as [st1| |] eqn:Hsetup; [|done..].
  destruct (bool_decide_reflect (starts_ st1 = [])) as [|Hne]; [done|].
  unfold stepOut_action.
  destruct (stepOut env _) as [req0| |] eqn:Hreq; [|done..].
  intros [= <- <-]. exists st0, st1.
  do 3 (split; [done|]).
  rewrite (stepOut_vertices _ _ _ Hreq). split; [done|].
  destruct (distinct_ st1).
  - cbv zeta. rewrite starts_set_starts, curStep_set_starts.
    split; [intros v; by rewrite elem_of_elements, elem_of_list_to_set|].
    split; [intros _; apply NoDup_elements|]. by split.
  - split; [done|]. split; [done|]. by split.
Qed.

End first_request.

(* ----------------------------------------------------------------- *)
(** ** GoExecutor: the number of round trips *)

Section round_trips.
Import GoExecutor GoExecutorFlow.
Variables (env : Env) (rsf : RowSetFormat).

Lemma answer_requests_left a reply :
  hop_in_range a →
  hop_in_range (answer env rsf a reply) ∧
  (requests_left (answer env rsf a reply) ≤ Z.max 0 (requests_left a - 1)).
Proof.
  destruct a as [| | |st req|st req r|st reqs ids r|]; simpl;
    try (intros _; split; [done|lia]).
  - intros Hle.
    destruct (on_getNeighbors env st (to_getNeighbors reply))
      as [| | |st1 req1|st1 req1 r1|st1 reqs1 ids1 r1|] eqn:Hhop; simpl;
      try (split; [done|lia]).
    + apply on_getNeighbors_inv in Hhop as (Hfinal & _ & _ & Hst1 & _).
      destruct (next_hop_fields st
                  (getDstIdsFromResp st (to_getNeighbors reply)).1
                  (getDstIdsFromResp st (to_getNeighbors reply)).2)
        as (_ & Hcur & Hsteps & _).
      cbv zeta in Hcur, Hsteps, Hst1. rewrite <- Hst1 in Hcur, Hsteps.
      apply bool_decide_eq_false in Hfinal. rewrite Hcur, Hsteps. lia.
  - intros _.
    pose proof (on_getVertexProps_cases env st r (to_getVertexProps reply))
      as H.
    destruct (on_getVertexProps env st r _); simpl; try done; split; try done;
      lia.
  - intros _.
    pose proof (on_getEdgeProps_cases env rsf st ids r (to_getEdgeProps reply))
      as H.
    destruct (on_getEdgeProps env rsf st ids r _); simpl; try done;
      split; try done; lia.
Qed.

Lemma answers_requests_left replies a :
  hop_in_range a →
  hop_in_range (fold_left (answer env rsf) replies a) ∧
  requests_left (fold_left (answer env rsf) replies a)
  ≤ Z.max 0 (requests_left a - Z.of_nat (length replies)).
Proof.
  revert a. induction replies as [|reply replies IH]; intros a Ha.
  - simpl. split; [done|lia].
  - cbn [fold_left length].
    destruct (answer_requests_left a reply Ha) as [Ha' Hle].
    destruct (IH _ Ha') as [Hr Hb]. split; [done|lia].
Qed.

(** X26. A traversal makes a bounded number of storage round trips: from
    a get_neighbors request on a hop that is not beyond the step count,
    whatever the replies are, no request is outstanding once as many
    replies have been handled as there are hops left plus two. From the
    first hop of [n] steps that is [n + 2]. *)
Theorem round_trips_bounded st req replies :
  curStep_ st ≤ steps_ st →
  steps_ st - curStep_ st + 3 ≤ Z.of_nat (length replies) →
  is_request (fold_left (answer env rsf) replies (A_getNeighbors st req))
  = false.
Proof.
  intros Hle Hlen.
  destruct (answers_requests_left replies (A_getNeighbors st req) Hle)
    as [Hr Hb].
  destruct (fold_left _ _ _) as [| | |st1 req1| | |];
    simpl in *; try done; lia.
Qed.

End round_trips.

(* ----------------------------------------------------------------- *)
(** ** GoExecutor: destination properties, from the reply to the getter *)

Section dst_props.
Import GoExecutor GoExecutorFlow.
Variable env : Env.

Lemma expCtx_set_vertexHolder v st :
  expCtx_ (set_vertexHolder v st) = expCtx_ st.
Proof. by destruct st. Qed.

Lemma vertexHolder_set_vertexHolder v st :
  vertexHolder_ (set_vertexHolder v st) = v.
Proof. by destruct st. Qed.

Lemma VertexHolder_add_data_frame h resp id :
  id ∉ get_vertex_id <$> default [] (get_vertices resp) →
  VertexHolder.data_ (VertexHolder.add h resp) !! id
  = VertexHolder.data_ h !! id.
Proof.
  intros Hid. unfold VertexHolder.add.
  destruct (get_vertices resp) as [vertices|]; [|done].
  destruct (get_vertex_schema resp) as [vertexSchema|]; [|done].
  cbn [VertexHolder.data_].
  by rewrite (vertex_table_frame
                (λ vdata,
                   fold_left
                     (λ (m : gmap TagID (Schema * string)) td,
                        match vertexSchema !! td_tag_id td with
                        | Some schema =>
                            <[td_tag_id td := (schema, td_data td)]> m
                        | None => m
                        end)
                     (get_tag_data vdata) ∅)).
Qed.

Lemma VertexHolder_adds_data_frame resps h id :
  (∀ resp, resp ∈ resps →
     id ∉ get_vertex_id <$> default [] (get_vertices resp)) →
  VertexHolder.data_ (fold_left VertexHolder.add resps h) !! id
  = VertexHolder.data_ h !! id.
Proof.
  revert h. induction resps as [|resp resps IH]; intros h Hid; [done|].
  simpl. rewrite IH by (intros r Hr; apply Hid; by right).
  apply VertexHolder_add_data_frame, Hid. by left.
Qed.

Lemma VertexHolder_add_data_lookup h resp vertices vertexSchema vdata td
    schema :
  get_vertices resp = Some vertices →
  get_vertex_schema resp = Some vertexSchema →
  NoDup (get_vertex_id <$> vertices) →
  NoDup (td_tag_id <$> get_tag_data vdata) →
  vdata ∈ vertices →
  td ∈ get_tag_data vdata →
  vertexSchema !! td_tag_id td = Some schema →
  ∃ m, VertexHolder.data_ (VertexHolder.add h resp) !! get_vertex_id vdata
       = Some m ∧
       m !! td_tag_id td = Some (schema, td_data td).
Proof.
  intros Hvertices Hschemas Hids Htags Hvdata Htd Hschema.
  unfold VertexHolder.add. rewrite Hvertices, Hschemas.
  cbn [VertexHolder.data_]. eexists. split.
  - by apply (vertex_table_lookup
                (λ vdata,
                   fold_left
                     (λ (m : gmap TagID (Schema * string)) td,
                        match vertexSchema !! td_tag_id td with
                        | Some schema =>
                            <[td_tag_id td := (schema, td_data td)]> m
                        | None => m
                        end)
                     (get_tag_data vdata) ∅)).
  - by apply tag_table_lookup.
Qed.

(** X27. From the reply to getVertexProps to the getter of the
    projection: when the continuation goes on to finishExecution, a
    destination-tag property of a vertex that the reply carries is read
    from the blob and under the schema of the last response of the reply
    that lists the vertex, whatever the holder held before and whatever
    the other responses of the reply carry. *)
Theorem dst_prop_is_read_from_the_reply st stepOutResp result st' r
    before resp after vertices vertexSchema vdata td schema tag prop :
  on_getVertexProps env st stepOutResp result = A_finishExecution st' r →
  responses result = before ++ resp :: after →
  (∀ resp', resp' ∈ after →
     get_vertex_id vdata
       ∉ get_vertex_id <$> default [] (get_vertices resp')) →
  get_vertices resp = Some vertices →
  get_vertex_schema resp = Some vertexSchema →
  NoDup (get_vertex_id <$> vertices) →
  NoDup (td_tag_id <$> get_tag_data vdata) →
  vdata ∈ vertices →
  td ∈ get_tag_data vdata →
  vertexSchema !! td_tag_id td = Some schema →
  getTagId (expCtx_ st) tag = Some (td_tag_id td) →
  getters_getDstTagProp env st' (get_vertex_id vdata) tag prop
  = match getPropByName
            (RowReader_getRowReader (rowFormat env) (td_data td) schema)
            prop with
    | Some v => Ok v
    | None => Err ("get prop(" +:+ prop +:+ ") failed")
    end.
Proof.
  unfold on_getVertexProps, fetchVertexProps_cb.
  destruct (bool_decide (completeness result = 0)); [done|].
  cbn [snd resume]. intros [= <- <-] Hresps Hafter.
  intros Hvertices Hschemas Hids Htags Hvdata Htd Hschema Htag.
  unfold getters_getDstTagProp.
  rewrite expCtx_set_vertexHolder, Htag, vertexHolder_set_vertexHolder.
  unfold VertexHolder.get.
  rewrite Hresps, fold_left_app. cbn [fold_left].
  rewrite VertexHolder_adds_data_frame by done.
  destruct (VertexHolder_add_data_lookup
              (fold_left VertexHolder.add before
                 (default VertexHolder.empty (vertexHolder_ st)))
              resp vertices vertexSchema vdata td schema)
    as (m & -> & ->); [done..|].
  cbn [fst snd]. by destruct (getPropByName _ _).
Qed.

End dst_props.

(* ----------------------------------------------------------------- *)
(** ** GoExecutor: the edge keys cover the final response *)

(** What one turn of a loop establishes and the other turns keep holds
    after the loop. *)
Lemma foreach_reaches {A S} (P : S → Prop) (body : A → S → Result S) l x s s' :
  x ∈ l →
  (∀ s s', body x s = Ok s' → P s') →
  (∀ y s s', y ∈ l → P s → body y s = Ok s' → P s') →
  foreach body l s = Ok s' → P s'.
Proof.
  revert s. induction l as [|x0 xs IH]; intros s Hx Hest Hkeep.
  - by apply elem_of_nil in Hx.
  - simpl. intros (s1 & H1 & H2)%bind_Ok_inv.
    apply elem_of_cons in Hx as [->|Hx].
    + eapply (foreach_invariant P); [|eapply Hest, H1|exact H2].
      intros y t t' Hy. apply Hkeep. by right.
    + eapply IH; [done|done| |exact H2].
      intros y t t' Hy. apply Hkeep. by right.
Qed.

Section edge_keys_cover.
Import GoExecutor GoExecutorFlow.
Variable env : Env.

(** The loop over the edges of one edge type keeps every key filed. *)
Lemma edgeKeys_of_vertex_keeps schemas vdata type key
    (m m' : gmap EdgeType (list EdgeKey)) :
  (∃ keys, m !! type = Some keys ∧ key ∈ keys) →
  edgeKeys_of_vertex env schemas vdata m = Ok m' →
  ∃ keys, m' !! type = Some keys ∧ key ∈ keys.
Proof.
  pose (P := λ m : gmap EdgeType (list EdgeKey),
          ∃ keys, m !! type = Some keys ∧ key ∈ keys).
  intros Hm Hrun. change (P m'). change (P m) in Hm.
  eapply (foreach_invariant P); [|exact Hm|exact Hrun].
  clear m m' Hm Hrun. intros edata m m' _ Hm.
  intros (currEdgeSchema & _ & Hrun)%bind_Ok_inv.
  eapply (foreach_invariant P); [|exact Hm|exact Hrun].
  clear m m' Hm Hrun. intros edge m m' _ (keys & Hkeys & Hkey). cbv zeta.
  destruct currEdgeSchema as [schema|]; [|intros [= <-]; by exists keys].
  destruct (getInt _ _) as [rc rank]. destruct rc; [|done].
  intros [= <-]. unfold P.
  destruct (decide (type = Z.abs (edata_type edata))) as [->|Hne].
  - rewrite lookup_insert_eq, Hkeys. eexists. split; [done|].
    apply elem_of_app. by left.
  - rewrite lookup_insert_ne by done. by exists keys.
Qed.

(** The loop over one vertex files the key of each of its edges. *)
Lemma edgeKeys_of_vertex_files schemas vdata edata edge
    (m m' : gmap EdgeType (list EdgeKey)) :
  schemas ≠ ∅ →
  edata ∈ edge_data vdata →
  edge ∈ get_edges edata →
  edgeKeys_of_vertex env schemas vdata m = Ok m' →
  ∃ schema keys,
    schemas !! edata_type edata = Some schema ∧
    (getInt (RowReader_getRowReader (rowFormat env) (get_props edge) schema)
       _RANK).1 = SUCCEEDED ∧
    m' !! Z.abs (edata_type edata) = Some keys ∧
    {| ek_src := get_dst edge; ek_dst := get_vertex_id vdata;
       ek_ranking :=
         (getInt (RowReader_getRowReader (rowFormat env) (get_props edge)
                    schema) _RANK).2;
       ek_edge_type := Z.abs (edata_type edata) |} ∈ keys.
Proof.
  intros Hschemas Hedata Hedge Hrun.
  destruct (schemas !! edata_type edata) as [schema|] eqn:Hschema.
  - exists schema.
    pose (K := {| ek_src := get_dst edge; ek_dst := get_vertex_id vdata;
                  ek_ranking :=
                    (getInt (RowReader_getRowReader (rowFormat env)
                               (get_props edge) schema) _RANK).2;
                  ek_edge_type := Z.abs (edata_type edata) |}).
    pose (P := λ m : gmap EdgeType (list EdgeKey),
            (getInt (RowReader_getRowReader (rowFormat env) (get_props edge)
                       schema) _RANK).1 = SUCCEEDED ∧
            ∃ keys, m !! Z.abs (edata_type edata) = Some keys ∧ K ∈ keys).
    assert (P m') as (Hrc & keys & Hkeys & HK);
      [|exists keys; by repeat split].
    revert Hrun. unfold edgeKeys_of_vertex.
    apply (foreach_reaches P _ _ edata); [done| |].
    + intros m1 m1' (currEdgeSchema & Hcur & Hrun)%bind_Ok_inv.
      rewrite bool_decide_eq_false_2, Hschema in Hcur by done.
      injection Hcur as <-. revert Hrun.
      apply (foreach_reaches P _ _ edge); [done| |].
      * intros m2 m2'. cbv zeta.
        destruct (getInt _ _) as [rc rank]. destruct rc; [|done].
        intros [= <-]. unfold P, K. simpl. split; [done|].
        rewrite lookup_insert_eq. eexists. split; [done|].
        apply elem_of_app. right. by left.
      * intros edge' m2 m2' _ (Hrc & keys & Hkeys & HK). cbv zeta.
        destruct (getInt (RowReader_getRowReader _ (get_props edge') _) _)
          as [rc rank].
        destruct rc; [|done].
        intros [= <-]. unfold P. split; [done|].
        rewrite lookup_insert_eq, Hkeys. eexists. split; [done|].
        apply elem_of_app. by left.
    + intros edata' m1 m1' _ (Hrc & HP).
      intros (currEdgeSchema & _ & Hrun)%bind_Ok_inv. split; [done|].
      revert Hrun.
      apply (foreach_invariant
               (λ m : gmap EdgeType (list EdgeKey),
                  ∃ keys, m !! Z.abs (edata_type edata) = Some keys ∧ K ∈ keys));
        [|done].
      intros edge' m2 m2' _ (keys & Hkeys & HK). cbv zeta.
      destruct currEdgeSchema as [schema'|]; [|intros [= <-]; by exists keys].
      destruct (getInt (RowReader_getRowReader _ (get_props edge') _) _)
        as [rc rank].
      destruct rc; [|done].
      intros [= <-].
      destruct (decide (Z.abs (edata_type edata) = Z.abs (edata_type edata')))
        as [Heq|Hne].
      * rewrite <- Heq, lookup_insert_eq, Hkeys. eexists. split; [done|].
        apply elem_of_app. by left.
      * rewrite lookup_insert_ne by done. by exists keys.
  - exfalso. revert Hrun. unfold edgeKeys_of_vertex.
    apply (foreach_reaches (λ _, False) _ _ edata); [done| |done].
    intros m1 m1' (currEdgeSchema & Hcur & _)%bind_Ok_inv.
    by rewrite bool_decide_eq_false_2, Hschema in Hcur.
Qed.

Lemma edgeKeys_of_response_files rpcResp m resp vertices vdata edata edge :
  edgeKeys_of_response env rpcResp = Ok m →
  resp ∈ responses rpcResp →
  get_vertices resp = Some vertices →
  vdata ∈ vertices →
  edata ∈ edge_data vdata →
  edge ∈ get_edges edata →
  default ∅ (get_edge_schema resp) ≠ ∅ →
  ∃ schema keys,
    default ∅ (get_edge_schema resp) !! edata_type edata = Some schema ∧
    (getInt (RowReader_getRowReader (rowFormat env) (get_props edge) schema)
       _RANK).1 = SUCCEEDED ∧
    m !! Z.abs (edata_type edata) = Some keys ∧
    {| ek_src := get_dst edge; ek_dst := get_vertex_id vdata;
       ek_ranking :=
         (getInt (RowReader_getRowReader (rowFormat env) (get_props edge)
                    schema) _RANK).2;
       ek_edge_type := Z.abs (edata_type edata) |} ∈ keys.
Proof.
  intros Hrun Hresp Hvertices Hvdata Hedata Hedge Hschemas.
  pose (P := λ m : gmap EdgeType (list EdgeKey),
          ∃ schema keys,
            default ∅ (get_edge_schema resp) !! edata_type edata
            = Some schema ∧
            (getInt (RowReader_getRowReader (rowFormat env) (get_props edge)
                       schema) _RANK).1 = SUCCEEDED ∧
            m !! Z.abs (edata_type edata) = Some keys ∧
            {| ek_src := get_dst edge; ek_dst := get_vertex_id vdata;
               ek_ranking :=
                 (getInt (RowReader_getRowReader (rowFormat env)
                            (get_props edge) schema) _RANK).2;
               ek_edge_type := Z.abs (edata_type edata) |} ∈ keys).
  change (P m). revert Hrun. unfold edgeKeys_of_response.
  assert (∀ schemas' vdata' m1 m1',
            P m1 → edgeKeys_of_vertex env schemas' vdata' m1 = Ok m1' → P m1')
    as Hkeep.
  { intros schemas' vdata' m1 m1' (schema & keys & Hs & Hrc & Hkeys & HK) Hrun.
    destruct (edgeKeys_of_vertex_keeps schemas' vdata' _ _ m1 m1'
                (ex_intro _ keys (conj Hkeys HK)) Hrun) as (keys' & ? & ?).
    by exists schema, keys'. }
  apply (foreach_reaches P _ _ resp); [done| |].
  - intros m1 m1'. rewrite Hvertices.
    apply (foreach_reaches P _ _ vdata); [done| |].
    + intros m2 m2' Hrun.
      by apply (edgeKeys_of_vertex_files _ vdata edata edge m2 m2').
    + intros vdata' m2 m2' _. apply Hkeep.
  - intros resp' m1 m1' _ HP.
    destruct (get_vertices resp') as [vertices'|]; [|by intros [= <-]].
    revert HP. apply foreach_invariant. intros vdata' m2 m2' _. apply Hkeep.
Qed.

(** X28. The getEdgeProps requests of a reverse traversal cover the final
    response: for every edge of a response that carries edge schemas,
    some request holds the key that runs from the edge's destination to
    the vertex it is listed under, with the absolute value of its type
    and the rank read from its properties. *)
Theorem reverse_requests_cover_the_response st rpcResp st' reqs dstids r
    resp vertices vdata edata edge :
  maybeFinishExecution env st rpcResp = A_getEdgeProps st' reqs dstids r →
  resp ∈ responses rpcResp →
  get_vertices resp = Some vertices →
  vdata ∈ vertices →
  edata ∈ edge_data vdata →
  edge ∈ get_edges edata →
  default ∅ (get_edge_schema resp) ≠ ∅ →
  ∃ schema req,
    default ∅ (get_edge_schema resp) !! edata_type edata = Some schema ∧
    (getInt (RowReader_getRowReader (rowFormat env) (get_props edge) schema)
       _RANK).1 = SUCCEEDED ∧
    req ∈ reqs ∧
    {| ek_src := get_dst edge; ek_dst := get_vertex_id vdata;
       ek_ranking :=
         (getInt (RowReader_getRowReader (rowFormat env) (get_props edge)
                    schema) _RANK).2;
       ek_edge_type := Z.abs (edata_type edata) |} ∈ ereq_edges req.
Proof.
  unfold maybeFinishExecution.
  rewrite !isReversely_set_backTracker, !expCtx_set_backTracker.
  destruct (_ || _); [done|].
  destruct (bool_decide _); [done|].
  destruct (_ || _).
  { unfold fetchVertexProps. by destruct (getDstProps _ _). }
  destruct (edgeKeys_of_response env rpcResp) as [keysMap| |] eqn:Hkeys;
    [|done..].
  destruct (edgeProps_of_aliasProps _) as [propsMap| |]; [|done..].
  intros [= _ <- _ _] Hresp Hvertices Hvdata Hedata Hedge Hschemas.
  destruct (edgeKeys_of_response_files _ _ _ _ _ _ _ Hkeys Hresp Hvertices
              Hvdata Hedata Hedge Hschemas)
    as (schema & keys & Hschema & Hrc & Hlook & HK).
  exists schema. eexists. split; [done|]. split; [done|]. split.
  - apply list_elem_of_fmap. exists (Z.abs (edata_type edata), keys).
    split; [done|]. by apply elem_of_map_to_list.
  - done.
Qed.

End edge_keys_cover.

(* ----------------------------------------------------------------- *)
(** ** The further properties, on the concrete instances *)

Lemma decode_entries_are_reads_witness :
  ∃ type,
    ("n", type) ∈ [("id", VID); ("n", INT)] ∧
    field_value
      (RowReader_getRowReader Demo.rf "row" [("id", VID); ("n", INT)]) "n" type
    = Some (NebulaCodecImpl.any_int 3).
Proof.
  apply (decode_entries_are_reads Demo.rf "row" [("id", VID); ("n", INT)]
           {[ "id" := NebulaCodecImpl.any_int64 3;
              "n" := NebulaCodecImpl.any_int 3 ]});
    vm_compute; reflexivity.
Defined.

Lemma decode_field_by_field_witness :
  ({[ "id" := NebulaCodecImpl.any_int64 3;
      "n" := NebulaCodecImpl.any_int 3 ]}
     : gmap string NebulaCodecImpl.Value) !! "n"
  = field_value
      (RowReader_getRowReader Demo.rf "row" [("id", VID); ("n", INT)]) "n" INT.
Proof.
  apply (decode_field_by_field Demo.rf "row" [("id", VID); ("n", INT)]).
  - apply (bool_decide_unpack _). vm_compute. exact I.
  - vm_compute. reflexivity.
  - apply (bool_decide_unpack _). vm_compute. exact I.
Defined.

Lemma prepareOver_registers_what_it_traverses_witness :
  ∃ name,
    getEdgeType
      (GoExecutor.expCtx_
         (GoExecutor.prepareOver Demo.env (Some (Demo2.over_like false))
            Demo.fresh).2) name = Some 1.
Proof.
  apply (prepareOver_registers_what_it_traverses Demo.env
           (Some (Demo2.over_like false)) Demo.fresh);
    [reflexivity|reflexivity|vm_compute; reflexivity|].
  apply (bool_decide_unpack _). vm_compute. exact I.
Defined.

Lemma prepareOver_direction_witness :
  is_Some
    (GoExecutor.edgeHolder_
       (GoExecutor.prepareOver Demo.env (Some (Demo2.over_like true))
          Demo.fresh).2).
Proof.
  destruct (prepareOver_direction Demo.env (Demo2.over_like true) Demo.fresh
              (GoExecutor.prepareOver Demo.env (Some (Demo2.over_like true))
                 Demo.fresh).2)
    as (_ & Hholder & _); [reflexivity|vm_compute; reflexivity|].
  apply Hholder. reflexivity.
Defined.

Lemma on_getNeighbors_next_hop_witness :
  ∃ st' req,
    GoExecutorFlow.on_getNeighbors Demo.env Demo2.go_far Demo.resp
      = GoExecutorFlow.A_getNeighbors st' req ∧
    GoExecutor.curStep_ st' = GoExecutor.curStep_ Demo2.go_far + 1 ∧
    NoDup (GoExecutor.starts_ st').
Proof.
  eexists _, _. split; [vm_compute; reflexivity|].
  destruct (on_getNeighbors_next_hop Demo.env Demo2.go_far Demo.resp _ _
              ltac:(vm_compute; reflexivity))
    as (_ & _ & Hcur & _ & _ & _ & _ & Hnodup & _).
  split; [exact Hcur|exact Hnodup].
Defined.

Lemma hop_loop_bounded_witness :
  ∃ st' req',
    feed Demo.env
      (GoExecutorFlow.A_getNeighbors Demo2.go_far
         {| req_space := 1; req_vertices := [1]; req_edgeTypes := [1];
            req_filter := ""; req_returnCols := [] |})
      [Demo.resp]
    = GoExecutorFlow.A_getNeighbors st' req' ∧
    Z.of_nat (length [Demo.resp])
      ≤ GoExecutor.steps_ Demo2.go_far - GoExecutor.curStep_ Demo2.go_far.
Proof.
  eexists _, _. split; [vm_compute; reflexivity|].
  destruct (hop_loop_bounded Demo.env Demo2.go_far
              {| req_space := 1; req_vertices := [1]; req_edgeTypes := [1];
                 req_filter := ""; req_returnCols := [] |}
              [Demo.resp] _ _
              ltac:(vm_compute; discriminate) ltac:(vm_compute; reflexivity))
    as (Hle & _).
  exact Hle.
Defined.

Lemma dead_end_outcomes_witness :
  ∃ st',
    GoExecutorFlow.on_getNeighbors Demo.env Demo2.go_far Demo2.no_edges
    = GoExecutorFlow.A_onEmptyInputs st'.
Proof.
  destruct (dead_end_outcomes Demo.env Demo2.out false Demo2.go_far
              Demo2.no_edges)
    as [Hhop _]; [discriminate|reflexivity|by left|].
  apply Hhop. reflexivity.
Defined.

Lemma toThriftResponse_row_width_witness :
  ∃ rows row,
    GoExecutor.toThriftResponse Demo.env Demo.go_like Demo.resp = Ok rows ∧
    row ∈ rows ∧
    length (columns row)
    = length (GoExecutor.getResultColumnNames Demo.go_like).
Proof.
  eexists _, _. split; [vm_compute; reflexivity|].
  split; [left|].
  eapply (toThriftResponse_row_width Demo.env Demo.go_like Demo.resp);
    [vm_compute; reflexivity|left].
Defined.

Lemma toThriftResponse_row_count_witness :
  ∃ rows,
    GoExecutor.toThriftResponse Demo.env Demo.go_like Demo.resp = Ok rows ∧
    length rows = length (response_edges Demo.resp).
Proof.
  eexists. split; [vm_compute; reflexivity|].
  destruct (toThriftResponse_row_count Demo.env Demo.go_like Demo.resp _
              ltac:(vm_compute; reflexivity)) as [_ Heq].
  apply Heq; reflexivity.
Defined.

Lemma VertexHolder_add_get_witness :
  VertexHolder.get Demo.rf
    (VertexHolder.add VertexHolder.empty Demo2.vertex_props)
    (get_vertex_id Demo2.vertex_3) 10 "name"
  = match getPropByName
            (RowReader_getRowReader Demo.rf "carol" [("name", STRING)])
            "name" with
    | Some v => Ok v
    | None => Err ("get prop(" +:+ "name" +:+ ") failed")
    end.
Proof.
  apply (VertexHolder_add_get Demo.rf VertexHolder.empty Demo2.vertex_props
           [Demo2.vertex_2; Demo2.vertex_3] {[ 10 := [("name", STRING)] ]}
           Demo2.vertex_3 {| td_tag_id := 10; td_data := "carol" |});
    try reflexivity.
  - apply (bool_decide_unpack _). vm_compute. exact I.
  - apply (bool_decide_unpack _). vm_compute. exact I.
  - right. left.
  - left.
Defined.

Lemma VertexHolder_add_frame_witness :
  VertexHolder.get Demo.rf
    (VertexHolder.add Demo2.holds_7 Demo2.vertex_props) 7 10 "name"
  = VertexHolder.get Demo.rf Demo2.holds_7 7 10 "name".
Proof.
  apply (VertexHolder_add_frame Demo.rf Demo2.holds_7 Demo2.vertex_props
           7 10 "name" {[ 10 := ([("name", STRING)], "dave") ]}
           ([("name", STRING)], "dave")).
  - apply (bool_decide_unpack _). vm_compute. exact I.
  - vm_compute. reflexivity.
  - vm_compute. reflexivity.
Defined.

Lemma VertexHolder_get_unknown_witness :
  VertexHolder.get Demo.rf Demo2.holds_7 7 11 "name" = Err "Unknown Vertex".
Proof.
  apply VertexHolder_get_unknown. intros id' m. unfold Demo2.holds_7. simpl.
  intros [<- <-]%lookup_singleton_Some. vm_compute. reflexivity.
Defined.

Lemma maybeFinishExecution_edge_requests_witness :
  ∃ st' reqs dstids r,
    GoExecutorFlow.maybeFinishExecution Demo.env Demo.go_back
      Demo2.reverse_resp
    = GoExecutorFlow.A_getEdgeProps st' reqs dstids r ∧
    ∀ req, req ∈ reqs → GoExecutorFlow.ereq_edges req ≠ [].
Proof.
  eexists _, _, _, _. split; [vm_compute; reflexivity|].
  intros req Hreq.
  destruct (proj1 (maybeFinishExecution_edge_requests Demo.env Demo.go_back
                     Demo2.reverse_resp _ _ _ _
                     ltac:(vm_compute; reflexivity)) req Hreq)
    as (_ & Hne & _).
  exact Hne.
Defined.

Lemma EdgeHolder_add_keeps_witness :
  ∃ h',
    EdgeHolder.add Demo2.rsf Demo2.holds_1_2 Demo2.edge_props = Ok h' ∧
    EdgeHolder.get Demo.rf h' 1 2 1 "rating"
    = EdgeHolder.get Demo.rf Demo2.holds_1_2 1 2 1 "rating".
Proof.
  eexists. split; [vm_compute; reflexivity|].
  destruct (EdgeHolder_add_keeps Demo.rf Demo2.rsf Demo2.holds_1_2
              Demo2.edge_props _ ltac:(vm_compute; reflexivity))
    as (_ & _ & Hget & _).
  apply Hget. vm_compute. by eexists.
Defined.

Lemma EdgeHolder_add_adds_witness :
  ∃ h' schema,
    EdgeHolder.add Demo2.rsf Demo2.holds_1_2 Demo2.edge_props = Ok h' ∧
    EdgeHolder.schemas_ h' !! 1 = Some schema ∧
    EdgeHolder.getDefaultProp Demo.rf h' 1 "rating"
    = RowReader_getDefaultProp Demo.rf schema "rating".
Proof.
  eexists _.
  destruct (EdgeHolder_add_adds Demo.rf Demo2.rsf Demo2.holds_1_2
              Demo2.edge_props _ ltac:(vm_compute; reflexivity))
    as [_ Hcover].
  destruct (Hcover ltac:(intros src dst type; unfold Demo2.holds_1_2; simpl;
                           intros [v [[= <- <- <-] _]%lookup_singleton_Some];
                           vm_compute; by eexists)
              1 3 1 "rating" ltac:(vm_compute; by eexists))
    as (schema & Hschema & Hdefault).
  exists schema. split; [vm_compute; reflexivity|]. by split.
Defined.

Lemma finishExecution_over_all_witness :
  ∃ st' resp_ edgeNames,
    GoExecutorFinish.finishExecution Demo.env Demo2.out false Demo2.go_all
      Demo.resp
    = GoExecutorFinish.F_doFinish st' resp_ ∧
    GoExecutor.yields_ st' = EdgeDstIdColumn Demo2.out <$> edgeNames ∧
    length (GoExecutor.getResultColumnNames st')
    = length (GoExecutor.edgeTypes_ Demo2.go_all).
Proof.
  eexists _, _. 
  destruct (finishExecution_over_all Demo.env Demo2.out false Demo2.go_all
              Demo.resp eq_refl eq_refl) as [_ Hyields].
  edestruct Hyields as (edgeNames & _ & _ & Hy & Hlen);
    [right; eexists; vm_compute; reflexivity|].
  exists edgeNames. split; [vm_compute; reflexivity|]. by split.
Defined.

Lemma finishExecution_response_witness :
  ∃ st' resp_,
    GoExecutorFinish.finishExecution Demo.env Demo2.out false Demo.go_like
      Demo.resp
    = GoExecutorFinish.F_doFinish st' resp_ ∧
    column_names resp_ = Some (GoExecutor.getResultColumnNames st') ∧
    rows resp_ ≠ Some [].
Proof.
  eexists _, _. split; [vm_compute; reflexivity|].
  destruct (finishExecution_response Demo.env Demo2.out Demo.go_like
              Demo.resp _ _ ltac:(vm_compute; reflexivity))
    as (Hnames & Hrows & _).
  by split.
Defined.

Lemma finishExecution_interim_witness :
  ∃ st' outputs,
    GoExecutorFinish.finishExecution Demo.env Demo2.out true Demo.go_like
      Demo.resp
    = GoExecutorFinish.F_onResult st' outputs ∧
    ir_colNames outputs = GoExecutor.getResultColumnNames st'.
Proof.
  eexists _, _. split; [vm_compute; reflexivity|].
  destruct (finishExecution_interim Demo.env Demo2.out Demo.go_like
              Demo.resp _ _ ltac:(vm_compute; reflexivity))
    as (Hnames & _).
  exact Hnames.
Defined.

Lemma execute_first_request_witness :
  ∃ st' req,
    GoExecutorFlow.execute Demo.env Ok Ok Demo2.go_thrice
    = GoExecutorFlow.A_getNeighbors st' req ∧
    NoDup (req_vertices req).
Proof.
  eexists _, _. split; [vm_compute; reflexivity|].
  destruct (execute_first_request Demo.env Ok Ok Demo2.go_thrice _ _
              ltac:(vm_compute; reflexivity))
    as (st0 & st1 & [= <-] & [= <-] & _ & _ & _ & Hnodup & _).
  apply Hnodup. reflexivity.
Defined.

Lemma round_trips_bounded_witness :
  is_request
    (fold_left (answer Demo.env Demo2.rsf)
       [Demo2.reply; Demo2.reply; Demo2.reply; Demo2.reply]
       (GoExecutorFlow.A_getNeighbors Demo2.go_far Demo2.first_req))
  = false.
Proof.
  apply (round_trips_bounded Demo.env Demo2.rsf Demo2.go_far Demo2.first_req);
    vm_compute; discriminate.
Defined.

Lemma dst_prop_is_read_from_the_reply_witness :
  ∃ st' r,
    GoExecutorFlow.on_getVertexProps Demo.env Demo2.go_dst Demo.resp
      Demo2.vertex_reply
    = GoExecutorFlow.A_finishExecution st' r ∧
    GoExecutor.getters_getDstTagProp Demo.env st'
      (get_vertex_id Demo2.vertex_3) "person" "name"
    = match getPropByName
              (RowReader_getRowReader (rowFormat Demo.env) "carol"
                 [("name", STRING)]) "name" with
      | Some v => Ok v
      | None => Err ("get prop(" +:+ "name" +:+ ") failed")
      end.
Proof.
  eexists _, _. split; [vm_compute; reflexivity|].
  apply (dst_prop_is_read_from_the_reply Demo.env Demo2.go_dst Demo.resp
           Demo2.vertex_reply _ Demo.resp [] Demo2.vertex_props []
           [Demo2.vertex_2; Demo2.vertex_3] {[ 10 := [("name", STRING)] ]}
           Demo2.vertex_3 {| td_tag_id := 10; td_data := "carol" |});
    try reflexivity.
  - intros resp' Hin. by apply elem_of_nil in Hin.
  - apply (bool_decide_unpack _). vm_compute. exact I.
  - apply (bool_decide_unpack _). vm_compute. exact I.
  - right. left.
  - left.
Defined.

Lemma reverse_requests_cover_the_response_witness :
  ∃ st' reqs dstids r schema req,
    GoExecutorFlow.maybeFinishExecution Demo.env Demo.go_back
      Demo2.reverse_resp
    = GoExecutorFlow.A_getEdgeProps st' reqs dstids r ∧
    req ∈ reqs ∧
    {| GoExecutorFlow.ek_src := 3; GoExecutorFlow.ek_dst := 2;
       GoExecutorFlow.ek_ranking :=
         (getInt (RowReader_getRowReader (rowFormat Demo.env) "rr" schema)
            _RANK).2;
       GoExecutorFlow.ek_edge_type := Z.abs (-1) |}
      ∈ GoExecutorFlow.ereq_edges req.
Proof.
  eexists _, _, _, _.
  destruct (reverse_requests_cover_the_response Demo.env Demo.go_back
              Demo2.reverse_resp _ _ _ _
              Demo2.reverse_query [Demo2.reverse_vertex] Demo2.reverse_vertex
              Demo2.reverse_edges {| get_dst := 3; get_props := "rr" |}
              ltac:(vm_compute; reflexivity))
    as (schema & req & _ & _ & Hreq & Hkey);
    [left|reflexivity|left|left|right; left|vm_compute; discriminate|].
  exists schema, req. by split.
Defined.
